(** * Third-Eye: the detection-to-announcement pipeline of [ObjectDetection]

    A shallow embedding of the decision logic of the React component
    [ObjectDetection] (distance estimation, directional guidance, priority
    classification, announcement selection, speech throttling and the frame
    cycle), followed by the properties claimed about it.

    JavaScript numbers are IEEE 754 binary64 values; they are modelled by
    Rocq's primitive floats, whose operations are the same binary64
    operations.  Millisecond time stamps ([Date.now()]) are integers far below
    2^53, on which the subtraction of doubles is exact; they are modelled
    by [Z]. *)

From Stdlib Require Import ZArith List String Ascii Bool Lia Permutation Sorted.
From Stdlib Require Import DecimalString.
From Stdlib Require Import Reals Qreals Lra.
From Stdlib Require Import QArith Qpower Lqa.
From Stdlib Require Import Floats.
Import ListNotations.

Set Warnings "-inexact-float".

Local Open Scope string_scope.
Local Open Scope Z_scope.
Local Open Scope float_scope.

(** ** JavaScript numbers *)

Module JS.

(** [ToBoolean] on a number: [+0], [-0] and [NaN] are falsy. *)
Definition truthy (x : float) : bool := negb (is_nan x || is_zero x).

(** [v || 0] for an optional number [v]: [undefined] is falsy as well. *)
Definition orZero (v : option float) : float :=
  match v with
  | Some x => if truthy x then x else 0
  | None => 0
  end.

(** The integer [n] as a double; exact for [|n| < 2^53]. *)
Definition ofZ (n : Z) : float :=
  match n with
  | Z0 => 0
  | Zpos _ => of_uint63 (Uint63.of_Z n)
  | Zneg p => - of_uint63 (Uint63.of_Z (Zpos p))
  end.

(** [Math.round]: the integer nearest to [x], a tie going to the one nearer
    to +infinity; [NaN], the infinities and the zeros are returned
    unchanged, and a result of magnitude zero keeps the sign of [x]. *)
Definition Math_round (x : float) : float :=
  match Prim2SF x with
  | S754_finite s m e =>
      if (0 <=? e)%Z then x
      else
        let d := (2 ^ (- e))%Z in
        let q := (Zpos m / d)%Z in
        let r := (Zpos m mod d)%Z in
        let n := if s then (if (d <? 2 * r)%Z then q + 1 else q)%Z
                 else (if (d <=? 2 * r)%Z then q + 1 else q)%Z in
        if (n =? 0)%Z then (if s then neg_zero else zero)
        else if s then - ofZ n else ofZ n
  | _ => x
  end.

(** Decimal digits of a natural number, ["0"] for zero. *)
Definition digits (n : Z) : string :=
  NilZero.string_of_uint (N.to_uint (Z.to_N n)).

Fixpoint zeros (k : nat) : string :=
  match k with
  | O => EmptyString
  | S k' => String "0" (zeros k')
  end.

Fixpoint dropTrailingZeros (fuel : nat) (s : Z) : Z :=
  match fuel with
  | O => s
  | S f => if ((s mod 10 =? 0) && negb (s =? 0))%Z
           then dropTrailingZeros f (s / 10)%Z else s
  end.

(** [Number::toString] for a finite double of value [v = m * 2^e >= 10^21]
    (an integer): the shortest decimal [s * 10^p] that rounds back to the
    double, the nearest one when several have that length, printed in
    exponent form [d.ddd e+x].  Seventeen significant digits always round
    back to a binary64 value, and no double has more than 309 decimal
    digits: the two recursions below never run out of steps. *)
Section ToStringLarge.
Variables (m : positive) (e : Z).

Let v : Z := (Zpos m * 2 ^ e)%Z.
(** twice the bounds of the rounding interval of the double *)
Let hi2 : Z := (2 * v + 2 ^ e)%Z.
Let lo2 : Z := if (Zpos m =? 2 ^ 52)%Z then (2 * v - 2 ^ (e - 1))%Z
               else (2 * v - 2 ^ e)%Z.

Definition roundsBack (c : Z) : bool :=
  if Z.even (Zpos m)
  then ((lo2 <=? 2 * c) && (2 * c <=? hi2))%Z
  else ((lo2 <? 2 * c) && (2 * c <? hi2))%Z.

(** candidates with [k] significant digits, for [k] from [k] upwards *)
Fixpoint shortest (fuel : nat) (len k : Z) : Z :=
  match fuel with
  | O => v
  | S f =>
      let p := (10 ^ (len - k))%Z in
      let below := (v / p * p)%Z in
      let above := (below + p)%Z in
      match roundsBack below, roundsBack above with
      | true, true => if (v - below <=? above - v)%Z then below else above
      | true, false => below
      | false, true => above
      | false, false => shortest f len (k + 1)%Z
      end
  end.

Definition toStringLarge : string :=
  let len := Z.of_nat (String.length (digits v)) in
  let c := shortest 17 len 1 in
  let n := Z.of_nat (String.length (digits c)) in
  let s := digits (dropTrailingZeros 400 c) in
  let expo := "e+" ++ digits (n - 1) in
  match s with
  | String d EmptyString => String d expo
  | String d rest => String d ("." ++ rest ++ expo)
  | EmptyString => expo
  end.
End ToStringLarge.

(** [Number.prototype.toFixed(1)].  For a finite [|x| < 10^21] the digits are
    those of the integer [n] nearest to [10 * |x|] (the larger one on a tie),
    with a point before the last digit; other values print as
    [Number::toString] prints them. *)
Definition toFixed1 (x : float) : string :=
  match Prim2SF x with
  | S754_nan => "NaN"
  | S754_infinity s => if s then "-Infinity" else "Infinity"
  | S754_zero _ => "0.0"
  | S754_finite s m e =>
      let sign := if s then "-" else "" in
      if ((0 <=? e) && (10 ^ 21 <=? Zpos m * 2 ^ e))%Z
      then sign ++ toStringLarge m e
      else
        let n := if (0 <=? e)%Z then (10 * Zpos m * 2 ^ e)%Z
                 else ((20 * Zpos m + 2 ^ (- e)) / 2 ^ (1 - e))%Z in
        let ds := digits n in
        let k := String.length ds in
        let z := if (k <=? 1)%nat then zeros (2 - k) ++ ds else ds in
        let k' := String.length z in
        sign ++ substring 0 (k' - 1) z ++ "." ++ substring (k' - 1) 1 z
  end.

End JS.

(** ** Data model of the component *)

(** [interface Detection]; a raw prediction of the model is a [Detection]
    whose [distance] is absent. *)
Record Detection := mkDetection {
  bbox : list float;
  class : string;
  score : float;
  distance : option float
}.

(** The props of [ObjectDetection] that the pipeline reads. *)
Record Props := mkProps {
  warningDistance : float;
  voiceRate : float;
  voicePitch : float;
  filteredObjects : list string;
  voiceEnabled : bool
}.

(** A [SpeechSynthesisUtterance] handed to [window.speechSynthesis.speak]. *)
Record Utterance := mkUtterance {
  text : string;
  rate : float;
  pitch : float
}.

(** The state of the component: the React state [detections] and [error],
    the refs [lastAnnouncementTimeRef] and [processingLock], and the
    utterances handed to the speech engine so far, most recent first. *)
Record State := mkState {
  detections : list Detection;
  error : option string;
  lastAnnouncementTime : Z;
  processingLock : bool;
  spoken : list Utterance
}.

Definition initialState : State :=
  {| detections := []; error := None; lastAnnouncementTime := 0%Z;
     processingLock := false; spoken := [] |}.

(** An element of a [number[]] read by destructuring; a missing element is
    [undefined], which arithmetic turns into [NaN]. *)
Definition item (b : list float) (i : nat) : float := nth i b nan.

(** [Array.prototype.includes] on an array of strings. *)
Definition includes (l : list string) (s : string) : bool :=
  existsb (String.eqb s) l.

(** ** The pure functions of the component *)

Definition getDirectionalGuidance (b : list float) : string :=
  let x := item b 0 in
  let width := item b 2 in
  let centerX := x + width / 2 in
  if centerX <? 0.3 then "on your left"
  else if 0.7 <? centerX then "on your right"
  else "directly ahead".

Definition estimateDistance (b : list float) : float :=
  let width := item b 2 in
  let height := item b 3 in
  let area := width * height in
  let distance := sqrt (1000000 / area) in
  JS.Math_round (distance * 10) / 10.

Definition dangerousObjects : list string :=
  ["person"; "car"; "truck"; "motorcycle"; "bicycle"; "bus"].

Definition obstacles : list string :=
  ["chair"; "bench"; "pole"; "fire hydrant"; "stop sign"].

Section WithProps.
Variable p : Props.

Definition getPriorityLevel (detection : Detection) : float :=
  let distance := JS.orZero (distance detection) in
  if includes dangerousObjects (class detection) then
    if distance <? warningDistance p * 0.5 then 1
    else if distance <? warningDistance p then 2
    else 3
  else if includes obstacles (class detection) then
    if distance <? warningDistance p * 0.4 then 2
    else 4
  else 5.

(** The comparison function given to [sort] in [announceDetections]. *)
Definition compareDetections (a b : Detection) : float :=
  let priorityDiff := getPriorityLevel a - getPriorityLevel b in
  if negb (priorityDiff =? 0) then priorityDiff
  else JS.orZero (distance a) - JS.orZero (distance b).
End WithProps.

(** [Array.prototype.sort] with a comparison function.  The language leaves
    the algorithm to the engine but requires the sort to be stable, and
    treats a [NaN] result of the comparison as [+0]; for a consistent
    comparison function the result is therefore determined.  The model is
    the stable insertion sort: [x] goes after [y] exactly when
    [cmp x y > 0]. *)
Section Sort.
Context {A : Type}.
Variable cmp : A -> A -> float.

Fixpoint insertSorted (x : A) (l : list A) : list A :=
  match l with
  | [] => [x]
  | y :: r => if 0 <? cmp x y then y :: insertSorted x r else x :: l
  end.

Definition sort (l : list A) : list A := fold_right insertSorted [] l.
End Sort.

Section Announce.
Variable p : Props.

(** Lines 117 to 123 of [announceDetections]: the head of the sorted copy
    of the filtered detections. *)
Definition mostImportant (filteredDetections : list Detection) : option Detection :=
  hd_error (sort (compareDetections p) filteredDetections).

(** Lines 124 to 130: the message composed for the selected detection. *)
Definition composeMessage (d : Detection) : string :=
  let distance := JS.orZero (distance d) in
  let direction := getDirectionalGuidance (bbox d) in
  let message := class d ++ " detected " ++ direction ++ ", "
                 ++ JS.toFixed1 distance ++ " meters away" in
  if distance <? warningDistance p * 0.5 then "Warning! " ++ message
  else message.

Definition filterDetections (ds : list Detection) : list Detection :=
  filter (fun d => includes (filteredObjects p) (class d)) ds.

(** Lines 106 to 132 of [announceDetections]: the text passed to [speak],
    or [None] on the path that returns without calling it.  The sorted copy
    of a non-empty list is never empty (see [sort_head] below), so that the
    selected detection always exists. *)
Definition chosenAnnouncement (ds : list Detection) : option string :=
  match ds with
  | [] => Some "Path is clear ahead"
  | _ :: _ =>
      match filterDetections ds with
      | [] => None
      | filteredDetections =>
          option_map composeMessage (mostImportant filteredDetections)
      end
  end.
End Announce.

(** ** The effectful functions *)

Section Effects.
Variable p : Props.
(** whether [window.speechSynthesis] exists *)
Variable speechSynthesis : bool.

Definition throttled (now : Z) (st : State) : bool :=
  (now - lastAnnouncementTime st <? 2000)%Z.

(** [speak(text)], where [now] is what [Date.now()] returns in it. *)
Definition speak (now : Z) (text : string) (st : State) : State :=
  if negb (voiceEnabled p) || negb speechSynthesis then st
  else if throttled now st then st
  else
    let utterance := {| text := text; rate := voiceRate p; pitch := voicePitch p |} in
    {| detections := detections st;
       error := error st;
       lastAnnouncementTime := now;
       processingLock := processingLock st;
       spoken := utterance :: spoken st |}.

(** [announceDetections(detections)]; [now] is the clock read by the
    function itself and [now'] the one read by the [speak] it calls. *)
Definition announceDetections (now now' : Z) (ds : list Detection) (st : State) : State :=
  if negb (voiceEnabled p) || negb speechSynthesis then st
  else if throttled now st then st
  else
    match chosenAnnouncement p ds with
    | Some message => speak now' message st
    | None => st
    end.

(** The decoration of line 162: [{...pred, distance: estimateDistance(pred.bbox)}]. *)
Definition decorate (pred : Detection) : Detection :=
  {| bbox := bbox pred; class := class pred; score := score pred;
     distance := Some (estimateDistance (bbox pred)) |}.

Definition setDetections (ds : list Detection) (st : State) : State :=
  {| detections := ds; error := error st;
     lastAnnouncementTime := lastAnnouncementTime st;
     processingLock := processingLock st; spoken := spoken st |}.

Definition setError (msg : string) (st : State) : State :=
  {| detections := detections st; error := Some msg;
     lastAnnouncementTime := lastAnnouncementTime st;
     processingLock := processingLock st; spoken := spoken st |}.

Definition setLock (b : bool) (st : State) : State :=
  {| detections := detections st; error := error st;
     lastAnnouncementTime := lastAnnouncementTime st;
     processingLock := b; spoken := spoken st |}.

(** One run of the frame effect (lines 153 to 179) on a frame for which
    the model is loaded.  [predictions] is the outcome of
    [model.detect]: [None] when the tensor conversion or the detection
    throws.  The effect returns at once while the lock is held. *)
Definition processFrame (predictions : option (list Detection))
    (now now' : Z) (st : State) : State :=
  if processingLock st then st
  else
    let st1 := setLock true st in
    let st2 :=
      match predictions with
      | Some preds =>
          let processedDetections := map decorate preds in
          announceDetections now now' processedDetections
            (setDetections processedDetections st1)
      | None => setError "Failed to process image" st1
      end in
    setLock false st2.
End Effects.

(** ** The component around the cycle *)

(** The text spoken once the model has loaded (line 142). *)
Definition readyMessage : string :=
  "Object detection system is ready. I will help you navigate safely.".

(** The component: the state of the pipeline together with the React
    state [loading] and [model] (whether a model is loaded). *)
Record Component := mkComponent {
  core : State;
  loading : bool;
  model : bool
}.

Definition initialComponent : Component :=
  {| core := initialState; loading := true; model := false |}.

Section ComponentEffects.
Variable p : Props.
(** whether [window.speechSynthesis] exists *)
Variable speechSynthesis : bool.

(** [loadModel] (lines 136 to 148); [loaded] tells whether [tf.ready] and
    [cocoSsd.load] both resolve, [now] is the clock read by [speak]. *)
Definition loadModel (loaded : bool) (now : Z) (c : Component) : Component :=
  if loaded then
    {| core := speak p speechSynthesis now readyMessage (core c);
       loading := false; model := true |}
  else
    {| core := setError "Failed to load the object detection model" (core c);
       loading := false; model := model c |}.

(** The frame effect with its guard (lines 153 to 179): nothing happens
    without image data or without a model; [processFrame] covers the lock. *)
Definition frameEffect (imageData : bool) (predictions : option (list Detection))
    (now now' : Z) (c : Component) : Component :=
  if negb imageData || negb (model c) then c
  else
    {| core := processFrame p speechSynthesis predictions now now' (core c);
       loading := loading c; model := model c |}.

(** [isHighPriority] of a row of the list (lines 366 and 367). *)
Definition isHighPriority (detection : Detection) : bool :=
  getPriorityLevel p detection =? 1.
End ComponentEffects.

(** What the component renders (lines 217 to 446): the loading panel,
    else the error alert when [error] is a non-empty string, else the
    "Path is Clear" panel for an empty list and the list otherwise. *)
Inductive Panel :=
| LoadingPanel
| ErrorPanel (message : string)
| PathClearPanel
| ListPanel (rows : list Detection).

Definition render (c : Component) : Panel :=
  if loading c then LoadingPanel
  else
    match error (core c) with
    | Some (String a rest) => ErrorPanel (String a rest)
    | _ =>
        match detections (core c) with
        | [] => PathClearPanel
        | d :: ds => ListPanel (d :: ds)
        end
    end.

(** An event of the component: a run of [loadModel] or of the frame
    effect, with the props and the clock readings of the moment. *)
Inductive Event :=
| LoadModel (p : Props) (speechSynthesis : bool) (loaded : bool) (now : Z)
| Frame (p : Props) (speechSynthesis : bool) (imageData : bool)
    (predictions : option (list Detection)) (now now' : Z).

Definition step (c : Component) (e : Event) : Component :=
  match e with
  | LoadModel p synth loaded now => loadModel p synth loaded now c
  | Frame p synth imageData predictions now now' =>
      frameEffect p synth imageData predictions now now' c
  end.

Definition steps (c : Component) (l : list Event) : Component :=
  fold_left step l c.

(** Whether the event is a run of [loadModel] in which the model loads. *)
Definition loads (e : Event) : bool :=
  match e with
  | LoadModel _ _ loaded _ => loaded
  | Frame _ _ _ _ _ _ => false
  end.

Definition isLoadModel (e : Event) : bool :=
  match e with
  | LoadModel _ _ _ _ => true
  | Frame _ _ _ _ _ _ => false
  end.

(** Whether the event is a frame with image data whose detection succeeds. *)
Definition publishes (e : Event) : bool :=
  match e with
  | Frame _ _ true (Some _) _ _ => true
  | _ => false
  end.

(** ** The region captured by [CameraFeed] *)

(** [captureFrame] of [CameraFeed] (lines 45 to 54): the canvas takes the
    size of the video, and the image data handed to [ObjectDetection] is
    the region of [centerWidth] by [centerHeight] pixels whose corner is
    [(x, y)].  The sizes of a canvas are integers below 2^32, on which the
    arithmetic of doubles is exact; [x] and [y] can be halves and are
    rationals. *)
Record Region := mkRegion {
  regionX : Q;
  regionY : Q;
  centerWidth : Z;
  centerHeight : Z
}.

Definition captureRegion (videoWidth videoHeight : Z) : Region :=
  let canvasWidth := videoWidth in
  let canvasHeight := videoHeight in
  let centerWidth := Z.min canvasWidth 640 in
  let centerHeight := Z.min canvasHeight 480 in
  {| regionX := (inject_Z (canvasWidth - centerWidth) / 2)%Q;
     regionY := (inject_Z (canvasHeight - centerHeight) / 2)%Q;
     centerWidth := centerWidth;
     centerHeight := centerHeight |}.

(** The classes that the settings offer for [filteredObjects]
    ([availableObjects] of [Settings]). *)
Definition availableObjects : list string :=
  ["person"; "car"; "truck"; "motorcycle"; "bicycle"; "bus";
   "chair"; "bench"; "pole"; "fire hydrant"; "stop sign"].

(** ** Definitions used to state the properties *)

(** The distance the classifier, the comparison and the message read from a
    detection: [detection.distance || 0]. *)
Definition distanceOf (d : Detection) : float := JS.orZero (distance d).

(** The decision table of the priority classifier, as the specification
    words it. *)
Definition specDangerous : list string :=
  ["person"; "car"; "truck"; "motorcycle"; "bicycle"; "bus"].

Definition specObstacle : list string :=
  ["chair"; "bench"; "pole"; "fire hydrant"; "stop sign"].

Definition specTier (cls : string) (dist threshold : float) : float :=
  if existsb (String.eqb cls) specDangerous then
    if dist <? 0.5 * threshold then 1
    else if dist <? threshold then 2
    else 3
  else if existsb (String.eqb cls) specObstacle then
    if dist <? 0.4 * threshold then 2
    else 4
  else 5.

(** [rankedBefore p a b]: the pair (priority tier, distance) of [a] is at
    most the one of [b] in the lexicographic order. *)
Definition rankedBefore (p : Props) (a b : Detection) : Prop :=
  (getPriorityLevel p a <? getPriorityLevel p b) = true \/
  (getPriorityLevel p a = getPriorityLevel p b /\
   (distanceOf a <=? distanceOf b) = true).

(** A dispatch attempt: a direct call of [speak], or a call of
    [announceDetections], each with the props and the clock readings of the
    moment. *)
Inductive Attempt :=
| SpeakText (p : Props) (speechSynthesis : bool) (now : Z) (text : string)
| Announce (p : Props) (speechSynthesis : bool) (now now' : Z) (ds : list Detection).

Definition run (a : Attempt) (st : State) : State :=
  match a with
  | SpeakText p synth now text => speak p synth now text st
  | Announce p synth now now' ds => announceDetections p synth now now' ds st
  end.

(** The first clock reading of an attempt, and the one taken by [speak]. *)
Definition firstRead (a : Attempt) : Z :=
  match a with
  | SpeakText _ _ now _ => now
  | Announce _ _ now _ _ => now
  end.

Definition dispatchTime (a : Attempt) : Z :=
  match a with
  | SpeakText _ _ now _ => now
  | Announce _ _ _ now' _ => now'
  end.

(** Eligible apart from the throttle: voice enabled, a speech engine, and a
    text to say. *)
Definition eligible (a : Attempt) : bool :=
  match a with
  | SpeakText p synth _ _ => voiceEnabled p && synth
  | Announce p synth _ _ ds =>
      voiceEnabled p && synth &&
      match chosenAnnouncement p ds with Some _ => true | None => false end
  end.

(** Whether the attempt hands an utterance to the speech engine. *)
Definition spoke (a : Attempt) (st : State) : bool :=
  (List.length (spoken st) <? List.length (spoken (run a st)))%nat.

Fixpoint outcomes (l : list Attempt) (st : State) : list bool :=
  match l with
  | [] => []
  | a :: r => spoke a st :: outcomes r (run a st)
  end.

(** ** Definitions used in the proofs *)

(** The least exponent of binary64, [emin prec emax]. *)
Abbreviation emin64 := (-1074)%Z.

(** [signed s x]: [x] is an infinity or a finite non-zero double of sign [s]. *)
Definition signed (s : bool) (x : spec_float) : Prop :=
  x = S754_infinity s \/ exists m e, x = S754_finite s m e.

(** Case analysis on the comparisons of exponents and mantissas. *)
Ltac split_compare :=
  repeat match goal with
  | H : context [Pos.compare_cont Eq ?a ?b] |- _ =>
      change (Pos.compare_cont Eq a b) with (Pos.compare a b) in H
  | |- context [Pos.compare_cont Eq ?a ?b] =>
      change (Pos.compare_cont Eq a b) with (Pos.compare a b)
  | H : context [(?a ?= ?b)%Z] |- _ => destruct (Z.compare_spec a b)
  | |- context [(?a ?= ?b)%Z] => destruct (Z.compare_spec a b)
  | H : context [(?a ?= ?b)%positive] |- _ => destruct (Pos.compare_spec a b)
  | |- context [(?a ?= ?b)%positive] => destruct (Pos.compare_spec a b)
  end.

(** [notAfter cmp a b]: the comparison does not put [a] after [b]. *)
Definition notAfter {A : Type} (cmp : A -> A -> float) (a b : A) : Prop :=
  (0 <? cmp a b) = false.

(** The values [getPriorityLevel] returns. *)
Definition tiers : list float := [1; 2; 3; 4; 5].

(** One case for each tier that a hypothesis [In t tiers] allows. *)
Ltac tier_cases :=
  repeat match goal with
  | H : In _ tiers |- _ => cbn in H; decompose [or] H; clear H; subst; try contradiction
  end.

(** Closes a goal with a hypothesis equating two different literals. *)
Ltac distinct_floats :=
  match goal with
  | H : ?a = ?b :> float |- _ =>
      apply (f_equal (fun t => t =? b)) in H; vm_compute in H; discriminate
  end.

(** [afterb ta x tb y]: the pair [(ta, x)] is strictly after [(tb, y)]. *)
Definition afterb (ta x tb y : float) : bool :=
  (tb <? ta) || ((tb =? ta) && (y <? x)).

(** The state after a run of attempts. *)
Definition runAll (l : list Attempt) (st : State) : State :=
  fold_left (fun s a => run a s) l st.

(** The message of a detection before the "Warning! " prefix. *)
Definition plainMessage (d : Detection) : string :=
  class d ++ " detected " ++ getDirectionalGuidance (bbox d) ++ ", "
  ++ JS.toFixed1 (distanceOf d) ++ " meters away".

(** How [sort] reads a result [v] of the comparison function: negative
    for "first argument first", positive for "second argument first";
    a zero and [NaN] leave the two as equals. *)
Definition sortOrder (v : float) : comparison :=
  if v <? 0 then Lt else if 0 <? v then Gt else Eq.

(** [notNegative x]: [x] is [NaN], a zero, [+Infinity] or a positive double. *)
Definition notNegative (x : spec_float) : Prop :=
  match x with
  | S754_infinity true | S754_finite true _ _ => False
  | _ => True
  end.

(** The value [m * 2^e]. *)
Definition val (m e : Z) : Q := (inject_Z m * 2 ^ e)%Q.

(** [atLeast c x]: the double [x] is [+Infinity] or a positive number of
    value at least [c]. *)
Definition atLeast (c : Q) (x : spec_float) : Prop :=
  match x with
  | S754_infinity false => True
  | S754_finite false m e => (c <= val (Zpos m) e)%Q
  | _ => False
  end.

(** [atMost c x]: the double [x] is a zero or a positive number of value at
    most [c]. *)
Definition atMost (c : Q) (x : spec_float) : Prop :=
  match x with
  | S754_zero false => True
  | S754_finite false m e => (val (Zpos m) e <= c)%Q
  | _ => False
  end.

(** [nonNegative x]: [x] is a zero, [+Infinity] or a positive number. *)
Definition nonNegative (x : spec_float) : Prop :=
  match x with
  | S754_zero _ | S754_infinity false | S754_finite false _ _ => True
  | _ => False
  end.

(** ** Rounding, on the real line *)

(** The unit [2^e] as a real number. *)
Definition unit2 (e : Z) : R := Q2R (2 ^ e)%Q.

(** [located X m e l]: the real number [X] lies in the cell
    [[m * 2^e, (m + 1) * 2^e)] at the place that [l] tells. *)
Definition located (X : R) (m e : Z) (l : location) : Prop :=
  let p := unit2 (e - 1) in
  match l with
  | loc_Exact => X = (2 * IZR m * p)%R
  | loc_Inexact Lt => (2 * IZR m * p < X < (2 * IZR m + 1) * p)%R
  | loc_Inexact Eq => X = ((2 * IZR m + 1) * p)%R
  | loc_Inexact Gt => ((2 * IZR m + 1) * p < X < (2 * IZR m + 2) * p)%R
  end.

(** [fine m e]: the mantissa [m] at exponent [e] has at least the digits of
    the format, so that [shr_fexp] only drops digits. *)
Definition fine (m e : Z) : Prop := (e <= fexp prec emax (Zdigits2 m + e))%Z.

(** The mantissa and the exponent after the first shift and the rounding of
    [binary_round_aux]. *)
Definition rounded (m e : Z) (l : location) : Z * Z :=
  let r := shr_fexp prec emax m e l in
  (round_nearest_even (shr_m (fst r)) (loc_of_shr_record (fst r)), snd r).

(** The rest of [binary_round_aux]: the mantissa is shifted once more if the
    rounding has carried, and the result overflows to infinity. *)
Definition finish (mt : Z * Z) : spec_float :=
  let '(mrs, e) := shr_fexp prec emax (fst mt) (snd mt) loc_Exact in
  match shr_m mrs with
  | Z0 => S754_zero false
  | Zpos m => if (e <=? emax - prec)%Z then S754_finite false m e else S754_infinity false
  | Zneg _ => S754_nan
  end.

(** [rounds X r]: the double [r] is what [binary_round_aux] makes of a
    mantissa, an exponent and a location that hold the real number [X]. *)
Definition rounds (X : R) (r : spec_float) : Prop :=
  exists m e l,
    (0 <= m)%Z /\ fine m e /\ located X m e l /\
    r = binary_round_aux prec emax false m e l.

(** [positiveSign x]: [x] is [+0], a positive double or [+Infinity]. *)
Definition positiveSign (x : spec_float) : Prop :=
  match x with
  | S754_zero false | S754_finite false _ _ | S754_infinity false => True
  | _ => False
  end.

(** ** Inputs of the scenarios *)

Definition exampleProps : Props :=
  {| warningDistance := 3; voiceRate := 1.2; voicePitch := 1;
     filteredObjects := ["person"; "car"; "truck"; "motorcycle"; "bicycle"];
     voiceEnabled := true |}.

Definition mutedProps : Props :=
  {| warningDistance := 3; voiceRate := 1.2; voicePitch := 1;
     filteredObjects := ["person"; "car"; "truck"; "motorcycle"; "bicycle"];
     voiceEnabled := false |}.

Definition allClassesProps : Props :=
  {| warningDistance := 3; voiceRate := 1.2; voicePitch := 1;
     filteredObjects := ["person"; "car"; "chair"]; voiceEnabled := true |}.

Definition tinyProps : Props :=
  {| warningDistance := 5e-324; voiceRate := 1.2; voicePitch := 1;
     filteredObjects := ["person"; "chair"]; voiceEnabled := true |}.

Definition personBox : list float := [0.1; 0.1; 0.2; 0.2].

Definition personPrediction : Detection :=
  {| bbox := personBox; class := "person"; score := 0.9; distance := None |}.

Definition dogPrediction : Detection :=
  {| bbox := [120; 80; 200; 150]; class := "dog"; score := 0.8; distance := None |}.

Definition zeroAreaPrediction : Detection :=
  {| bbox := [0.4; 0.4; 0; 0.2]; class := "person"; score := 0.9; distance := None |}.

(** A person whose box has the width [-0]: the area is the negative zero. *)
Definition negativeZeroAreaPrediction : Detection :=
  {| bbox := [0.4; 0.4; neg_zero; 0.2]; class := "person"; score := 0.9; distance := None |}.

Definition farPerson : Detection :=
  {| bbox := [0; 0; 100; 100]; class := "person"; score := 0.9; distance := None |}.

Definition nearPerson : Detection :=
  {| bbox := [0; 0; 1000; 1000]; class := "person"; score := 0.9; distance := None |}.

Definition chairAt1 : Detection :=
  {| bbox := [300; 200; 80; 120]; class := "chair"; score := 0.7; distance := Some 1 |}.

Definition carAt2 : Detection :=
  {| bbox := [20; 40; 200; 100]; class := "car"; score := 0.9; distance := Some 2 |}.

Definition personNoDistance : Detection :=
  {| bbox := [0.4; 0.4; 0.2; 0.2]; class := "person"; score := 0.9; distance := None |}.

Definition chairNoDistance : Detection :=
  {| bbox := [0.4; 0.4; 0.2; 0.2]; class := "chair"; score := 0.9; distance := None |}.

Definition cautiousProps : Props :=
  {| warningDistance := 6; voiceRate := 1.2; voicePitch := 1;
     filteredObjects := ["person"; "car"]; voiceEnabled := true |}.

Definition nearCar : Detection :=
  {| bbox := [100; 40; 420; 400]; class := "car"; score := 0.9; distance := None |}.

(** Three frames with no detection, 1000 ms and then 2000 ms apart. *)
Definition frame1 : Attempt := Announce exampleProps true 1700000000000 1700000000000 [].
Definition frame2 : Attempt := Announce exampleProps true 1700000001000 1700000001000 [].
Definition frame3 : Attempt := Announce exampleProps true 1700000003000 1700000003000 [].

(** ** Checks of the number formatting on known values *)

Example round_examples :
  map JS.Math_round [2.5; -2.5; -2.6; 0.5; 0.49999999999999994; 50000; 1e300; 12.34]
  = [3; -2; -3; 1; 0; 50000; 1e300; 12].
Proof. vm_compute. reflexivity. Qed.

Example toFixed1_examples :
  map JS.toFixed1 [5000; 0; 1.25; 0.05; 2.45; -1.5; 0.04; 12345.678; infinity; 123; 5.0]
  = ["5000.0"; "0.0"; "1.3"; "0.1"; "2.5"; "-1.5"; "0.0"; "12345.7"; "Infinity"; "123.0"; "5.0"]%string.
Proof. vm_compute. reflexivity. Qed.

Example toFixed1_large :
  map JS.toFixed1 [1e21; 1.5e21; 1180591620717411303424; 1e300; 1.7976931348623157e308; 123456789012345680000000]
  = ["1e+21"; "1.5e+21"; "1.1805916207174113e+21"; "1e+300"; "1.7976931348623157e+308"; "1.2345678901234569e+23"]%string.
Proof. vm_compute. reflexivity. Qed.


(** ** Facts about binary64 arithmetic

    The primitive operations are specified by [Prim2SF] and the operations
    on [spec_float]; the facts below are derived from that specification:
    the comparisons form a total preorder on the numbers other than [NaN],
    and the sign of a difference agrees with the comparison of its
    operands. *)

Module FloatFacts.

Local Open Scope Z_scope.

Lemma digits2_pos_bounds (m : positive) :
  2 ^ (Zpos (digits2_pos m) - 1) <= Zpos m < 2 ^ Zpos (digits2_pos m).
Proof.
  induction m as [m IH | m IH |]; cbn [digits2_pos].
  - rewrite Pos2Z.inj_succ, (Pos2Z.inj_xI m).
    replace (Z.succ (Zpos (digits2_pos m)) - 1) with (Z.succ (Zpos (digits2_pos m) - 1)) by lia.
    rewrite !Z.pow_succ_r by lia.
    set (a := 2 ^ (Zpos (digits2_pos m) - 1)) in *.
    set (b := 2 ^ Zpos (digits2_pos m)) in *. lia.
  - rewrite Pos2Z.inj_succ, (Pos2Z.inj_xO m).
    replace (Z.succ (Zpos (digits2_pos m)) - 1) with (Z.succ (Zpos (digits2_pos m) - 1)) by lia.
    rewrite !Z.pow_succ_r by lia.
    set (a := 2 ^ (Zpos (digits2_pos m) - 1)) in *.
    set (b := 2 ^ Zpos (digits2_pos m)) in *. lia.
  - cbn. lia.
Qed.

Lemma shr_1_m (mrs : shr_record) :
  0 <= shr_m mrs -> shr_m (shr_1 mrs) = shr_m mrs / 2.
Proof.
  destruct mrs as [m r s]. cbn [shr_m]. intros Hm.
  destruct m as [| [q | q |] | q]; cbn [shr_1 shr_m]; try lia.
  - reflexivity.
  - rewrite (Pos2Z.inj_xI q). apply Z.div_unique with (r := 1); lia.
  - rewrite (Pos2Z.inj_xO q). apply Z.div_unique with (r := 0); lia.
  - reflexivity.
Qed.

Lemma iter_shr_1_m (n : positive) :
  forall mrs, 0 <= shr_m mrs ->
    shr_m (iter_pos shr_1 n mrs) = shr_m mrs / 2 ^ Zpos n.
Proof.
  induction n as [n IH | n IH |]; intros mrs Hm; cbn [iter_pos].
  - assert (H1 : 0 <= shr_m (shr_1 mrs)) by (rewrite shr_1_m by assumption; apply Z.div_pos; lia).
    assert (H2 : 0 <= shr_m (iter_pos shr_1 n (shr_1 mrs)))
      by (rewrite IH by assumption; apply Z.div_pos; [assumption | apply Z.pow_pos_nonneg; lia]).
    rewrite IH, IH, shr_1_m by assumption.
    rewrite !Z.div_div by (try apply Z.pow_pos_nonneg; lia).
    f_equal. rewrite (Pos2Z.inj_xI n).
    replace (2 * Zpos n + 1) with (1 + Zpos n + Zpos n) by lia.
    rewrite !Z.pow_add_r by lia. rewrite Z.pow_1_r. lia.
  - assert (H2 : 0 <= shr_m (iter_pos shr_1 n mrs))
      by (rewrite IH by assumption; apply Z.div_pos; [assumption | apply Z.pow_pos_nonneg; lia]).
    rewrite IH, IH by assumption.
    rewrite !Z.div_div by (try apply Z.pow_pos_nonneg; lia).
    f_equal. rewrite (Pos2Z.inj_xO n).
    replace (2 * Zpos n) with (Zpos n + Zpos n) by lia.
    rewrite !Z.pow_add_r by lia. lia.
  - rewrite shr_1_m by assumption. reflexivity.
Qed.

Lemma shr_record_of_loc_m m l : shr_m (shr_record_of_loc m l) = m.
Proof. destruct l as [| []]; reflexivity. Qed.

Lemma fexp64 (e : Z) : fexp prec emax e = Z.max (e - 53) emin64.
Proof. reflexivity. Qed.

(** Shifting a positive mantissa into place leaves it positive. *)
Lemma shr_fexp_pos (m e : Z) (l : location) :
  0 < m -> emin64 <= e ->
  0 < shr_m (fst (shr_fexp prec emax m e l)) /\
  emin64 <= snd (shr_fexp prec emax m e l).
Proof.
  intros Hm He. unfold shr_fexp, shr. rewrite fexp64.
  destruct m as [| q | q]; try lia. cbn [Zdigits2].
  pose proof (digits2_pos_bounds q) as [Hlo Hhi].
  destruct (Z.max (Zpos (digits2_pos q) + e - 53) emin64 - e) as [| n | n] eqn:Hn;
    cbn [fst snd]; rewrite ?shr_record_of_loc_m; try lia.
  rewrite iter_shr_1_m by (rewrite shr_record_of_loc_m; lia).
  rewrite shr_record_of_loc_m. split; [| lia].
  apply Z.div_str_pos. split; [apply Z.pow_pos_nonneg; lia |].
  apply Z.le_trans with (2 ^ (Zpos (digits2_pos q) - 1)); [| assumption].
  apply Z.pow_le_mono_r; lia.
Qed.

Lemma round_nearest_even_ge m l : m <= round_nearest_even m l.
Proof.
  destruct l as [| []]; cbn [round_nearest_even]; try lia.
  destruct (Z.even m); lia.
Qed.

Lemma binary_round_aux_signed sx m e l :
  0 < m -> emin64 <= e -> signed sx (binary_round_aux prec emax sx m e l).
Proof.
  intros Hm He. unfold binary_round_aux.
  destruct (shr_fexp_pos m e l Hm He) as [H1 H2].
  destruct (shr_fexp prec emax m e l) as [mrs' e'] eqn:E1. cbn [fst snd] in H1, H2.
  pose proof (round_nearest_even_ge (shr_m mrs') (loc_of_shr_record mrs')) as Hr.
  destruct (shr_fexp_pos (round_nearest_even (shr_m mrs') (loc_of_shr_record mrs')) e' loc_Exact
              ltac:(lia) H2) as [H3 H4].
  destruct (shr_fexp prec emax _ e' loc_Exact) as [mrs'' e''] eqn:E2. cbn [fst snd] in H3, H4.
  destruct (shr_m mrs'') as [| q | q]; try lia.
  destruct (e'' <=? emax - prec); [right; eauto | left; reflexivity].
Qed.

Lemma iter_xO_pow (m d : positive) : Zpos (Pos.iter xO m d) = Zpos m * 2 ^ Zpos d.
Proof.
  induction d as [| d IH] using Pos.peano_ind.
  - cbn. lia.
  - rewrite Pos.iter_succ, Pos2Z.inj_xO, IH, Pos2Z.inj_succ, Z.pow_succ_r by lia. lia.
Qed.

Lemma shl_align_fst mx ex ez :
  ez <= ex -> Zpos (fst (shl_align mx ex ez)) = Zpos mx * 2 ^ (ex - ez).
Proof.
  intros H. unfold shl_align.
  destruct (ez - ex) as [| d | d] eqn:Hd; cbn [fst]; try lia.
  - replace (ex - ez) with 0 by lia. lia.
  - rewrite iter_xO_pow. f_equal. f_equal. lia.
Qed.

Lemma shl_align_snd mx ex ez :
  emin64 <= ex -> emin64 <= ez -> emin64 <= snd (shl_align mx ex ez).
Proof.
  intros. unfold shl_align. destruct (ez - ex); cbn [snd]; lia.
Qed.

Lemma binary_round_signed sx mx ex :
  emin64 <= ex -> signed sx (binary_round prec emax sx mx ex).
Proof.
  intros He. unfold binary_round.
  pose proof (shl_align_snd mx ex (fexp prec emax (Zpos (digits2_pos mx) + ex)) He) as H.
  destruct (shl_align mx ex _) as [mz ez]. cbn [snd] in H.
  apply binary_round_aux_signed; [lia |]. apply H. rewrite fexp64. lia.
Qed.


Lemma binary_normalize_sign (d e : Z) :
  emin64 <= e ->
  match d ?= 0 with
  | Eq => binary_normalize prec emax d e false = S754_zero false
  | Lt => signed true (binary_normalize prec emax d e false)
  | Gt => signed false (binary_normalize prec emax d e false)
  end.
Proof.
  intros He. destruct d as [| q | q]; cbn [Z.compare binary_normalize].
  - reflexivity.
  - now apply binary_round_signed.
  - now apply binary_round_signed.
Qed.

(** Comparison of a result of a known sign with zero. *)
Lemma SFcompare_signed_zero s x :
  signed s x -> SFcompare x (S754_zero false) = Some (if s then Lt else Gt).
Proof. intros [-> | (m & e & ->)]; reflexivity. Qed.

Lemma valid_finite s m e :
  valid_binary (S754_finite s m e) = true ->
  Z.max (Zpos (digits2_pos m) + e - 53) emin64 = e.
Proof.
  cbn [SpecFloat.valid_binary]. unfold bounded, canonical_mantissa. rewrite fexp64.
  intros H. apply andb_prop in H as [H _]. now apply Z.eqb_eq in H.
Qed.

(** For canonical mantissas the order of the values is the lexicographic
    order on (exponent, mantissa). *)
Lemma aligned_compare mx ex my ey :
  Z.max (Zpos (digits2_pos mx) + ex - 53) emin64 = ex ->
  Z.max (Zpos (digits2_pos my) + ey - 53) emin64 = ey ->
  (Zpos mx * 2 ^ (ex - Z.min ex ey) ?= Zpos my * 2 ^ (ey - Z.min ex ey)) =
  match ex ?= ey with
  | Lt => Lt
  | Gt => Gt
  | Eq => Pos.compare_cont Eq mx my
  end.
Proof.
  intros Hx Hy.
  pose proof (digits2_pos_bounds mx) as [Hx1 Hx2].
  pose proof (digits2_pos_bounds my) as [Hy1 Hy2].
  destruct (Z.compare_spec ex ey) as [E | E | E].
  - subst ey. rewrite Z.min_id, Z.sub_diag, !Z.mul_1_r. reflexivity.
  - rewrite Z.min_l, Z.sub_diag, Z.mul_1_r by lia.
    apply Z.compare_lt_iff.
    assert (Hd : Zpos (digits2_pos my) = 53) by lia.
    rewrite Hd in Hy1. change (2 ^ (53 - 1)) with 4503599627370496 in Hy1.
    assert (Hmx : Zpos mx < 2 ^ 53).
    { apply Z.lt_le_trans with (1 := Hx2). apply Z.pow_le_mono_r; lia. }
    change (2 ^ 53) with 9007199254740992 in Hmx.
    assert (Hp : 2 ^ 1 <= 2 ^ (ey - ex)) by (apply Z.pow_le_mono_r; lia).
    change (2 ^ 1) with 2 in Hp. nia.
  - rewrite Z.min_r, Z.sub_diag, Z.mul_1_r by lia.
    apply Z.compare_gt_iff.
    assert (Hd : Zpos (digits2_pos mx) = 53) by lia.
    rewrite Hd in Hx1. change (2 ^ (53 - 1)) with 4503599627370496 in Hx1.
    assert (Hmy : Zpos my < 2 ^ 53).
    { apply Z.lt_le_trans with (1 := Hy2). apply Z.pow_le_mono_r; lia. }
    change (2 ^ 53) with 9007199254740992 in Hmy.
    assert (Hp : 2 ^ 1 <= 2 ^ (ex - ey)) by (apply Z.pow_le_mono_r; lia).
    change (2 ^ 1) with 2 in Hp. nia.
Qed.

Lemma valid_emin s m e :
  valid_binary (S754_finite s m e) = true -> emin64 <= e.
Proof. intros H. apply valid_finite in H. lia. Qed.

(** The sign of a difference of two doubles is the result of their
    comparison; the only difference that is [NaN] is the one of two equal
    infinities. *)
Lemma SFsub_compare (x y : spec_float) :
  valid_binary x = true -> valid_binary y = true ->
  x <> S754_nan -> y <> S754_nan ->
  (SF64sub x y = S754_nan /\ SFcompare x y = Some Eq) \/
  SFcompare (SF64sub x y) (S754_zero false) = SFcompare x y.
Proof.
  intros Vx Vy Nx Ny.
  destruct x as [sx | sx | | sx mx ex]; try congruence;
  destruct y as [sy | sy | | sy my ey]; try congruence;
    try (destruct sx, sy; cbn; auto; fail).
  right. unfold SF64sub, SFsub.
  pose proof (valid_finite _ _ _ Vx) as Cx. pose proof (valid_finite _ _ _ Vy) as Cy.
  pose proof (aligned_compare mx ex my ey Cx Cy) as Hc.
  assert (Hz : emin64 <= Z.min ex ey) by lia.
  pose proof (binary_normalize_sign
    (cond_Zopp sx (Zpos (fst (shl_align mx ex (Z.min ex ey)))) -
     cond_Zopp sy (Zpos (fst (shl_align my ey (Z.min ex ey))))) (Z.min ex ey) Hz) as Hn.
  rewrite !shl_align_fst in * by lia.
  set (a := Zpos mx * 2 ^ (ex - Z.min ex ey)) in *.
  set (b := Zpos my * 2 ^ (ey - Z.min ex ey)) in *.
  assert (Ha : 0 < a) by (apply Z.mul_pos_pos; [lia | apply Z.pow_pos_nonneg; lia]).
  assert (Hb : 0 < b) by (apply Z.mul_pos_pos; [lia | apply Z.pow_pos_nonneg; lia]).
  cbn [SFcompare].
  destruct sx, sy; cbn [cond_Zopp] in *.
  - (* both negative *)
    destruct (Z.compare_spec (- a - - b) 0) as [E | E | E];
      [rewrite Hn | rewrite (SFcompare_signed_zero _ _ Hn) ..]; cbn [SFcompare];
      f_equal; destruct (Z.compare_spec a b) as [F | F | F]; try lia;
      destruct (ex ?= ey); try congruence; rewrite <- Hc; reflexivity.
  - destruct (Z.compare_spec (- a - b) 0) as [E | E | E]; try lia.
    now rewrite (SFcompare_signed_zero _ _ Hn).
  - destruct (Z.compare_spec (a - - b) 0) as [E | E | E]; try lia.
    now rewrite (SFcompare_signed_zero _ _ Hn).
  - destruct (Z.compare_spec (a - b) 0) as [E | E | E];
      [rewrite Hn | rewrite (SFcompare_signed_zero _ _ Hn) ..]; cbn [SFcompare];
      f_equal; destruct (Z.compare_spec a b) as [F | F | F]; try lia;
      destruct (ex ?= ey); try congruence; rewrite <- Hc; reflexivity.
Qed.


(** ** Products that do not underflow to zero *)

Lemma shr_fexp_pos_gen (m e : Z) (l : location) :
  0 < m -> 2 ^ (emin64 - e) <= m ->
  0 < shr_m (fst (shr_fexp prec emax m e l)) /\
  emin64 <= snd (shr_fexp prec emax m e l).
Proof.
  intros Hm He. unfold shr_fexp, shr. rewrite fexp64.
  destruct m as [| q | q]; try lia. cbn [Zdigits2].
  pose proof (digits2_pos_bounds q) as [Hlo Hhi].
  destruct (Z.max (Zpos (digits2_pos q) + e - 53) emin64 - e) as [| n | n] eqn:Hn;
    cbn [fst snd]; rewrite ?shr_record_of_loc_m; try lia.
  rewrite iter_shr_1_m by (rewrite shr_record_of_loc_m; lia).
  rewrite shr_record_of_loc_m. split; [| lia].
  apply Z.div_str_pos. split; [apply Z.pow_pos_nonneg; lia |].
  destruct (Z.max_spec (Zpos (digits2_pos q) + e - 53) emin64) as [[_ E] | [_ E]].
  - replace (Zpos n) with (emin64 - e) by lia. exact He.
  - apply Z.le_trans with (2 ^ (Zpos (digits2_pos q) - 1)); [| assumption].
    apply Z.pow_le_mono_r; lia.
Qed.

Lemma binary_round_aux_signed_gen sx m e l :
  0 < m -> 2 ^ (emin64 - e) <= m -> signed sx (binary_round_aux prec emax sx m e l).
Proof.
  intros Hm He. unfold binary_round_aux.
  destruct (shr_fexp_pos_gen m e l Hm He) as [H1 H2].
  destruct (shr_fexp prec emax m e l) as [mrs' e'] eqn:E1. cbn [fst snd] in H1, H2.
  pose proof (round_nearest_even_ge (shr_m mrs') (loc_of_shr_record mrs')) as Hr.
  destruct (shr_fexp_pos (round_nearest_even (shr_m mrs') (loc_of_shr_record mrs')) e' loc_Exact
              ltac:(lia) H2) as [H3 H4].
  destruct (shr_fexp prec emax _ e' loc_Exact) as [mrs'' e''] eqn:E2. cbn [fst snd] in H3, H4.
  destruct (shr_m mrs'') as [| q | q]; try lia.
  destruct (e'' <=? emax - prec); [right; eauto | left; reflexivity].
Qed.

Lemma SFcompare_zero_signed x :
  signed false x -> SFcompare (S754_zero false) x = Some Lt.
Proof. intros [-> | (m & e & ->)]; reflexivity. Qed.

(** The product of a positive double [mx * 2^ex] and a positive constant
    [my * 2^ey] is positive as soon as [mx * my] reaches [2^(emin - ex - ey)]. *)
Lemma SFmul_positive mx ex my ey :
  2 ^ (emin64 - (ex + ey)) <= Zpos (mx * my) ->
  SFcompare (S754_zero false)
    (SF64mul (S754_finite false mx ex) (S754_finite false my ey)) = Some Lt.
Proof.
  intros H. apply SFcompare_zero_signed. unfold SF64mul. cbn [SFmul xorb].
  apply binary_round_aux_signed_gen; [lia | exact H].
Qed.

Lemma SFcompare_refl x : x <> S754_nan -> SFcompare x x = Some Eq.
Proof.
  destruct x as [[] | [] | | [] m e]; cbn; try congruence; intros _;
    rewrite Z.compare_refl, Pos.compare_cont_refl; reflexivity.
Qed.

Lemma SFcompare_antisym x y :
  SFcompare y x = option_map CompOpp (SFcompare x y).
Proof.
  destruct x as [[] | [] | | [] mx ex], y as [[] | [] | | [] my ey]; cbn; try reflexivity;
    f_equal; split_compare; cbn; try reflexivity; try lia.
Qed.

Lemma SFcompare_total x y :
  x <> S754_nan -> y <> S754_nan -> exists c, SFcompare x y = Some c.
Proof.
  destruct x as [[] | [] | | [] mx ex], y as [[] | [] | | [] my ey]; cbn;
    try congruence; eauto.
Qed.

Lemma SFleb_trans x y z :
  SFleb x y = true -> SFleb y z = true -> SFleb x z = true.
Proof.
  unfold SFleb.
  destruct x as [[] | [] | | [] mx ex], y as [[] | [] | | [] my ey],
           z as [[] | [] | | [] mz ez]; cbn; try easy;
    intros H1 H2; split_compare; cbn in *; try easy; try lia.
Qed.


Local Open Scope float_scope.

Lemma Prim2SF_zero : Prim2SF 0 = S754_zero false.
Proof. reflexivity. Qed.

Lemma is_nan_false (x : float) : is_nan x = false <-> Prim2SF x <> S754_nan.
Proof.
  unfold is_nan. rewrite eqb_spec. unfold SFeqb. split.
  - intros H E. rewrite E in H. discriminate.
  - intros H. now rewrite SFcompare_refl.
Qed.

Lemma is_zero_true (x : float) :
  is_zero x = true -> exists s, Prim2SF x = S754_zero s.
Proof.
  unfold is_zero. rewrite eqb_spec. change (Prim2SF zero) with (S754_zero false).
  unfold SFeqb.
  destruct (Prim2SF x) as [s | [] | | [] m e]; cbn; try discriminate; eauto.
Qed.

Lemma is_zero_not_nan (x : float) : is_zero x = true -> is_nan x = false.
Proof.
  intros H. apply is_nan_false. destruct (is_zero_true x H) as [s ->]. discriminate.
Qed.

(** Both zeros compare alike. *)
Lemma is_zero_ltb_l (x y : float) : is_zero x = true -> (x <? y) = (0 <? y).
Proof.
  intros H. destruct (is_zero_true x H) as [s E].
  rewrite !ltb_spec, E, Prim2SF_zero. reflexivity.
Qed.

Lemma is_zero_ltb_r (x y : float) : is_zero x = true -> (y <? x) = (y <? 0).
Proof.
  intros H. destruct (is_zero_true x H) as [s E].
  rewrite !ltb_spec, E, Prim2SF_zero. unfold SFltb.
  destruct (Prim2SF y) as [[] | [] | | [] m e]; reflexivity.
Qed.

Lemma sub_compare (x y : float) :
  is_nan x = false -> is_nan y = false ->
  (Prim2SF (x - y) = S754_nan /\ SFcompare (Prim2SF x) (Prim2SF y) = Some Eq) \/
  SFcompare (Prim2SF (x - y)) (S754_zero false) = SFcompare (Prim2SF x) (Prim2SF y).
Proof.
  intros Hx Hy. rewrite sub_spec.
  apply SFsub_compare; try apply Prim2SF_valid; now apply is_nan_false.
Qed.

(** [x - y < 0] exactly when [x < y], for numbers other than [NaN]. *)
Lemma sub_ltb_zero (x y : float) :
  is_nan x = false -> is_nan y = false -> (x - y <? 0) = (x <? y).
Proof.
  intros Hx Hy. rewrite !ltb_spec, Prim2SF_zero. unfold SFltb.
  destruct (sub_compare x y Hx Hy) as [[E1 E2] | E].
  - rewrite E1, E2. reflexivity.
  - rewrite E. reflexivity.
Qed.

(** [0 < x - y] exactly when [y < x]. *)
Lemma zero_ltb_sub (x y : float) :
  is_nan x = false -> is_nan y = false -> (0 <? x - y) = (y <? x).
Proof.
  intros Hx Hy. rewrite !ltb_spec, Prim2SF_zero. unfold SFltb.
  rewrite (SFcompare_antisym (Prim2SF (x - y))), (SFcompare_antisym (Prim2SF x)).
  destruct (sub_compare x y Hx Hy) as [[E1 E2] | E].
  - rewrite E1, E2. reflexivity.
  - rewrite E. reflexivity.
Qed.

Lemma leb_negb_ltb (x y : float) :
  is_nan x = false -> is_nan y = false -> (x <=? y) = negb (y <? x).
Proof.
  intros Hx Hy. rewrite leb_spec, ltb_spec. unfold SFleb, SFltb.
  rewrite (SFcompare_antisym (Prim2SF x)).
  apply is_nan_false in Hx, Hy.
  destruct (SFcompare_total _ _ Hx Hy) as [[] ->]; reflexivity.
Qed.

Lemma leb_trans (x y z : float) :
  (x <=? y) = true -> (y <=? z) = true -> (x <=? z) = true.
Proof. rewrite !leb_spec. apply SFleb_trans. Qed.

Lemma leb_refl (x : float) : is_nan x = false -> (x <=? x) = true.
Proof.
  intros H. rewrite leb_spec. unfold SFleb.
  rewrite SFcompare_refl; [reflexivity | now apply is_nan_false].
Qed.

Lemma ltb_asym (x y : float) : (x <? y) = true -> (y <? x) = false.
Proof.
  rewrite !ltb_spec. unfold SFltb. rewrite (SFcompare_antisym (Prim2SF x)).
  destruct (SFcompare (Prim2SF x) (Prim2SF y)) as [[] |]; cbn; congruence.
Qed.

(** [x <= y] and [y <= z] give [x <= z], with [<=] read as "not greater". *)
Lemma ltb_false_trans (x y z : float) :
  is_nan x = false -> is_nan y = false -> is_nan z = false ->
  (y <? x) = false -> (z <? y) = false -> (z <? x) = false.
Proof.
  intros Hx Hy Hz H1 H2.
  apply (f_equal negb) in H1, H2.
  rewrite <- leb_negb_ltb in H1, H2 by assumption. cbn in H1, H2.
  pose proof (leb_trans _ _ _ H1 H2) as H.
  rewrite leb_negb_ltb in H by assumption.
  now apply negb_true_iff in H.
Qed.

Lemma is_zero_cases (x : float) : is_zero x = true -> x = 0 \/ x = neg_zero.
Proof.
  intros H. destruct (is_zero_true x H) as [s E].
  rewrite <- (SF2Prim_Prim2SF x), E. destruct s; cbn; auto.
Qed.

(** A positive number is neither [NaN] nor a zero. *)
Lemma zero_ltb_not_nan_zero (y : float) :
  (0 <? y) = true -> is_nan y = false /\ is_zero y = false.
Proof.
  rewrite ltb_spec, Prim2SF_zero. unfold is_nan, is_zero. rewrite !eqb_spec.
  change (Prim2SF zero) with (S754_zero false). unfold SFltb, SFeqb.
  destruct (Prim2SF y) as [[] | [] | | [] m e]; cbn; try discriminate; auto.
  intros _. now rewrite Z.compare_refl, Pos.compare_cont_refl.
Qed.

(** Numbers that [===] holds equal are the same double, unless they are
    zeros. *)
Lemma eqb_eq_nonzero (x y : float) :
  (x =? y) = true -> is_zero x = false -> x = y.
Proof.
  unfold is_zero. rewrite !eqb_spec. change (Prim2SF zero) with (S754_zero false).
  intros H Hz. apply Prim2SF_inj. revert H Hz. unfold SFeqb.
  destruct (Prim2SF x) as [[] | [] | | [] mx ex], (Prim2SF y) as [[] | [] | | [] my ey];
    cbn; try discriminate; try reflexivity; intros H _; split_compare;
    try discriminate; subst; reflexivity.
Qed.

(** Half and four tenths of a positive double are positive, the smallest
    positive double apart (its half and its four tenths round to zero). *)
Lemma scaled_positive (w : float) :
  (0 <? w) = true -> w <> 5e-324 ->
  (0 <? w * 0.5) = true /\ (0 <? w * 0.4) = true.
Proof.
  intros Hw Hmin. pose proof (Prim2SF_valid w) as Hv.
  pose proof (SF2Prim_Prim2SF w) as Hback.
  rewrite ltb_spec, Prim2SF_zero in Hw. unfold SFltb in Hw.
  assert (Hgoal : forall c,
            SFcompare (S754_zero false) (SF64mul (Prim2SF w) (Prim2SF c)) = Some Lt ->
            (0 <? w * c) = true).
  { intros c Hc. rewrite ltb_spec, mul_spec, Prim2SF_zero. unfold SFltb. now rewrite Hc. }
  destruct (Prim2SF w) as [s | [] | | [] m e] eqn:E; try discriminate.
  - split; apply Hgoal; reflexivity.
  - apply valid_finite in Hv.
    pose proof (digits2_pos_bounds m) as [Hlo Hhi].
    destruct (Z.eq_dec e (-1074)) as [-> | He].
    + destruct (Pos.eq_dec m 1) as [-> | H1]; [now elim Hmin |].
      destruct (Pos.eq_dec m 2) as [-> | H2]; [rewrite <- Hback; split; reflexivity |].
      split; apply Hgoal.
      * change (Prim2SF 0.5) with (S754_finite false 4503599627370496 (-53)).
        apply SFmul_positive.
        change (2 ^ (emin64 - (-1074 + -53))%Z)%Z with 9007199254740992%Z. lia.
      * change (Prim2SF 0.4) with (S754_finite false 7205759403792794 (-54)).
        apply SFmul_positive.
        change (2 ^ (emin64 - (-1074 + -54))%Z)%Z with 18014398509481984%Z. lia.
    + assert (Hd : Zpos (digits2_pos m) = 53%Z) by lia.
      rewrite Hd in Hlo. change (2 ^ (53 - 1))%Z with 4503599627370496%Z in Hlo.
      split; apply Hgoal.
      * change (Prim2SF 0.5) with (S754_finite false 4503599627370496 (-53)).
        apply SFmul_positive.
        apply Z.le_trans with (2 ^ 52)%Z; [apply Z.pow_le_mono_r; lia |].
        change (2 ^ 52)%Z with 4503599627370496%Z. lia.
      * change (Prim2SF 0.4) with (S754_finite false 7205759403792794 (-54)).
        apply SFmul_positive.
        apply Z.le_trans with (2 ^ 53)%Z; [apply Z.pow_le_mono_r; lia |].
        change (2 ^ 53)%Z with 9007199254740992%Z. lia.
Qed.

Lemma SFmul_comm (x y : spec_float) : SF64mul x y = SF64mul y x.
Proof.
  unfold SF64mul.
  destruct x as [[] | [] | | [] mx ex], y as [[] | [] | | [] my ey]; cbn [SFmul xorb];
    try reflexivity; rewrite (Pos.mul_comm mx my), (Z.add_comm ex ey); reflexivity.
Qed.

Lemma mul_comm (x y : float) : x * y = y * x.
Proof. apply Prim2SF_inj. rewrite !mul_spec. apply SFmul_comm. Qed.

End FloatFacts.

Import FloatFacts.
Local Open Scope float_scope.

(** ** Facts about [sort] *)

Section SortFacts.
Context {A : Type}.
Variable cmp : A -> A -> float.

Lemma insertSorted_perm (x : A) (l : list A) :
  Permutation (insertSorted cmp x l) (x :: l).
Proof.
  induction l as [| y r IH]; cbn [insertSorted]; [reflexivity |].
  destruct (0 <? cmp x y); [| reflexivity].
  rewrite IH. apply perm_swap.
Qed.

Lemma sort_perm (l : list A) : Permutation (sort cmp l) l.
Proof.
  induction l as [| x l IH]; cbn [sort fold_right]; [reflexivity |].
  rewrite insertSorted_perm. now apply perm_skip.
Qed.

Lemma sort_length (l : list A) : List.length (sort cmp l) = List.length l.
Proof. apply Permutation_length, sort_perm. Qed.

Lemma sort_In (x : A) (l : list A) : In x (sort cmp l) <-> In x l.
Proof.
  split; apply Permutation_in; [apply sort_perm | symmetry; apply sort_perm].
Qed.

Lemma sort_head (l : list A) :
  l <> [] -> exists m, hd_error (sort cmp l) = Some m /\ In m l.
Proof.
  intros Hl. destruct (sort cmp l) as [| m r] eqn:E.
  - apply (f_equal (@List.length A)) in E. rewrite sort_length in E.
    destruct l; [congruence | discriminate].
  - exists m. split; [reflexivity |]. apply sort_In. rewrite E. now left.
Qed.

Hypothesis notAfter_total : forall a b, notAfter cmp a b \/ notAfter cmp b a.
Hypothesis notAfter_trans :
  forall a b c, notAfter cmp a b -> notAfter cmp b c -> notAfter cmp a c.

Lemma insertSorted_sorted (x : A) (l : list A) :
  StronglySorted (notAfter cmp) l -> StronglySorted (notAfter cmp) (insertSorted cmp x l).
Proof.
  induction 1 as [| y r Hr IH Hy]; cbn [insertSorted].
  - constructor; constructor.
  - destruct (0 <? cmp x y) eqn:E.
    + constructor; [assumption |].
      assert (Hyx : notAfter cmp y x).
      { destruct (notAfter_total x y) as [H | H]; [| assumption].
        unfold notAfter in H. congruence. }
      apply Forall_forall. intros z Hz.
      apply (Permutation_in _ (insertSorted_perm x r)) in Hz.
      destruct Hz as [<- | Hz]; [assumption |].
      rewrite Forall_forall in Hy. now apply Hy.
    + constructor; [now constructor |].
      constructor; [exact E |].
      rewrite Forall_forall in Hy |- *. intros z Hz.
      apply notAfter_trans with y; [exact E | now apply Hy].
Qed.

Lemma sort_sorted (l : list A) : StronglySorted (notAfter cmp) (sort cmp l).
Proof.
  induction l as [| x l IH]; cbn [sort fold_right]; [constructor |].
  now apply insertSorted_sorted.
Qed.

(** The head of the sorted list is not after any element of the list. *)
Lemma sort_head_min (l : list A) (m : A) :
  hd_error (sort cmp l) = Some m -> forall d, In d l -> notAfter cmp m d.
Proof.
  intros Hm d Hd. pose proof (sort_sorted l) as Hs.
  apply sort_In in Hd.
  destruct (sort cmp l) as [| m' r]; [discriminate |].
  injection Hm as ->. inversion Hs as [| ? ? _ Hall]; subst.
  destruct Hd as [<- | Hd].
  - destruct (notAfter_total m m); assumption.
  - rewrite Forall_forall in Hall. now apply Hall.
Qed.
End SortFacts.

(** ** Facts about the ranking of detections *)

Lemma compare_afterb (ta tb d : float) :
  In ta tiers -> In tb tiers ->
  (0 <? (if negb (ta - tb =? 0) then ta - tb else d)) =
  (tb <? ta) || ((tb =? ta) && (0 <? d)).
Proof. intros Ha Hb. tier_cases; vm_compute; reflexivity. Qed.

Lemma compare_beforeb (ta tb d : float) :
  In ta tiers -> In tb tiers ->
  ((if negb (ta - tb =? 0) then ta - tb else d) <? 0) =
  (ta <? tb) || ((ta =? tb) && (d <? 0)).
Proof. intros Ha Hb. tier_cases; vm_compute; reflexivity. Qed.

Lemma afterb_total (ta x tb y : float) :
  In ta tiers -> In tb tiers ->
  afterb ta x tb y = false \/ afterb tb y ta x = false.
Proof.
  intros Ha Hb. unfold afterb.
  destruct (y <? x) eqn:E; [rewrite (ltb_asym _ _ E) |];
    tier_cases; vm_compute; auto.
Qed.

Lemma afterb_trans (ta x tb y tc z : float) :
  In ta tiers -> In tb tiers -> In tc tiers ->
  is_nan x = false -> is_nan y = false -> is_nan z = false ->
  afterb ta x tb y = false -> afterb tb y tc z = false -> afterb ta x tc z = false.
Proof.
  intros Ha Hb Hc Hx Hy Hz. unfold afterb.
  pose proof (ltb_false_trans x y z Hx Hy Hz) as T.
  destruct (y <? x), (z <? y), (z <? x); tier_cases; vm_compute; intros; auto; try discriminate.
Qed.

Lemma afterb_ranked (ta x tb y : float) :
  In ta tiers -> In tb tiers ->
  is_nan x = false -> is_nan y = false ->
  afterb ta x tb y = false <->
  ((ta <? tb) = true \/ (ta = tb /\ (x <=? y) = true)).
Proof.
  intros Ha Hb Hx Hy. unfold afterb. rewrite (leb_negb_ltb x y Hx Hy).
  destruct (y <? x); tier_cases; vm_compute;
    (split; [auto | intros [H | [H1 H2]]; try discriminate; try reflexivity; distinct_floats]).
Qed.

Lemma orZero_not_nan (v : option float) : is_nan (JS.orZero v) = false.
Proof.
  destruct v as [x |]; cbn [JS.orZero]; [| reflexivity].
  unfold JS.truthy.
  destruct (is_nan x) eqn:E, (is_zero x) eqn:Z; cbn [orb negb];
    try reflexivity; exact E.
Qed.

(** For a number other than [NaN], [x || 0] compares as [x] does. *)
Lemma orZero_ltb (x y : float) :
  is_nan x = false -> (JS.orZero (Some x) <? y) = (x <? y).
Proof.
  intros H. cbn [JS.orZero]. unfold JS.truthy. rewrite H. cbn [orb].
  destruct (is_zero x) eqn:E; cbn [negb]; [| reflexivity].
  symmetry. now apply is_zero_ltb_l.
Qed.

Section RankFacts.
Variable p : Props.

Lemma tier_range (d : Detection) : In (getPriorityLevel p d) tiers.
Proof.
  unfold getPriorityLevel, tiers.
  repeat match goal with |- context [if ?c then _ else _] => destruct c end;
    cbn; tauto.
Qed.

Lemma notAfter_afterb (a b : Detection) :
  notAfter (compareDetections p) a b <->
  afterb (getPriorityLevel p a) (distanceOf a) (getPriorityLevel p b) (distanceOf b) = false.
Proof.
  unfold notAfter, compareDetections, afterb, distanceOf.
  rewrite compare_afterb by apply tier_range.
  rewrite zero_ltb_sub by apply orZero_not_nan. reflexivity.
Qed.

Lemma notAfter_ranked (a b : Detection) :
  notAfter (compareDetections p) a b <-> rankedBefore p a b.
Proof.
  rewrite notAfter_afterb. unfold rankedBefore.
  apply afterb_ranked; try apply tier_range; apply orZero_not_nan.
Qed.

Lemma notAfter_compare_total (a b : Detection) :
  notAfter (compareDetections p) a b \/ notAfter (compareDetections p) b a.
Proof. rewrite !notAfter_afterb. apply afterb_total; apply tier_range. Qed.

Lemma notAfter_compare_trans (a b c : Detection) :
  notAfter (compareDetections p) a b -> notAfter (compareDetections p) b c ->
  notAfter (compareDetections p) a c.
Proof.
  rewrite !notAfter_afterb.
  apply afterb_trans; try apply tier_range; apply orZero_not_nan.
Qed.
End RankFacts.

(** ** The priority classifier *)

(** C1.  For every detection and every threshold, [getPriorityLevel]
    returns what the decision table of the specification gives for the
    class, the distance and the threshold: for a dangerous class tier 1 if
    the distance is below [0.5 * threshold], else tier 2 if it is below the
    threshold, else tier 3; for an obstacle class tier 2 if the distance is
    below [0.4 * threshold], else tier 4; tier 5 for any other class.  The
    distance is the one the classifier reads, [detection.distance || 0];
    whenever the field holds a number [x] (not [NaN]) the table can be read
    with [x] itself. *)
Theorem C1_priority_table (p : Props) (d : Detection) :
  getPriorityLevel p d = specTier (class d) (distanceOf d) (warningDistance p) /\
  forall x,
    distance d = Some x -> is_nan x = false ->
    getPriorityLevel p d = specTier (class d) x (warningDistance p).
Proof.
  split.
  - unfold getPriorityLevel, specTier, includes, distanceOf.
    rewrite (mul_comm 0.5), (mul_comm 0.4). reflexivity.
  - intros x Hd Hx. unfold getPriorityLevel, specTier, includes.
    rewrite Hd, !(orZero_ltb x) by assumption.
    rewrite (mul_comm 0.5), (mul_comm 0.4). reflexivity.
Qed.

Lemma C1_priority_table_witness :
  getPriorityLevel exampleProps chairAt1 = specTier "chair" 1 3.
Proof.
  exact (proj2 (C1_priority_table exampleProps chairAt1) 1 eq_refl eq_refl).
Defined.

(** A distance that is [NaN], like an absent one, is read as 0. *)
Example nan_distance_reads_as_zero :
  getPriorityLevel exampleProps
    {| bbox := [0; 0; 100; 100]; class := "person"; score := 0.9; distance := Some nan |}
  = 1.
Proof. vm_compute. reflexivity. Qed.

(** ** The distance estimator *)

(** C10.  [estimateDistance] depends on the box only through the product
    of its width and height: two boxes with equal products get equal
    distances, whatever their [x] and [y]. *)
Theorem C10_distance_depends_on_area (b1 b2 : list float) :
  item b1 2 * item b1 3 = item b2 2 * item b2 3 ->
  estimateDistance b1 = estimateDistance b2.
Proof.
  intros H. unfold estimateDistance. rewrite H. reflexivity.
Qed.

Lemma C10_distance_depends_on_area_witness :
  estimateDistance [0; 0; 200; 800] = estimateDistance [55; 120; 400; 400].
Proof.
  exact (C10_distance_depends_on_area [0; 0; 200; 800] [55; 120; 400; 400] eq_refl).
Defined.

(** The same for products that [===] holds equal, zeros apart: the two
    zeros are [===]-equal but give [Infinity] and [NaN]. *)
Lemma estimateDistance_eqb (b1 b2 : list float) :
  (item b1 2 * item b1 3 =? item b2 2 * item b2 3) = true ->
  is_zero (item b1 2 * item b1 3) = false ->
  estimateDistance b1 = estimateDistance b2.
Proof.
  intros H Hz. unfold estimateDistance.
  now rewrite (eqb_eq_nonzero _ _ H Hz).
Qed.

Example estimateDistance_zeros :
  estimateDistance [0; 0; 0; 20] = infinity /\
  estimateDistance [0; 0; neg_zero; 20] = nan /\
  (item [0; 0; 0; 20] 2 * item [0; 0; 0; 20] 3
   =? item [0; 0; neg_zero; 20] 2 * item [0; 0; neg_zero; 20] 3) = true.
Proof. vm_compute. auto. Qed.

(** ** The speech throttle *)

Section ThrottleFacts.
Variables (p : Props) (synth : bool).

Lemma speak_silent (now : Z) (text : string) (st : State) :
  voiceEnabled p = false \/ synth = false \/
  (now - lastAnnouncementTime st < 2000)%Z ->
  speak p synth now text st = st.
Proof.
  unfold speak, throttled. intros [-> | [-> | H]]; cbn [negb orb].
  - reflexivity.
  - now rewrite orb_true_r.
  - apply Z.ltb_lt in H. rewrite H. now destruct (negb (voiceEnabled p) || negb synth).
Qed.

Lemma speak_speaks (now : Z) (text : string) (st : State) :
  voiceEnabled p = true -> synth = true ->
  (2000 <= now - lastAnnouncementTime st)%Z ->
  speak p synth now text st =
  {| detections := detections st; error := error st;
     lastAnnouncementTime := now; processingLock := processingLock st;
     spoken := {| text := text; rate := voiceRate p; pitch := voicePitch p |}
               :: spoken st |}.
Proof.
  intros Hv Hs H. unfold speak, throttled. rewrite Hv, Hs. cbn [negb orb].
  apply Z.ltb_ge in H. now rewrite H.
Qed.

Lemma speak_cases (now : Z) (text : string) (st : State) :
  speak p synth now text st = st \/
  (voiceEnabled p && synth = true /\
   (2000 <= now - lastAnnouncementTime st)%Z /\
   speak p synth now text st =
   {| detections := detections st; error := error st;
      lastAnnouncementTime := now; processingLock := processingLock st;
      spoken := {| text := text; rate := voiceRate p; pitch := voicePitch p |}
                :: spoken st |}).
Proof.
  destruct (bool_dec (voiceEnabled p) true) as [Ev | Ev];
    [| apply not_true_is_false in Ev; left; apply speak_silent; auto].
  destruct (bool_dec synth true) as [Es | Es];
    [| apply not_true_is_false in Es; left; apply speak_silent; auto].
  destruct (Z.lt_ge_cases (now - lastAnnouncementTime st) 2000) as [H | H].
  - left. apply speak_silent; auto.
  - right. split; [now rewrite Ev, Es |]. split; [assumption |].
    now apply speak_speaks.
Qed.
End ThrottleFacts.

(** An attempt either leaves the state as it is, or it is eligible, both of
    its clock readings are at least 2000 ms after the time stamp, and it
    adds one utterance and sets the time stamp to its dispatch time. *)
Lemma run_cases (a : Attempt) (st : State) :
  run a st = st \/
  (eligible a = true /\
   (2000 <= firstRead a - lastAnnouncementTime st)%Z /\
   (2000 <= dispatchTime a - lastAnnouncementTime st)%Z /\
   exists u,
     run a st =
     {| detections := detections st; error := error st;
        lastAnnouncementTime := dispatchTime a;
        processingLock := processingLock st; spoken := u :: spoken st |}).
Proof.
  destruct a as [p synth now text | p synth now now' ds]; cbn [run eligible firstRead dispatchTime].
  - destruct (speak_cases p synth now text st) as [H | (H1 & H2 & H3)]; [now left |].
    right. repeat split; try assumption. eexists. exact H3.
  - unfold announceDetections, throttled.
    destruct (negb (voiceEnabled p) || negb synth) eqn:E1; [now left |].
    destruct (now - lastAnnouncementTime st <? 2000)%Z eqn:E2; [now left |].
    destruct (chosenAnnouncement p ds) as [message |]; [| now left].
    destruct (speak_cases p synth now' message st) as [H | (H1 & H2 & H3)]; [now left |].
    right. rewrite H1. apply Z.ltb_ge in E2. repeat split; try assumption.
    eexists. exact H3.
Qed.

Lemma spoke_false_iff (a : Attempt) (st : State) :
  spoke a st = false <-> run a st = st.
Proof.
  unfold spoke. destruct (run_cases a st) as [H | (_ & _ & _ & u & H)]; rewrite H.
  - rewrite Nat.ltb_irrefl. tauto.
  - cbn [spoken List.length]. split.
    + intros E. apply Nat.ltb_ge in E. lia.
    + intros E. apply (f_equal (fun s => List.length (spoken s))) in E.
      cbn in E. lia.
Qed.

Lemma spoke_true (a : Attempt) (st : State) :
  spoke a st = true ->
  eligible a = true /\
  (2000 <= firstRead a - lastAnnouncementTime st)%Z /\
  (2000 <= dispatchTime a - lastAnnouncementTime st)%Z /\
  lastAnnouncementTime (run a st) = dispatchTime a.
Proof.
  intros H. destruct (run_cases a st) as [E | (H1 & H2 & H3 & u & E)].
  - apply spoke_false_iff in E. congruence.
  - rewrite E. auto.
Qed.

Lemma run_eligible_speaks (a : Attempt) (st : State) :
  eligible a = true ->
  (2000 <= firstRead a - lastAnnouncementTime st)%Z ->
  (2000 <= dispatchTime a - lastAnnouncementTime st)%Z ->
  spoke a st = true.
Proof.
  intros He H1 H2. destruct (spoke a st) eqn:E; [reflexivity |].
  apply spoke_false_iff in E. exfalso.
  destruct a as [p synth now text | p synth now now' ds];
    cbn [run eligible firstRead dispatchTime] in *.
  - apply andb_prop in He as [Hv Hs].
    rewrite speak_speaks in E by assumption.
    apply (f_equal (fun s => List.length (spoken s))) in E. cbn in E. lia.
  - apply andb_prop in He as [He Hc]. apply andb_prop in He as [Hv Hs].
    unfold announceDetections, throttled in E. rewrite Hv, Hs in E. cbn [negb orb] in E.
    apply Z.ltb_ge in H1. rewrite H1 in E.
    destruct (chosenAnnouncement p ds) as [message |]; [| discriminate].
    rewrite speak_speaks in E by assumption.
    apply (f_equal (fun s => List.length (spoken s))) in E. cbn in E. lia.
Qed.

(** C8.  An attempt that does not speak leaves [lastAnnouncementTime] (and
    the whole state) unchanged: when the voice is disabled or no
    announcement was chosen (the attempt is not eligible), and when less
    than 2000 ms have elapsed since the time stamp.  The time stamp changes
    only when an utterance is handed to the speech engine, and then it is
    the clock reading of that dispatch. *)
Theorem C8_timestamp_only_on_dispatch (a : Attempt) (st : State) :
  (eligible a = false -> run a st = st) /\
  ((dispatchTime a - lastAnnouncementTime st < 2000)%Z -> run a st = st) /\
  (spoke a st = false ->
   lastAnnouncementTime (run a st) = lastAnnouncementTime st) /\
  (lastAnnouncementTime (run a st) <> lastAnnouncementTime st ->
   spoke a st = true /\ lastAnnouncementTime (run a st) = dispatchTime a).
Proof.
  repeat split.
  - intros H. destruct (run_cases a st) as [E | (E & _)]; [assumption | congruence].
  - intros H. destruct (run_cases a st) as [E | (_ & _ & E & _)]; [assumption | lia].
  - intros H. apply spoke_false_iff in H. now rewrite H.
  - destruct (spoke a st) eqn:E; [reflexivity |].
    apply spoke_false_iff in E. rewrite E in H. congruence.
  - destruct (spoke a st) eqn:E; [now apply spoke_true in E |].
    apply spoke_false_iff in E. rewrite E in H. congruence.
Qed.

Lemma C8_timestamp_only_on_dispatch_witness :
  run (SpeakText mutedProps true 5000 "hello") initialState = initialState /\
  run (Announce exampleProps true 1000 1000 []) initialState = initialState /\
  lastAnnouncementTime (run (SpeakText exampleProps true 1500 "hello") initialState) = 0%Z /\
  (spoke (Announce exampleProps true 5000 5001 []) initialState = true /\
   lastAnnouncementTime (run (Announce exampleProps true 5000 5001 []) initialState) = 5001%Z).
Proof.
  split; [| split; [| split]].
  - exact (proj1 (C8_timestamp_only_on_dispatch
                    (SpeakText mutedProps true 5000 "hello") initialState) eq_refl).
  - exact (proj1 (proj2 (C8_timestamp_only_on_dispatch
                    (Announce exampleProps true 1000 1000 []) initialState)) eq_refl).
  - exact (proj1 (proj2 (proj2 (C8_timestamp_only_on_dispatch
                    (SpeakText exampleProps true 1500 "hello") initialState))) eq_refl).
  - apply (proj2 (proj2 (proj2 (C8_timestamp_only_on_dispatch
                    (Announce exampleProps true 5000 5001 []) initialState)))).
    vm_compute. discriminate.
Defined.

Lemma run_timestamp_mono (a : Attempt) (st : State) :
  (lastAnnouncementTime st <= lastAnnouncementTime (run a st))%Z.
Proof.
  destruct (run_cases a st) as [E | (_ & _ & H & u & E)]; rewrite E; cbn; lia.
Qed.

(** An attempt that speaks somewhere in a run does so at least 2000 ms
    after the time stamp the run started from. *)
Lemma outcomes_after_timestamp (l : list Attempt) :
  forall (st : State) (j : nat) (aj : Attempt),
    nth_error l j = Some aj -> nth_error (outcomes l st) j = Some true ->
    (2000 <= dispatchTime aj - lastAnnouncementTime st)%Z.
Proof.
  induction l as [| a r IH]; intros st j aj Hj Ho; [destruct j; discriminate |].
  destruct j as [| j]; cbn in Hj, Ho.
  - injection Hj as ->. injection Ho as Ho. now apply spoke_true in Ho.
  - pose proof (IH _ _ _ Hj Ho). pose proof (run_timestamp_mono a st). lia.
Qed.

(** C2, as stated, fails: the second and third frame are both eligible and
    2000 ms apart, yet the second one is silent, because it comes 1000 ms
    after the utterance of the first. *)
Lemma C2_counterexample :
  eligible frame2 = true /\ eligible frame3 = true /\
  (2000 <= firstRead frame3 - dispatchTime frame2)%Z /\
  outcomes [frame1; frame2; frame3] initialState = [true; false; true].
Proof. vm_compute. repeat split; discriminate. Qed.

(** C2, amended.  In every run of dispatch attempts, two attempts that both
    result in a spoken utterance are at least 2000 ms apart, so that two
    attempts less than 2000 ms apart never both speak.  Of two consecutive
    attempts that are otherwise eligible and at least 2000 ms apart (each
    clock reading of the later one is 2000 ms or more after the dispatch
    of the earlier one), the later one speaks whenever the earlier one did;
    and both speak when the earlier one is itself at least 2000 ms after
    the time stamp. *)
Theorem C2_throttle_law (l : list Attempt) (st : State) :
  (forall i j ai aj,
     (i < j)%nat -> nth_error l i = Some ai -> nth_error l j = Some aj ->
     nth_error (outcomes l st) i = Some true ->
     nth_error (outcomes l st) j = Some true ->
     (2000 <= dispatchTime aj - dispatchTime ai)%Z) /\
  (forall a1 a2,
     eligible a1 = true -> eligible a2 = true ->
     (2000 <= firstRead a2 - dispatchTime a1)%Z ->
     (2000 <= dispatchTime a2 - dispatchTime a1)%Z ->
     (spoke a1 st = true -> spoke a2 (run a1 st) = true) /\
     ((2000 <= firstRead a1 - lastAnnouncementTime st)%Z ->
      (2000 <= dispatchTime a1 - lastAnnouncementTime st)%Z ->
      outcomes [a1; a2] st = [true; true])).
Proof.
  split.
  - revert st. induction l as [| a r IH]; intros st i j ai aj Hij Hi Hj Hoi Hoj.
    + destruct i; discriminate.
    + destruct j as [| j]; [lia |]. cbn in Hj, Hoj.
      destruct i as [| i]; cbn in Hi, Hoi.
      * injection Hi as ->. injection Hoi as Hoi.
        apply spoke_true in Hoi as (_ & _ & _ & Hl).
        pose proof (outcomes_after_timestamp r _ _ _ Hj Hoj). lia.
      * apply (IH (run a st) i j); try assumption. lia.
  - intros a1 a2 E1 E2 S1 S2.
    assert (Hnext : spoke a1 st = true -> spoke a2 (run a1 st) = true).
    { intros H1. apply spoke_true in H1 as (_ & _ & _ & Hl).
      apply run_eligible_speaks; [assumption | lia | lia]. }
    split; [exact Hnext |].
    intros F1 D1. pose proof (run_eligible_speaks a1 st E1 F1 D1) as H1.
    cbn [outcomes]. now rewrite H1, (Hnext H1).
Qed.

Lemma C2_throttle_law_witness :
  (2000 <= dispatchTime frame3 - dispatchTime frame1)%Z /\
  spoke frame3 (run frame1 initialState) = true /\
  outcomes [frame1; frame3] initialState = [true; true].
Proof.
  split; [| split].
  - exact (proj1 (C2_throttle_law [frame1; frame2; frame3] initialState)
             0%nat 2%nat frame1 frame3 (le_S _ _ (le_n _)) eq_refl eq_refl eq_refl eq_refl).
  - apply (proj2 (C2_throttle_law [] initialState) frame1 frame3); vm_compute;
      first [reflexivity | discriminate].
  - apply (proj2 (C2_throttle_law [] initialState) frame1 frame3); vm_compute;
      first [reflexivity | discriminate].
Defined.

(** ** The frame cycle *)

Section CycleFacts.
Variables (p : Props) (synth : bool).

Lemma filterDetections_none (ds : list Detection) :
  (forall d, In d ds -> includes (filteredObjects p) (class d) = false) ->
  filterDetections p ds = [].
Proof.
  intros H. unfold filterDetections. induction ds as [| d r IH]; [reflexivity |].
  cbn [filter]. rewrite (H d) by now left.
  apply IH. intros d' Hd'. apply H. now right.
Qed.

Lemma announceDetections_fields (now now' : Z) (ds : list Detection) (st : State) :
  detections (announceDetections p synth now now' ds st) = detections st /\
  error (announceDetections p synth now now' ds st) = error st /\
  processingLock (announceDetections p synth now now' ds st) = processingLock st.
Proof.
  destruct (run_cases (Announce p synth now now' ds) st) as [E | (_ & _ & _ & u & E)];
    cbn [run] in E; rewrite E; cbn; auto.
Qed.

(** A cycle on a free lock publishes the decorated list in the order of
    the predictions, sets no error and releases the lock. *)
Lemma processFrame_publishes (preds : list Detection) (now now' : Z) (st : State) :
  processingLock st = false ->
  detections (processFrame p synth (Some preds) now now' st) = map decorate preds /\
  error (processFrame p synth (Some preds) now now' st) = error st /\
  processingLock (processFrame p synth (Some preds) now now' st) = false.
Proof.
  intros Hl. unfold processFrame. rewrite Hl. cbn [setLock detections error processingLock].
  destruct (announceDetections_fields now now' (map decorate preds)
              (setDetections (map decorate preds) (setLock true st))) as (H1 & H2 & _).
  rewrite H1, H2. cbn. auto.
Qed.

(** What a cycle on a free lock hands to the speech engine is what
    [announceDetections] does on the decorated list. *)
Lemma processFrame_spoken (preds : list Detection) (now now' : Z) (st : State) :
  processingLock st = false ->
  spoken (processFrame p synth (Some preds) now now' st) =
    spoken (announceDetections p synth now now' (map decorate preds) st) /\
  lastAnnouncementTime (processFrame p synth (Some preds) now now' st) =
    lastAnnouncementTime (announceDetections p synth now now' (map decorate preds) st).
Proof.
  intros Hl. unfold processFrame. rewrite Hl. cbn [setLock spoken lastAnnouncementTime].
  unfold announceDetections, throttled, speak, throttled, setDetections, setLock.
  cbn [lastAnnouncementTime spoken].
  destruct (negb (voiceEnabled p) || negb synth); [cbn; auto |].
  destruct (now - lastAnnouncementTime st <? 2000)%Z; [cbn; auto |].
  destruct (chosenAnnouncement p (map decorate preds)); [| cbn; auto].
  destruct (now' - lastAnnouncementTime st <? 2000)%Z; cbn; auto.
Qed.
End CycleFacts.

(** C3.  On an empty detection list the chosen announcement is the fixed
    message, whatever the props (so whatever [filteredObjects]), and a cycle
    whose voice is enabled and which is not throttled speaks it.  On a
    non-empty list none of whose classes is in [filteredObjects], no
    announcement is chosen, [announceDetections] leaves the state as it is
    (nothing is spoken, the time stamp stays), and the cycle still
    publishes the decorated list. *)
Theorem C3_clear_path_and_silence (p : Props) (synth : bool) (now now' : Z) (st : State) :
  chosenAnnouncement p [] = Some "Path is clear ahead" /\
  (processingLock st = false -> voiceEnabled p = true -> synth = true ->
   (2000 <= now - lastAnnouncementTime st)%Z ->
   (2000 <= now' - lastAnnouncementTime st)%Z ->
   spoken (processFrame p synth (Some []) now now' st) =
   {| text := "Path is clear ahead"; rate := voiceRate p; pitch := voicePitch p |}
   :: spoken st) /\
  (forall ds,
     ds <> [] ->
     (forall d, In d ds -> includes (filteredObjects p) (class d) = false) ->
     chosenAnnouncement p ds = None /\
     announceDetections p synth now now' ds st = st) /\
  (forall preds,
     preds <> [] ->
     (forall d, In d preds -> includes (filteredObjects p) (class d) = false) ->
     processingLock st = false ->
     detections (processFrame p synth (Some preds) now now' st) = map decorate preds /\
     spoken (processFrame p synth (Some preds) now now' st) = spoken st /\
     lastAnnouncementTime (processFrame p synth (Some preds) now now' st)
     = lastAnnouncementTime st).
Proof.
  assert (Hsilent : forall ds, ds <> [] ->
            (forall d, In d ds -> includes (filteredObjects p) (class d) = false) ->
            chosenAnnouncement p ds = None /\
            announceDetections p synth now now' ds st = st).
  { intros ds Hne Hnone.
    assert (Hc : chosenAnnouncement p ds = None).
    { destruct ds as [| d r]; [congruence |]. unfold chosenAnnouncement.
      now rewrite (filterDetections_none p (d :: r) Hnone). }
    split; [exact Hc |]. unfold announceDetections. rewrite Hc.
    destruct (negb (voiceEnabled p) || negb synth); [reflexivity |].
    now destruct (throttled now st). }
  split; [reflexivity |]. split; [| split].
  - intros Hl Hv Hs H1 H2.
    rewrite (proj1 (processFrame_spoken p synth [] now now' st Hl)).
    cbn [map]. unfold announceDetections, throttled. rewrite Hv, Hs. cbn [negb orb].
    apply Z.ltb_ge in H1. rewrite H1. cbn [chosenAnnouncement].
    now rewrite speak_speaks.
  - exact Hsilent.
  - intros preds Hne Hnone Hl.
    assert (Hne' : map decorate preds <> []) by (destruct preds; [congruence | discriminate]).
    assert (Hnone' : forall d, In d (map decorate preds) ->
                       includes (filteredObjects p) (class d) = false).
    { intros d Hd. apply in_map_iff in Hd as (d0 & <- & Hd0). exact (Hnone d0 Hd0). }
    destruct (Hsilent _ Hne' Hnone') as [_ Ha].
    destruct (processFrame_spoken p synth preds now now' st Hl) as [H1 H2].
    rewrite H1, H2, Ha.
    split; [| split; reflexivity].
    apply (processFrame_publishes p synth preds now now' st Hl).
Qed.

Lemma C3_clear_path_and_silence_witness :
  spoken (processFrame exampleProps true (Some []) 1700000000000 1700000000000 initialState)
  = [{| text := "Path is clear ahead"; rate := 1.2; pitch := 1 |}] /\
  (chosenAnnouncement exampleProps [decorate dogPrediction] = None /\
   announceDetections exampleProps true 1700000000000 1700000000000
     [decorate dogPrediction] initialState = initialState) /\
  (detections (processFrame exampleProps true (Some [dogPrediction])
                 1700000000000 1700000000000 initialState) = [decorate dogPrediction] /\
   spoken (processFrame exampleProps true (Some [dogPrediction])
             1700000000000 1700000000000 initialState) = [] /\
   lastAnnouncementTime (processFrame exampleProps true (Some [dogPrediction])
             1700000000000 1700000000000 initialState) = 0%Z).
Proof.
  pose proof (C3_clear_path_and_silence exampleProps true 1700000000000 1700000000000
                initialState) as (_ & H1 & H2 & H3).
  split; [| split].
  - apply H1; vm_compute; first [reflexivity | discriminate].
  - apply H2; [discriminate |].
    intros d [<- | []]. reflexivity.
  - apply (H3 [dogPrediction]); [discriminate | | reflexivity].
    intros d [<- | []]. reflexivity.
Defined.

(** ** The announcement selector *)

(** C4.  On every non-empty filtered list the selector takes a detection
    [m] of the list whose pair (priority tier, distance) is minimal in the
    lexicographic order: for every [d] of the list, either the tier of [m]
    is strictly lower, or the tiers are equal and [m] is not farther than
    [d]; the announcement of the cycle is the message composed for [m].  In
    particular, with a warning distance of 3, a chair at distance 1 and a
    car at distance 2 both have tier 2 and the chair is selected, in either
    order of the list. *)
Theorem C4_selects_minimum (p : Props) :
  (forall filtered,
     filtered <> [] ->
     exists m,
       mostImportant p filtered = Some m /\ In m filtered /\
       forall d, In d filtered -> rankedBefore p m d) /\
  (forall ds,
     filterDetections p ds <> [] ->
     exists m,
       mostImportant p (filterDetections p ds) = Some m /\
       chosenAnnouncement p ds = Some (composeMessage p m)) /\
  (forall chair car,
     warningDistance p = 3 ->
     class chair = "chair" -> distance chair = Some 1 ->
     class car = "car" -> distance car = Some 2 ->
     getPriorityLevel p chair = 2 /\ getPriorityLevel p car = 2 /\
     mostImportant p [chair; car] = Some chair /\
     mostImportant p [car; chair] = Some chair).
Proof.
  assert (Hmin : forall filtered, filtered <> [] ->
            exists m, mostImportant p filtered = Some m /\ In m filtered /\
                      forall d, In d filtered -> rankedBefore p m d).
  { intros filtered Hne.
    destruct (sort_head (compareDetections p) filtered Hne) as (m & Hm & Hin).
    exists m. split; [exact Hm |]. split; [exact Hin |].
    intros d Hd. apply notAfter_ranked.
    apply (sort_head_min (compareDetections p) (notAfter_compare_total p)
             (notAfter_compare_trans p) filtered m Hm d Hd). }
  split; [exact Hmin |]. split.
  - intros ds Hne. destruct (Hmin _ Hne) as (m & Hm & _).
    exists m. split; [exact Hm |].
    destruct ds as [| d0 r]; [now elim Hne |].
    unfold chosenAnnouncement.
    destruct (filterDetections p (d0 :: r)) as [| f fs]; [now elim Hne |].
    now rewrite Hm.
  - intros chair car Hw Hc1 Hd1 Hc2 Hd2.
    destruct p as [w vr vp fo ve], chair as [b1 c1 s1 d1], car as [b2 c2 s2 d2].
    cbn in Hw, Hc1, Hd1, Hc2, Hd2. subst. vm_compute. auto.
Qed.

Lemma C4_selects_minimum_witness :
  (exists m,
     mostImportant allClassesProps [carAt2; chairAt1] = Some m /\
     In m [carAt2; chairAt1] /\
     forall d, In d [carAt2; chairAt1] -> rankedBefore allClassesProps m d) /\
  (exists m,
     mostImportant allClassesProps (filterDetections allClassesProps [carAt2; chairAt1]) = Some m /\
     chosenAnnouncement allClassesProps [carAt2; chairAt1]
     = Some (composeMessage allClassesProps m)) /\
  (getPriorityLevel allClassesProps chairAt1 = 2 /\
   getPriorityLevel allClassesProps carAt2 = 2 /\
   mostImportant allClassesProps [chairAt1; carAt2] = Some chairAt1 /\
   mostImportant allClassesProps [carAt2; chairAt1] = Some chairAt1).
Proof.
  pose proof (C4_selects_minimum allClassesProps) as (H1 & H2 & H3).
  split; [| split].
  - apply H1. discriminate.
  - apply H2. vm_compute. discriminate.
  - apply H3; reflexivity.
Defined.

Example scenario_D_message :
  chosenAnnouncement allClassesProps [carAt2; chairAt1]
  = Some "Warning! chair detected on your right, 1.0 meters away".
Proof. vm_compute. reflexivity. Qed.


(** ** The scenario of a single person *)

(** C5, as stated, fails: the estimated distance of the box is not 5.0, and
    the announcement is not the one with "5.0 meters away". *)
Lemma C5_counterexample :
  estimateDistance personBox <> 5 /\
  chosenAnnouncement exampleProps [decorate personPrediction]
  <> Some "person detected on your left, 5.0 meters away".
Proof.
  split.
  - intros H. vm_compute in H. distinct_floats.
  - vm_compute. discriminate.
Qed.

(** C5, amended.  For the single detection of a person with the box
    (0.1, 0.1, 0.2, 0.2), a warning distance of 3 and "person" among the
    filtered classes: the estimated distance is 5000.0, the direction is
    "on your left", and the chosen announcement is "person detected on
    your left, 5000.0 meters away", without the "Warning! " prefix. *)
Theorem C5_single_person (p : Props) :
  warningDistance p = 3 ->
  includes (filteredObjects p) "person" = true ->
  estimateDistance personBox = 5000 /\
  getDirectionalGuidance personBox = "on your left" /\
  chosenAnnouncement p [decorate personPrediction]
  = Some "person detected on your left, 5000.0 meters away".
Proof.
  intros Hw Hf. split; [vm_compute; reflexivity |]. split; [vm_compute; reflexivity |].
  unfold chosenAnnouncement, filterDetections.
  cbn [filter decorate class personPrediction]. rewrite Hf.
  destruct p as [w vr vp fo ve]. cbn in Hw. subst w.
  vm_compute. reflexivity.
Qed.

Lemma C5_single_person_witness :
  estimateDistance personBox = 5000 /\
  getDirectionalGuidance personBox = "on your left" /\
  chosenAnnouncement exampleProps [decorate personPrediction]
  = Some "person detected on your left, 5000.0 meters away".
Proof. exact (C5_single_person exampleProps eq_refl eq_refl). Defined.

(** The same box in pixels of a 1000 x 1000 frame is 5.0 away, and "on your
    right": the thresholds 0.3 and 0.7 of the direction are read on the
    same coordinates. *)
Example single_person_in_pixels :
  estimateDistance [100; 100; 200; 200] = 5 /\
  getDirectionalGuidance [100; 100; 200; 200] = "on your right".
Proof. vm_compute. auto. Qed.

(** ** Boxes of area zero *)

(** C6, as stated, fails: a person whose box has width 0 is decorated (with
    the distance [Infinity]), published, selected and announced. *)
Lemma C6_counterexample :
  is_zero (item (bbox zeroAreaPrediction) 2 * item (bbox zeroAreaPrediction) 3) = true /\
  detections (processFrame exampleProps true (Some [zeroAreaPrediction; dogPrediction])
                1700000000000 1700000000000 initialState)
  = [ {| bbox := [0.4; 0.4; 0; 0.2]; class := "person"; score := 0.9;
         distance := Some infinity |};
      {| bbox := [120; 80; 200; 150]; class := "dog"; score := 0.8;
         distance := Some 5.8 |} ] /\
  spoken (processFrame exampleProps true (Some [zeroAreaPrediction; dogPrediction])
            1700000000000 1700000000000 initialState)
  = [ {| text := "person detected directly ahead, Infinity meters away";
         rate := 1.2; pitch := 1 |} ].
Proof. vm_compute. auto. Qed.

(** The estimate for an area that is one of the two zeros. *)
Lemma estimateDistance_zero_area (b : list float) :
  (item b 2 * item b 3 = 0 -> estimateDistance b = infinity) /\
  (item b 2 * item b 3 = neg_zero -> estimateDistance b = nan).
Proof. unfold estimateDistance. split; intros ->; vm_compute; reflexivity. Qed.

(** Nothing is above [Infinity]. *)
Lemma infinity_ltb (x : float) : (infinity <? x) = false.
Proof.
  rewrite ltb_spec. change (Prim2SF infinity) with (S754_infinity false).
  unfold SFltb. destruct (Prim2SF x) as [[] | [] | | [] m e]; reflexivity.
Qed.

(** The message of a detection of area zero. *)
Lemma composeMessage_zero_area (p : Props) (z : Detection) :
  (item (bbox z) 2 * item (bbox z) 3 = 0 ->
   composeMessage p (decorate z) =
   class z ++ " detected " ++ getDirectionalGuidance (bbox z) ++ ", Infinity meters away") /\
  (item (bbox z) 2 * item (bbox z) 3 = neg_zero ->
   composeMessage p (decorate z) =
   (if 0 <? warningDistance p * 0.5 then "Warning! " else "")
   ++ class z ++ " detected " ++ getDirectionalGuidance (bbox z) ++ ", 0.0 meters away").
Proof.
  destruct (estimateDistance_zero_area (bbox z)) as [Hp Hn].
  unfold composeMessage. cbn [decorate distance class bbox].
  split; intros H.
  - rewrite (Hp H).
    change (JS.orZero (Some infinity)) with infinity.
    rewrite infinity_ltb.
    replace (JS.toFixed1 infinity) with "Infinity" by (vm_compute; reflexivity).
    reflexivity.
  - rewrite (Hn H).
    change (JS.orZero (Some nan)) with 0.
    replace (JS.toFixed1 0) with "0.0" by (vm_compute; reflexivity).
    destruct (0 <? warningDistance p * 0.5); reflexivity.
Qed.

(** C6, amended.  A detection whose box has [width * height == 0] is not
    skipped: a cycle decorates and publishes every prediction, in order,
    sets no error and releases the lock.  The product is one of the two
    zeros.  For [+0] the detection gets the distance [Infinity] and its
    message is "<class> detected <direction>, Infinity meters away", never
    with the prefix "Warning! ".  For [-0] it gets the distance [NaN], which
    [distance || 0] reads as 0, and its message is "<class> detected
    <direction>, 0.0 meters away", with "Warning! " in front exactly when
    [0 < warningDistance * 0.5].  In both cases it takes part in the
    selection like any other: when it is the only prediction and its class
    is filtered in, that message is the announcement chosen, and it is what
    the cycle hands to the speech engine when the voice is enabled and the
    throttle is open. *)
Theorem C6_zero_area_not_skipped (p : Props) (synth : bool)
    (preds : list Detection) (now now' : Z) (st : State) :
  processingLock st = false ->
  detections (processFrame p synth (Some preds) now now' st) = map decorate preds /\
  error (processFrame p synth (Some preds) now now' st) = error st /\
  processingLock (processFrame p synth (Some preds) now now' st) = false /\
  forall z,
    In z preds ->
    is_zero (item (bbox z) 2 * item (bbox z) 3) = true ->
    In (decorate z) (detections (processFrame p synth (Some preds) now now' st)) /\
    (item (bbox z) 2 * item (bbox z) 3 = 0 \/
     item (bbox z) 2 * item (bbox z) 3 = neg_zero) /\
    (item (bbox z) 2 * item (bbox z) 3 = 0 ->
     distance (decorate z) = Some infinity /\
     distanceOf (decorate z) = infinity /\
     composeMessage p (decorate z) =
     class z ++ " detected " ++ getDirectionalGuidance (bbox z)
     ++ ", Infinity meters away") /\
    (item (bbox z) 2 * item (bbox z) 3 = neg_zero ->
     distance (decorate z) = Some nan /\
     distanceOf (decorate z) = 0 /\
     composeMessage p (decorate z) =
     (if 0 <? warningDistance p * 0.5 then "Warning! " else "")
     ++ class z ++ " detected " ++ getDirectionalGuidance (bbox z)
     ++ ", 0.0 meters away") /\
    (preds = [z] -> includes (filteredObjects p) (class z) = true ->
     chosenAnnouncement p (map decorate preds) = Some (composeMessage p (decorate z)) /\
     (voiceEnabled p = true -> synth = true ->
      (2000 <= now - lastAnnouncementTime st)%Z ->
      (2000 <= now' - lastAnnouncementTime st)%Z ->
      spoken (processFrame p synth (Some preds) now now' st) =
      {| text := composeMessage p (decorate z);
         rate := voiceRate p; pitch := voicePitch p |} :: spoken st)).
Proof.
  intros Hl.
  destruct (processFrame_publishes p synth preds now now' st Hl) as (H1 & H2 & H3).
  split; [exact H1 |]. split; [exact H2 |]. split; [exact H3 |].
  intros z Hin Hzero.
  destruct (estimateDistance_zero_area (bbox z)) as [Ep En].
  destruct (composeMessage_zero_area p z) as [Mp Mn].
  split; [| split; [| split; [| split]]].
  - rewrite H1. now apply in_map.
  - now apply is_zero_cases.
  - intros H. unfold distanceOf. cbn [decorate distance]. rewrite (Ep H).
    split; [reflexivity |]. split; [reflexivity | exact (Mp H)].
  - intros H. unfold distanceOf. cbn [decorate distance]. rewrite (En H).
    split; [reflexivity |]. split; [reflexivity | exact (Mn H)].
  - intros -> Hf.
    assert (C : chosenAnnouncement p (map decorate [z])
                = Some (composeMessage p (decorate z))).
    { cbn [map]. unfold chosenAnnouncement, filterDetections.
      cbn [filter decorate class]. rewrite Hf. reflexivity. }
    split; [exact C |].
    intros Hv Hs Hn Hn'. subst synth.
    rewrite (proj1 (processFrame_spoken p true [z] now now' st Hl)).
    unfold announceDetections, throttled. rewrite Hv. cbn [negb orb].
    apply Z.ltb_ge in Hn. rewrite Hn, C.
    rewrite (speak_speaks p true now' _ st Hv eq_refl Hn'). reflexivity.
Qed.

Lemma C6_zero_area_not_skipped_witness :
  (detections (processFrame exampleProps true (Some [zeroAreaPrediction])
                 1700000000000 1700000000000 initialState)
   = map decorate [zeroAreaPrediction] /\
   error (processFrame exampleProps true (Some [zeroAreaPrediction])
            1700000000000 1700000000000 initialState) = None /\
   processingLock (processFrame exampleProps true (Some [zeroAreaPrediction])
                     1700000000000 1700000000000 initialState) = false /\
   distance (decorate zeroAreaPrediction) = Some infinity /\
   chosenAnnouncement exampleProps (map decorate [zeroAreaPrediction])
   = Some "person detected directly ahead, Infinity meters away" /\
   spoken (processFrame exampleProps true (Some [zeroAreaPrediction])
             1700000000000 1700000000000 initialState)
   = [ {| text := "person detected directly ahead, Infinity meters away";
          rate := 1.2; pitch := 1 |} ]) /\
  (distance (decorate negativeZeroAreaPrediction) = Some nan /\
   distanceOf (decorate negativeZeroAreaPrediction) = 0 /\
   chosenAnnouncement exampleProps (map decorate [negativeZeroAreaPrediction])
   = Some "Warning! person detected directly ahead, 0.0 meters away" /\
   spoken (processFrame exampleProps true (Some [negativeZeroAreaPrediction])
             1700000000000 1700000000000 initialState)
   = [ {| text := "Warning! person detected directly ahead, 0.0 meters away";
          rate := 1.2; pitch := 1 |} ]).
Proof.
  split.
  - pose proof (C6_zero_area_not_skipped exampleProps true [zeroAreaPrediction]
                  1700000000000 1700000000000 initialState eq_refl)
      as (H1 & H2 & H3 & H4).
    destruct (H4 zeroAreaPrediction (or_introl eq_refl) eq_refl)
      as (_ & _ & Hp & _ & Ha).
    destruct (Hp eq_refl) as (D & _ & M).
    destruct (Ha eq_refl eq_refl) as (C & S).
    specialize (S eq_refl eq_refl ltac:(cbn; lia) ltac:(cbn; lia)).
    rewrite M in C, S.
    exact (conj H1 (conj H2 (conj H3 (conj D (conj C S))))).
  - pose proof (C6_zero_area_not_skipped exampleProps true [negativeZeroAreaPrediction]
                  1700000000000 1700000000000 initialState eq_refl)
      as (_ & _ & _ & H4).
    destruct (H4 negativeZeroAreaPrediction (or_introl eq_refl) eq_refl)
      as (_ & _ & _ & Hn & Ha).
    destruct (Hn eq_refl) as (D & Z0 & M).
    destruct (Ha eq_refl eq_refl) as (C & S).
    specialize (S eq_refl eq_refl ltac:(cbn; lia) ltac:(cbn; lia)).
    rewrite M in C, S.
    exact (conj D (conj Z0 (conj C S))).
Defined.

(** ** The list published for display *)

(** C7, as stated, fails: for a far person (distance 10, tier 3) reported
    before a near one (distance 1, tier 1) the published list keeps the
    order of the model, which is not the ranked order. *)
Lemma C7_counterexample :
  detections (processFrame exampleProps true (Some [farPerson; nearPerson])
                1700000000000 1700000000000 initialState)
  = [decorate farPerson; decorate nearPerson] /\
  sort (compareDetections exampleProps) (map decorate [farPerson; nearPerson])
  = [decorate nearPerson; decorate farPerson] /\
  getPriorityLevel exampleProps (decorate farPerson) = 3 /\
  getPriorityLevel exampleProps (decorate nearPerson) = 1 /\
  ~ rankedBefore exampleProps (decorate farPerson) (decorate nearPerson).
Proof.
  repeat split; try (vm_compute; reflexivity).
  unfold rankedBefore. vm_compute. intros [H | [H _]]; [discriminate | distinct_floats].
Qed.

(** C7, amended.  The list a successful cycle publishes for display is the
    decorated detection list in the order the model produced it; the ranking
    by (priority tier, distance) is applied only to the copy from which the
    announcement is chosen. *)
Theorem C7_published_in_model_order (p : Props) (synth : bool)
    (preds : list Detection) (now now' : Z) (st : State) :
  processingLock st = false ->
  detections (processFrame p synth (Some preds) now now' st) = map decorate preds.
Proof.
  intros Hl. apply (processFrame_publishes p synth preds now now' st Hl).
Qed.

Lemma C7_published_in_model_order_witness :
  detections (processFrame exampleProps true (Some [farPerson; nearPerson])
                1700000000000 1700000000000 initialState)
  = map decorate [farPerson; nearPerson].
Proof.
  exact (C7_published_in_model_order exampleProps true [farPerson; nearPerson]
           1700000000000 1700000000000 initialState eq_refl).
Defined.

(** ** Detections without a distance *)

Lemma orZero_positive (y : float) : (0 <? y) = true -> JS.orZero (Some y) = y.
Proof.
  intros H. destruct (zero_ltb_not_nan_zero y H) as [Hn Hz].
  cbn [JS.orZero]. unfold JS.truthy. now rewrite Hn, Hz.
Qed.

(** C9, as stated, fails for the smallest positive double as warning
    distance: its half and its four tenths round to zero, so that a person
    without a distance gets tier 2, a chair tier 4, and the message has no
    "Warning! " prefix. *)
Lemma C9_counterexample :
  (0 <? warningDistance tinyProps) = true /\
  getPriorityLevel tinyProps personNoDistance = 2 /\
  getPriorityLevel tinyProps chairNoDistance = 4 /\
  composeMessage tinyProps personNoDistance
  = "person detected directly ahead, 0.0 meters away".
Proof. vm_compute. auto. Qed.

(** C9, amended.  A detection without a distance is read as being at
    distance 0.  For every warning distance above 0 other than the smallest
    positive double, it is classified in the most urgent band of its class
    set (tier 1 if dangerous, tier 2 if an obstacle), it sorts before every
    detection of the same tier with a positive distance, and its message
    has the "Warning! " prefix and reports "0.0 meters away". *)
Theorem C9_absent_distance (p : Props) (d : Detection) :
  distance d = None ->
  (0 <? warningDistance p) = true ->
  warningDistance p <> 5e-324 ->
  distanceOf d = 0 /\
  (includes dangerousObjects (class d) = true -> getPriorityLevel p d = 1) /\
  (includes dangerousObjects (class d) = false ->
   includes obstacles (class d) = true -> getPriorityLevel p d = 2) /\
  (forall b y,
     distance b = Some y -> (0 <? y) = true ->
     getPriorityLevel p b = getPriorityLevel p d ->
     (compareDetections p d b <? 0) = true /\
     (0 <? compareDetections p b d) = true /\
     sort (compareDetections p) [b; d] = [d; b] /\
     sort (compareDetections p) [d; b] = [d; b]) /\
  composeMessage p d
  = "Warning! " ++ class d ++ " detected " ++ getDirectionalGuidance (bbox d)
    ++ ", 0.0 meters away".
Proof.
  intros Hd Hw Hmin.
  destruct (scaled_positive (warningDistance p) Hw Hmin) as [H5 H4].
  assert (H0 : distanceOf d = 0) by (unfold distanceOf; now rewrite Hd).
  split; [exact H0 |]. split; [| split; [| split]].
  - intros Hc. unfold getPriorityLevel. rewrite Hc, Hd. cbn [JS.orZero]. now rewrite H5.
  - intros Hc Ho. unfold getPriorityLevel. rewrite Hc, Ho, Hd. cbn [JS.orZero]. now rewrite H4.
  - intros b y Hb Hy Ht.
    assert (Hdb : (compareDetections p d b <? 0) = true).
    { unfold compareDetections. rewrite compare_beforeb by apply tier_range.
      rewrite Ht, Hd, Hb, (orZero_positive y Hy). cbn [JS.orZero].
      rewrite (sub_ltb_zero 0 y) by (try reflexivity; apply (zero_ltb_not_nan_zero y Hy)).
      rewrite Hy.
      pose proof (tier_range p d) as Hr.
      remember (getPriorityLevel p d) as t. clear Heqt Ht.
      tier_cases; vm_compute; reflexivity. }
    assert (Hbd : (0 <? compareDetections p b d) = true).
    { unfold compareDetections. rewrite compare_afterb by apply tier_range.
      rewrite Ht, Hd, Hb, (orZero_positive y Hy). cbn [JS.orZero].
      rewrite (zero_ltb_sub y 0) by (try reflexivity; apply (zero_ltb_not_nan_zero y Hy)).
      rewrite Hy.
      pose proof (tier_range p d) as Hr.
      remember (getPriorityLevel p d) as t. clear Heqt Ht.
      tier_cases; vm_compute; reflexivity. }
    split; [exact Hdb |]. split; [exact Hbd |].
    unfold sort. cbn [fold_right insertSorted]. rewrite Hbd, (ltb_asym _ _ Hdb). auto.
  - unfold composeMessage. rewrite Hd. cbn [JS.orZero]. rewrite H5. reflexivity.
Qed.

Lemma C9_absent_distance_witness :
  distanceOf personNoDistance = 0 /\
  getPriorityLevel exampleProps personNoDistance = 1 /\
  getPriorityLevel allClassesProps chairNoDistance = 2 /\
  ((compareDetections allClassesProps chairNoDistance carAt2 <? 0) = true /\
   (0 <? compareDetections allClassesProps carAt2 chairNoDistance) = true /\
   sort (compareDetections allClassesProps) [carAt2; chairNoDistance]
   = [chairNoDistance; carAt2] /\
   sort (compareDetections allClassesProps) [chairNoDistance; carAt2]
   = [chairNoDistance; carAt2]) /\
  composeMessage exampleProps personNoDistance
  = "Warning! person detected directly ahead, 0.0 meters away".
Proof.
  assert (Hne : (3 : float) <> 5e-324).
  { intros H. apply (f_equal (fun t => t <? 1)) in H. vm_compute in H. discriminate. }
  pose proof (C9_absent_distance exampleProps personNoDistance eq_refl eq_refl Hne)
    as (H1 & H2 & _ & _ & H5).
  pose proof (C9_absent_distance allClassesProps chairNoDistance eq_refl eq_refl Hne)
    as (_ & _ & H3 & H4 & _).
  exact (conj H1 (conj (H2 eq_refl) (conj (H3 eq_refl eq_refl)
           (conj (H4 carAt2 2 eq_refl eq_refl eq_refl) H5)))).
Defined.


(** * Further properties of the code *)

(** ** More facts about binary64 arithmetic *)

Module FloatSigns.

Local Open Scope Z_scope.

Lemma SFleb_SFltb_trans x y z :
  SFleb x y = true -> SFltb y z = true -> SFltb x z = true.
Proof.
  unfold SFleb, SFltb.
  destruct x as [[] | [] | | [] mx ex], y as [[] | [] | | [] my ey],
           z as [[] | [] | | [] mz ez]; cbn; try easy;
    intros H1 H2; split_compare; cbn in *; try easy; try lia.
Qed.

(** The result of a rounding has the sign it was given, or is [NaN]. *)
Lemma binary_round_aux_notNegative m e l :
  notNegative (binary_round_aux prec emax false m e l).
Proof.
  unfold binary_round_aux.
  destruct (shr_fexp prec emax m e l) as [mrs' e'].
  destruct (shr_fexp prec emax _ e' loc_Exact) as [mrs'' e''].
  destruct (shr_m mrs'') as [| q | q]; [exact I | | exact I].
  destruct (Z.leb e'' (emax - prec)); exact I.
Qed.

Lemma SFsqrt_notNegative x : notNegative (SF64sqrt x).
Proof.
  unfold SF64sqrt. destruct x as [[] | [] | | [] m e]; cbn; auto.
  destruct (SFsqrt_core_binary prec emax (Zpos m) e) as [[mz ez] lz].
  apply binary_round_aux_notNegative.
Qed.

Lemma SFmul_notNegative x my ey :
  notNegative x -> notNegative (SF64mul x (S754_finite false my ey)).
Proof.
  unfold SF64mul.
  destruct x as [[] | [] | | [] m e]; cbn [SFmul xorb notNegative]; intros H;
    try exact I; try contradiction.
  apply binary_round_aux_notNegative.
Qed.

Lemma SFdiv_notNegative x my ey :
  notNegative x -> notNegative (SF64div x (S754_finite false my ey)).
Proof.
  unfold SF64div.
  destruct x as [[] | [] | | [] m e]; cbn [SFdiv xorb notNegative]; intros H;
    try exact I; try contradiction.
  destruct (SFdiv_core_binary prec emax (Zpos m) e (Zpos my) ey) as [[mz ez] lz].
  apply binary_round_aux_notNegative.
Qed.

Lemma binary_normalize_notNegative m e :
  0 <= m -> notNegative (binary_normalize prec emax m e false).
Proof.
  destruct m as [| q | q]; cbn [binary_normalize]; try lia; intros _; [exact I |].
  unfold binary_round. destruct (shl_align q e _) as [mz ez].
  apply binary_round_aux_notNegative.
Qed.

Local Open Scope float_scope.

Lemma leb_ltb_trans (x y z : float) :
  (x <=? y) = true -> (y <? z) = true -> (x <? z) = true.
Proof. rewrite leb_spec, !ltb_spec. apply SFleb_SFltb_trans. Qed.

Lemma notNegative_ltb_zero (x : float) :
  notNegative (Prim2SF x) -> (x <? 0) = false.
Proof.
  rewrite ltb_spec, Prim2SF_zero. unfold SFltb.
  destruct (Prim2SF x) as [[] | [] | | [] m e]; cbn; tauto.
Qed.

Lemma ofZ_notNegative (n : Z) : (0 <= n)%Z -> notNegative (Prim2SF (JS.ofZ n)).
Proof.
  destruct n as [| q | q]; try lia; intros _; cbn [JS.ofZ].
  - rewrite Prim2SF_zero. exact I.
  - rewrite of_uint63_spec. apply binary_normalize_notNegative.
    apply Uint63.to_Z_bounded.
Qed.

Lemma Math_round_notNegative (x : float) :
  notNegative (Prim2SF x) -> notNegative (Prim2SF (JS.Math_round x)).
Proof.
  intros H. unfold JS.Math_round.
  destruct (Prim2SF x) as [s | s | | [] m e] eqn:E; try (rewrite E; exact H).
  - destruct H.
  - destruct (0 <=? e)%Z eqn:He; [rewrite E; exact I |].
    apply Z.leb_gt in He.
    set (d := (2 ^ (- e))%Z).
    assert (Hd : (0 < d)%Z) by (apply Z.pow_pos_nonneg; lia).
    assert (Hq : (0 <= Zpos m / d)%Z) by (apply Z.div_pos; lia).
    destruct (d <=? 2 * (Zpos m mod d))%Z.
    + destruct (Zpos m / d + 1 =? 0)%Z; [exact I |]. apply ofZ_notNegative. lia.
    + destruct (Zpos m / d =? 0)%Z; [exact I |]. now apply ofZ_notNegative.
Qed.

End FloatSigns.

Import FloatSigns.

(** ** The distance estimator, further *)

Lemma estimateDistance_notNegative (b : list float) :
  notNegative (Prim2SF (estimateDistance b)).
Proof.
  unfold estimateDistance.
  rewrite div_spec.
  change (Prim2SF 10) with (S754_finite false 5629499534213120 (-49)).
  apply SFdiv_notNegative, Math_round_notNegative.
  rewrite mul_spec.
  change (Prim2SF 10) with (S754_finite false 5629499534213120 (-49)).
  apply SFmul_notNegative. rewrite sqrt_spec. apply SFsqrt_notNegative.
Qed.

(** X1.  The estimated distance of a box is never below zero, whatever the
    box (it can be [NaN] or [Infinity]); the distance that the classifier,
    the comparison and the message read from a decorated detection is a
    number that is at least zero. *)
Theorem X1_distance_never_negative (d : Detection) :
  (estimateDistance (bbox d) <? 0) = false /\
  is_nan (distanceOf (decorate d)) = false /\
  (0 <=? distanceOf (decorate d)) = true.
Proof.
  pose proof (notNegative_ltb_zero _ (estimateDistance_notNegative (bbox d))) as H.
  split; [exact H |]. unfold distanceOf.
  split; [apply orZero_not_nan |].
  rewrite leb_negb_ltb by (try reflexivity; apply orZero_not_nan).
  cbn [decorate distance JS.orZero].
  destruct (JS.truthy (estimateDistance (bbox d))); [now rewrite H | reflexivity].
Qed.

(** ** The priority classifier, further *)

(** X2.  The tier is one of 1 to 5.  A dangerous class gets tier 1, 2 or 3
    and an obstacle class tier 2 or 4; tier 5 is the tier of exactly the
    classes in neither list, and tier 1 the tier of exactly the dangerous
    detections nearer than half the warning distance. *)
Theorem X2_tier_by_class (p : Props) (d : Detection) :
  In (getPriorityLevel p d) tiers /\
  (includes dangerousObjects (class d) = true ->
   In (getPriorityLevel p d) [1; 2; 3]) /\
  (includes dangerousObjects (class d) = false ->
   includes obstacles (class d) = true ->
   In (getPriorityLevel p d) [2; 4]) /\
  (getPriorityLevel p d = 5 <->
   includes dangerousObjects (class d) = false /\
   includes obstacles (class d) = false) /\
  (getPriorityLevel p d = 1 <->
   includes dangerousObjects (class d) = true /\
   (distanceOf d <? warningDistance p * 0.5) = true).
Proof.
  unfold getPriorityLevel, distanceOf, tiers.
  destruct (includes dangerousObjects (class d)), (includes obstacles (class d)),
    (JS.orZero (distance d) <? warningDistance p * 0.5),
    (JS.orZero (distance d) <? warningDistance p * 0.4),
    (JS.orZero (distance d) <? warningDistance p);
    cbn [In]; repeat split; intros; auto 10;
    try discriminate; try distinct_floats;
    repeat match goal with H : _ /\ _ |- _ => destruct H end; try discriminate.
Qed.

Lemma X2_tier_by_class_witness :
  In (getPriorityLevel exampleProps carAt2) [1; 2; 3] /\
  In (getPriorityLevel allClassesProps chairAt1) [2; 4].
Proof.
  split.
  - exact (proj1 (proj2 (X2_tier_by_class exampleProps carAt2)) eq_refl).
  - exact (proj1 (proj2 (proj2 (X2_tier_by_class allClassesProps chairAt1)))
             eq_refl eq_refl).
Defined.

(** X3.  For a fixed class the tier never gets more urgent with a greater
    distance: of two detections of the same class, the one that is not
    farther has a tier that is not higher. *)
Theorem X3_tier_monotone_in_distance (p : Props) (a b : Detection) :
  class a = class b ->
  (distanceOf a <=? distanceOf b) = true ->
  (getPriorityLevel p a <=? getPriorityLevel p b) = true.
Proof.
  intros Hc Hd. unfold getPriorityLevel. fold (distanceOf a) (distanceOf b). rewrite Hc.
  pose proof (leb_ltb_trans _ _ (warningDistance p * 0.5) Hd) as H5.
  pose proof (leb_ltb_trans _ _ (warningDistance p * 0.4) Hd) as H4.
  pose proof (leb_ltb_trans _ _ (warningDistance p) Hd) as H1.
  destruct (includes dangerousObjects (class b)), (includes obstacles (class b)),
    (distanceOf b <? warningDistance p * 0.5),
    (distanceOf b <? warningDistance p * 0.4),
    (distanceOf b <? warningDistance p);
    rewrite ?H5, ?H4, ?H1 by reflexivity;
    repeat match goal with |- context [if ?c then _ else _] => destruct c end;
    reflexivity.
Qed.

Lemma X3_tier_monotone_in_distance_witness :
  (getPriorityLevel exampleProps (decorate nearPerson)
   <=? getPriorityLevel exampleProps (decorate farPerson)) = true.
Proof.
  exact (X3_tier_monotone_in_distance exampleProps (decorate nearPerson)
           (decorate farPerson) eq_refl eq_refl).
Defined.

(** X4.  The row highlight and the spoken warning agree on dangerous
    classes: a detection that the list shows as high priority (tier 1) is
    announced with the "Warning! " prefix, and a dangerous detection whose
    message has the prefix is shown as high priority.  For the other
    classes the prefix depends on the distance alone. *)
Theorem X4_highlight_and_warning (p : Props) (d : Detection) :
  (isHighPriority p d = true ->
   composeMessage p d = "Warning! " ++ plainMessage d) /\
  (includes dangerousObjects (class d) = true ->
   (isHighPriority p d = true <->
    composeMessage p d = "Warning! " ++ plainMessage d)) /\
  (includes dangerousObjects (class d) = false -> isHighPriority p d = false) /\
  (composeMessage p d =
   if distanceOf d <? warningDistance p * 0.5
   then "Warning! " ++ plainMessage d else plainMessage d).
Proof.
  assert (Hm : composeMessage p d =
               if distanceOf d <? warningDistance p * 0.5
               then "Warning! " ++ plainMessage d else plainMessage d) by reflexivity.
  rewrite Hm. unfold isHighPriority, getPriorityLevel. fold (distanceOf d).
  generalize (plainMessage d). intros m.
  assert (Hne : "Warning! " ++ m <> m).
  { intros H. apply (f_equal String.length) in H. cbn in H. lia. }
  destruct (includes dangerousObjects (class d)), (includes obstacles (class d)),
    (distanceOf d <? warningDistance p * 0.5),
    (distanceOf d <? warningDistance p * 0.4),
    (distanceOf d <? warningDistance p);
    repeat match goal with
    | |- context [(?a =? ?b)%float] =>
        let v := eval vm_compute in (a =? b)%float in change (a =? b)%float with v
    end;
    repeat split; intros; try reflexivity; try discriminate; try congruence.
Qed.

Lemma X4_highlight_and_warning_witness :
  composeMessage exampleProps (decorate nearPerson)
  = "Warning! " ++ plainMessage (decorate nearPerson) /\
  (isHighPriority exampleProps (decorate nearPerson) = true <->
   composeMessage exampleProps (decorate nearPerson)
   = "Warning! " ++ plainMessage (decorate nearPerson)) /\
  isHighPriority allClassesProps chairAt1 = false.
Proof.
  pose proof (X4_highlight_and_warning exampleProps (decorate nearPerson)) as (H1 & H2 & _).
  pose proof (X4_highlight_and_warning allClassesProps chairAt1) as (_ & _ & H3 & _).
  exact (conj (H1 eq_refl) (conj (H2 eq_refl) (H3 eq_refl))).
Defined.

(** ** The announcement selector, further *)

(** X5.  An announcement about a detection is about a detection of the
    list whose class is filtered in, and the announcement depends on the
    detections only through the filtered list: detections of other classes
    never change what is chosen, as long as the list is not empty. *)
Theorem X5_announces_filtered_only (p : Props) (ds : list Detection) :
  (forall msg,
     chosenAnnouncement p ds = Some msg ->
     (ds = [] /\ msg = "Path is clear ahead") \/
     exists m,
       In m ds /\ includes (filteredObjects p) (class m) = true /\
       msg = composeMessage p m) /\
  (forall ds',
     ds <> [] -> ds' <> [] ->
     filterDetections p ds = filterDetections p ds' ->
     chosenAnnouncement p ds = chosenAnnouncement p ds').
Proof.
  split.
  - intros msg H. destruct ds as [| d0 r]; [cbn in H; left; split; congruence |]. right.
    unfold chosenAnnouncement in H.
    destruct (filterDetections p (d0 :: r)) as [| f fs] eqn:E; [discriminate |].
    unfold mostImportant in H.
    destruct (hd_error (sort (compareDetections p) (f :: fs))) as [m |] eqn:Hm;
      [| discriminate].
    injection H as <-. exists m.
    assert (Hin : In m (filterDetections p (d0 :: r))).
    { rewrite E. apply (sort_In (compareDetections p)).
      destruct (sort (compareDetections p) (f :: fs)); [discriminate |].
      injection Hm as ->. now left. }
    apply filter_In in Hin as [H1 H2]. auto.
  - intros ds' Hne Hne' E.
    destruct ds as [| d0 r]; [congruence |]. destruct ds' as [| d0' r']; [congruence |].
    unfold chosenAnnouncement. now rewrite E.
Qed.

Lemma X5_announces_filtered_only_witness :
  ((decorate nearPerson :: [decorate dogPrediction] = [] /\
    "Warning! person detected on your right, 1.0 meters away" = "Path is clear ahead") \/
   exists m,
     In m [decorate nearPerson; decorate dogPrediction] /\
     includes (filteredObjects exampleProps) (class m) = true /\
     "Warning! person detected on your right, 1.0 meters away"
     = composeMessage exampleProps m) /\
  chosenAnnouncement exampleProps [decorate nearPerson; decorate dogPrediction]
  = chosenAnnouncement exampleProps [decorate dogPrediction; decorate nearPerson; decorate dogPrediction].
Proof.
  pose proof (X5_announces_filtered_only exampleProps
                [decorate nearPerson; decorate dogPrediction]) as [H1 H2].
  split.
  - apply H1. vm_compute. reflexivity.
  - apply H2; [discriminate | discriminate | reflexivity].
Defined.

(** The comparison of [b] with [a] is negative exactly when the one of [a]
    with [b] is positive. *)
Lemma compare_flip (p : Props) (a b : Detection) :
  (compareDetections p a b <? 0) = (0 <? compareDetections p b a).
Proof.
  unfold compareDetections.
  rewrite compare_beforeb, compare_afterb by apply tier_range.
  rewrite sub_ltb_zero, zero_ltb_sub by apply orZero_not_nan. reflexivity.
Qed.

Lemma sortOrder_compare (p : Props) (a b : Detection) :
  sortOrder (compareDetections p a b) =
  if 0 <? compareDetections p b a then Lt
  else if 0 <? compareDetections p a b then Gt else Eq.
Proof. unfold sortOrder. now rewrite compare_flip. Qed.

(** X6.  The comparison function given to [sort] is a consistent one, as
    the language requires for the sorted order to be defined: a detection
    compares equal to itself, swapping the arguments reverses the answer,
    detections that compare equal compare alike with every third one, and
    "before", "after" and "equal" are each transitive.  No distance and no
    threshold, [NaN] included, makes the comparison inconsistent. *)
Theorem X6_comparison_is_consistent (p : Props) (a b c : Detection) :
  sortOrder (compareDetections p a a) = Eq /\
  sortOrder (compareDetections p b a) = CompOpp (sortOrder (compareDetections p a b)) /\
  (sortOrder (compareDetections p a b) = Eq ->
   sortOrder (compareDetections p a c) = sortOrder (compareDetections p b c)) /\
  (sortOrder (compareDetections p a b) = sortOrder (compareDetections p b c) ->
   sortOrder (compareDetections p a c) = sortOrder (compareDetections p a b)).
Proof.
  rewrite !sortOrder_compare.
  pose proof (notAfter_compare_total p a a) as Taa.
  pose proof (notAfter_compare_total p a b) as Tab.
  pose proof (notAfter_compare_total p a c) as Tac.
  pose proof (notAfter_compare_total p b c) as Tbc.
  pose proof (notAfter_compare_trans p a b c) as R1.
  pose proof (notAfter_compare_trans p a c b) as R2.
  pose proof (notAfter_compare_trans p b a c) as R3.
  pose proof (notAfter_compare_trans p b c a) as R4.
  pose proof (notAfter_compare_trans p c a b) as R5.
  pose proof (notAfter_compare_trans p c b a) as R6.
  unfold notAfter in *.
  destruct (0 <? compareDetections p a a);
  destruct (0 <? compareDetections p a b), (0 <? compareDetections p b a),
           (0 <? compareDetections p a c), (0 <? compareDetections p c a),
           (0 <? compareDetections p b c), (0 <? compareDetections p c b);
    cbn [CompOpp]; repeat split; intros; try reflexivity; try discriminate;
    exfalso;
    first [ now destruct Taa | now destruct Tab | now destruct Tac | now destruct Tbc
          | now specialize (R1 eq_refl eq_refl) | now specialize (R2 eq_refl eq_refl)
          | now specialize (R3 eq_refl eq_refl) | now specialize (R4 eq_refl eq_refl)
          | now specialize (R5 eq_refl eq_refl) | now specialize (R6 eq_refl eq_refl) ].
Qed.

Lemma X6_comparison_is_consistent_witness :
  sortOrder (compareDetections allClassesProps personNoDistance personNoDistance) = Eq /\
  sortOrder (compareDetections allClassesProps chairAt1 personNoDistance)
  = CompOpp (sortOrder (compareDetections allClassesProps personNoDistance chairAt1)) /\
  sortOrder (compareDetections allClassesProps personNoDistance chairAt1)
  = sortOrder (compareDetections allClassesProps farPerson chairAt1) /\
  sortOrder (compareDetections allClassesProps personNoDistance carAt2)
  = sortOrder (compareDetections allClassesProps personNoDistance chairAt1).
Proof.
  pose proof (X6_comparison_is_consistent allClassesProps personNoDistance chairAt1 carAt2)
    as (H1 & H2 & _ & H4).
  pose proof (X6_comparison_is_consistent allClassesProps personNoDistance farPerson chairAt1)
    as (_ & _ & H3 & _).
  split; [exact H1 |]. split; [exact H2 |]. split.
  - apply H3. vm_compute. reflexivity.
  - apply H4. vm_compute. reflexivity.
Defined.

(** ** The sorted copy *)

Lemma StronglySorted_impl {A : Type} (R S : A -> A -> Prop) (l : list A) :
  (forall a b, R a b -> S a b) -> StronglySorted R l -> StronglySorted S l.
Proof.
  intros H. induction 1 as [| x r Hr IH Hx]; constructor; [assumption |].
  rewrite Forall_forall in Hx |- *. auto.
Qed.

(** The head of the sorted list stands in the list behind elements that
    the comparison puts after it only. *)
Lemma sort_head_first {A : Type} (cmp : A -> A -> float) (l : list A) (m : A) :
  hd_error (sort cmp l) = Some m ->
  exists pre post,
    l = (pre ++ m :: post)%list /\ forall d, In d pre -> (0 <? cmp d m) = true.
Proof.
  revert m. induction l as [| x l IH]; intros m Hm; [discriminate |].
  cbn [sort fold_right] in Hm. fold (sort cmp l) in Hm.
  destruct (sort cmp l) as [| y r] eqn:E.
  - cbn in Hm. injection Hm as <-.
    apply (f_equal (@List.length A)) in E. rewrite sort_length in E.
    destruct l; [| discriminate].
    exists [], []. split; [reflexivity | intros d []].
  - cbn [insertSorted] in Hm. destruct (0 <? cmp x y) eqn:C.
    + cbn in Hm. injection Hm as <-.
      destruct (IH y eq_refl) as (pre & post & -> & Hpre).
      exists (x :: pre), post. split; [reflexivity |].
      intros d [<- | Hd]; [exact C | now apply Hpre].
    + cbn in Hm. injection Hm as <-.
      exists [], l. split; [reflexivity | intros d []].
Qed.

(** X7.  The copy that [announceDetections] sorts holds the same
    detections as the filtered list, each as often, and is in order: every
    detection ranks, by tier and then by distance, no later than all that
    follow it. *)
Theorem X7_sorted_copy (p : Props) (filtered : list Detection) :
  Permutation (sort (compareDetections p) filtered) filtered /\
  StronglySorted (rankedBefore p) (sort (compareDetections p) filtered).
Proof.
  split; [apply sort_perm |].
  apply StronglySorted_impl with (R := notAfter (compareDetections p)).
  - intros a b. apply notAfter_ranked.
  - apply sort_sorted; [apply notAfter_compare_total | apply notAfter_compare_trans].
Qed.

(** X8.  Among detections of the same rank the one that comes first in the
    list is selected: every detection that stands before the selected one
    in the filtered list ranks strictly after it. *)
Theorem X8_ties_go_to_the_first (p : Props) (filtered : list Detection) (m : Detection) :
  mostImportant p filtered = Some m ->
  exists pre post,
    filtered = (pre ++ m :: post)%list /\
    forall d, In d pre -> ~ rankedBefore p d m.
Proof.
  intros Hm. destruct (sort_head_first _ _ _ Hm) as (pre & post & E & Hpre).
  exists pre, post. split; [exact E |].
  intros d Hd Hr. apply notAfter_ranked in Hr. unfold notAfter in Hr.
  rewrite (Hpre d Hd) in Hr. discriminate.
Qed.

Lemma X8_ties_go_to_the_first_witness :
  exists pre post,
    [carAt2; personNoDistance; farPerson] = (pre ++ personNoDistance :: post)%list /\
    forall d, In d pre -> ~ rankedBefore allClassesProps d personNoDistance.
Proof.
  apply (X8_ties_go_to_the_first allClassesProps [carAt2; personNoDistance; farPerson]).
  vm_compute. reflexivity.
Defined.

(** ** Runs of dispatch attempts *)

(** X9.  Over any run of calls of [speak] and [announceDetections], with
    any props and any clock readings: the utterances handed to the speech
    engine are only ever added to, one for each attempt that speaks; the
    time stamp advances by at least 2000 ms for each of them, so that the
    time stamp bounds their number; and the run changes neither the
    displayed detections, nor the error, nor the lock. *)
Theorem X9_speech_log_and_rate (l : list Attempt) (st : State) :
  exists new,
    spoken (runAll l st) = (new ++ spoken st)%list /\
    List.length new = count_occ bool_dec (outcomes l st) true /\
    (lastAnnouncementTime st + 2000 * Z.of_nat (List.length new)
     <= lastAnnouncementTime (runAll l st))%Z /\
    detections (runAll l st) = detections st /\
    error (runAll l st) = error st /\
    processingLock (runAll l st) = processingLock st.
Proof.
  revert st. induction l as [| a r IH]; intros st.
  - exists []. cbn. repeat split; try reflexivity; lia.
  - cbn [runAll fold_left outcomes]. fold (runAll r (run a st)).
    destruct (IH (run a st)) as (new & H1 & H2 & H3 & H4 & H5 & H6).
    destruct (run_cases a st) as [E | (_ & _ & Hd & u & E)].
    + pose proof (proj2 (spoke_false_iff a st) E) as Hs.
      rewrite E in *. exists new. rewrite Hs. cbn [count_occ].
      destruct (bool_dec false true); [discriminate |]. auto 10.
    + assert (Hs : spoke a st = true).
      { destruct (spoke a st) eqn:S; [reflexivity |].
        apply spoke_false_iff in S. rewrite S in E.
        apply (f_equal (fun s => List.length (spoken s))) in E. cbn in E. lia. }
      assert (F : spoken (run a st) = u :: spoken st /\
                  lastAnnouncementTime (run a st) = dispatchTime a /\
                  detections (run a st) = detections st /\
                  error (run a st) = error st /\
                  processingLock (run a st) = processingLock st)
        by (rewrite E; cbn; auto).
      destruct F as (F1 & F2 & F3 & F4 & F5).
      rewrite F1 in H1. rewrite F2 in H3. rewrite F3 in H4. rewrite F4 in H5.
      rewrite F5 in H6.
      exists (new ++ [u])%list. rewrite Hs. cbn [count_occ].
      destruct (bool_dec true true); [| congruence].
      rewrite <- app_assoc, length_app. cbn [List.length app].
      repeat split; try assumption; lia.
Qed.

(** ** The component: errors and the model *)

Lemma processFrame_error (p : Props) (synth : bool) (predictions : option (list Detection))
    (now now' : Z) (st : State) :
  (exists a rest, error st = Some (String a rest)) ->
  exists a rest, error (processFrame p synth predictions now now' st) = Some (String a rest).
Proof.
  intros H. unfold processFrame.
  destruct (processingLock st) eqn:L; [exact H |].
  destruct predictions as [preds |]; cbn [setLock error setError].
  - destruct (announceDetections_fields p synth now now' (map decorate preds)
                (setDetections (map decorate preds) (setLock true st))) as (_ & -> & _).
    exact H.
  - eauto.
Qed.

Lemma speak_fields (p : Props) (synth : bool) (now : Z) (text : string) (st : State) :
  detections (speak p synth now text st) = detections st /\
  error (speak p synth now text st) = error st /\
  processingLock (speak p synth now text st) = processingLock st.
Proof.
  destruct (speak_cases p synth now text st) as [E | (_ & _ & E)]; rewrite E; cbn; auto.
Qed.

Lemma step_error (c : Component) (e : Event) :
  loading c = false ->
  (exists a rest, error (core c) = Some (String a rest)) ->
  loading (step c e) = false /\
  exists a rest, error (core (step c e)) = Some (String a rest).
Proof.
  intros Hl H. destruct e as [p synth loaded now | p synth imageData predictions now now'];
    cbn [step].
  - unfold loadModel. destruct loaded; cbn [core loading].
    + split; [reflexivity |].
      destruct (speak_fields p synth now readyMessage (core c)) as (_ & -> & _). exact H.
    + split; [reflexivity |]. cbn [setError error]. eauto.
  - unfold frameEffect. destruct (negb imageData || negb (model c)); [auto |].
    cbn [core loading]. split; [exact Hl |]. now apply processFrame_error.
Qed.

(** X10.  A cycle whose detection fails keeps the displayed detections,
    says nothing, releases the lock and sets the error; and nothing ever
    clears an error: once one is set, whatever loads and frames follow, the
    component renders the error alert and never the list again.  The speech
    of the following cycles is not affected by the error. *)
Theorem X10_error_is_never_cleared (p : Props) (synth : bool) (now now' : Z) :
  (forall c,
     model c = true -> processingLock (core c) = false ->
     let c' := frameEffect p synth true None now now' c in
     error (core c') = Some "Failed to process image" /\
     detections (core c') = detections (core c) /\
     spoken (core c') = spoken (core c) /\
     lastAnnouncementTime (core c') = lastAnnouncementTime (core c) /\
     processingLock (core c') = false) /\
  (forall c l,
     loading c = false ->
     (exists a rest, error (core c) = Some (String a rest)) ->
     exists msg, render (steps c l) = ErrorPanel msg) /\
  (forall st msg preds,
     spoken (processFrame p synth (Some preds) now now' (setError msg st))
     = spoken (processFrame p synth (Some preds) now now' st)).
Proof.
  split; [| split].
  - intros c Hm Hl. unfold frameEffect. rewrite Hm. cbn [negb orb core].
    unfold processFrame. rewrite Hl. cbn. auto.
  - intros c l. revert c. induction l as [| e r IH]; intros c Hl H.
    + cbn [steps fold_left]. unfold render. rewrite Hl.
      destruct H as (a & rest & ->). eauto.
    + cbn [steps fold_left]. fold (steps (step c e) r).
      destruct (step_error c e Hl H) as [Hl' H']. now apply IH.
  - intros st msg preds. unfold processFrame. cbn [setError processingLock].
    destruct (processingLock st); [reflexivity |].
    cbn [setLock spoken].
    unfold announceDetections, throttled, speak, throttled, setDetections, setLock, setError.
    cbn [lastAnnouncementTime spoken].
    destruct (negb (voiceEnabled p) || negb synth); [reflexivity |].
    destruct (now - lastAnnouncementTime st <? 2000)%Z; [reflexivity |].
    destruct (chosenAnnouncement p (map decorate preds)); [| reflexivity].
    destruct (now' - lastAnnouncementTime st <? 2000)%Z; reflexivity.
Qed.

Lemma X10_error_is_never_cleared_witness :
  exists msg,
    render (steps (loadModel exampleProps true true 5000 initialComponent)
              [Frame exampleProps true true None 6000 6000;
               Frame exampleProps true true (Some [nearPerson]) 9000 9000])
    = ErrorPanel msg.
Proof.
  pose proof (X10_error_is_never_cleared exampleProps true 6000 6000) as (H1 & H2 & _).
  specialize (H1 (loadModel exampleProps true true 5000 initialComponent) eq_refl eq_refl).
  destruct H1 as (H1 & _).
  apply (H2 (frameEffect exampleProps true true None 6000 6000
               (loadModel exampleProps true true 5000 initialComponent))
            [Frame exampleProps true true (Some [nearPerson]) 9000 9000]).
  - reflexivity.
  - exists "F"%char, "ailed to process image". exact H1.
Defined.

Lemma step_without_model (c : Component) (e : Event) :
  model c = false -> loads e = false ->
  model (step c e) = false /\
  detections (core (step c e)) = detections (core c) /\
  spoken (core (step c e)) = spoken (core c) /\
  lastAnnouncementTime (core (step c e)) = lastAnnouncementTime (core c) /\
  (isLoadModel e = true ->
   loading (step c e) = false /\
   error (core (step c e)) = Some "Failed to load the object detection model") /\
  (isLoadModel e = false -> step c e = c).
Proof.
  intros Hm He. destruct e as [p synth loaded now | p synth imageData predictions now now'];
    cbn [step loads isLoadModel] in *.
  - subst loaded. unfold loadModel. cbn. repeat split; try assumption; discriminate.
  - unfold frameEffect. rewrite Hm. rewrite orb_true_r.
    repeat split; try assumption; discriminate.
Qed.

(** X11.  Without a model nothing is detected and nothing is said: while
    no run of [loadModel] succeeds, frames leave the component as it is,
    so the list stays as it was, the speech engine receives nothing and
    the time stamp stays; and once a load has failed the component
    renders the alert "Failed to load the object detection model". *)
Theorem X11_nothing_without_model (c : Component) (l : list Event) :
  model c = false ->
  forallb (fun e => negb (loads e)) l = true ->
  model (steps c l) = false /\
  detections (core (steps c l)) = detections (core c) /\
  spoken (core (steps c l)) = spoken (core c) /\
  lastAnnouncementTime (core (steps c l)) = lastAnnouncementTime (core c) /\
  (existsb isLoadModel l = true ->
   render (steps c l) = ErrorPanel "Failed to load the object detection model") /\
  (existsb isLoadModel l = false -> steps c l = c).
Proof.
  revert c. induction l as [| e r IH]; intros c Hm Hl.
  - cbn. repeat split; try assumption; discriminate.
  - cbn [forallb] in Hl. apply andb_prop in Hl as [He Hr].
    apply negb_true_iff in He.
    destruct (step_without_model c e Hm He) as (S1 & S2 & S3 & S4 & S5 & S6).
    cbn [steps fold_left]. fold (steps (step c e) r).
    destruct (IH (step c e) S1 Hr) as (I1 & I2 & I3 & I4 & I5 & I6).
    rewrite I2, I3, I4, S2, S3, S4.
    split; [exact I1 |]. repeat split.
    + cbn [existsb]. intros Hx.
      destruct (existsb isLoadModel r) eqn:Er; [now apply I5 |].
      rewrite (I6 eq_refl). rewrite orb_false_r in Hx.
      destruct (S5 Hx) as [L E]. unfold render. now rewrite L, E.
    + cbn [existsb]. intros Hx. apply orb_false_elim in Hx as [Hx1 Hx2].
      rewrite (I6 Hx2). now apply S6.
Qed.

Lemma X11_nothing_without_model_witness :
  model (steps initialComponent
           [Frame exampleProps true true (Some [nearPerson]) 5000 5000;
            LoadModel exampleProps true false 6000;
            Frame exampleProps true true (Some [nearPerson]) 9000 9000]) = false /\
  spoken (core (steps initialComponent
           [Frame exampleProps true true (Some [nearPerson]) 5000 5000;
            LoadModel exampleProps true false 6000;
            Frame exampleProps true true (Some [nearPerson]) 9000 9000])) = [] /\
  render (steps initialComponent
           [Frame exampleProps true true (Some [nearPerson]) 5000 5000;
            LoadModel exampleProps true false 6000;
            Frame exampleProps true true (Some [nearPerson]) 9000 9000])
  = ErrorPanel "Failed to load the object detection model".
Proof.
  pose proof (X11_nothing_without_model initialComponent
           [Frame exampleProps true true (Some [nearPerson]) 5000 5000;
            LoadModel exampleProps true false 6000;
            Frame exampleProps true true (Some [nearPerson]) 9000 9000]
           eq_refl eq_refl) as (H1 & _ & H3 & _ & H5 & _).
  exact (conj H1 (conj H3 (H5 eq_refl))).
Defined.

(** ** The order of doubles and of their values *)

Module FloatOrder.

Local Open Scope Z_scope.

Lemma pow2_pos (e : Z) : (0 < 2 ^ e)%Q.
Proof. apply Qpower_0_lt. reflexivity. Qed.

Lemma val_scale (m e k : Z) : 0 <= k -> (val (m * 2 ^ k) e == val m (e + k))%Q.
Proof.
  intros Hk. unfold val.
  rewrite inject_Z_mult, Zpower_Qpower by assumption.
  rewrite Qpower_plus by discriminate.
  change (inject_Z 2) with 2%Q. ring.
Qed.

Lemma val_le (a b e : Z) : (val a e <= val b e)%Q <-> a <= b.
Proof.
  unfold val. pose proof (pow2_pos e) as H. rewrite Zle_Qle.
  split; intros L.
  - apply Qmult_le_r in L; assumption.
  - apply Qmult_le_r; assumption.
Qed.

Lemma val_lt (a b e : Z) : (val a e < val b e)%Q <-> a < b.
Proof.
  unfold val. pose proof (pow2_pos e) as H. rewrite Zlt_Qlt.
  split; intros L.
  - apply Qmult_lt_r in L; assumption.
  - apply Qmult_lt_r; assumption.
Qed.

Lemma val_pow (a e : Z) : 0 <= a -> (val (2 ^ a) e == 2 ^ (a + e))%Q.
Proof.
  intros Ha. unfold val. rewrite Zpower_Qpower by assumption.
  rewrite Qpower_plus by discriminate. reflexivity.
Qed.

(** Dropping the [k] low bits of [m]. *)
Lemma val_floor (m e k : Z) :
  0 <= k ->
  (val (m / 2 ^ k) (e + k) <= val m e)%Q /\ (val m e < val (m / 2 ^ k + 1) (e + k))%Q.
Proof.
  intros Hk. rewrite <- !val_scale by assumption. rewrite val_le, val_lt.
  assert (Hp : 0 < 2 ^ k) by (apply Z.pow_pos_nonneg; lia).
  pose proof (Z.div_mod m (2 ^ k) ltac:(lia)) as E.
  pose proof (Z.mod_pos_bound m (2 ^ k) Hp) as B.
  nia.
Qed.

(** A threshold [mc * 2^ec] with [mc < 2^53] lies below every value
    [m * 2^e] with [2^52 <= m] and [ec < e]. *)
Lemma val_small (mc ec m e : Z) :
  0 < mc < 2 ^ 53 -> 2 ^ 52 <= m -> ec < e -> (val mc ec < val m e)%Q.
Proof.
  intros Hc Hm He.
  apply Qlt_le_trans with (val (2 ^ 53) ec); [apply val_lt; lia |].
  apply Qle_trans with (val (2 ^ 52) e); [| apply val_le; lia].
  rewrite !val_pow by lia. apply Qpower_le_compat_l; [lia | discriminate].
Qed.

(** A multiple of [2^e] below [(m + 1) * 2^e] is at most [m * 2^e]. *)
Lemma val_integral_le (mc ec m e : Z) :
  e <= ec -> (val mc ec < val (m + 1) e)%Q -> (val mc ec <= val m e)%Q.
Proof.
  intros He H. replace ec with (e + (ec - e)) in * by lia.
  rewrite <- val_scale in * by lia. rewrite val_le. rewrite val_lt in H. lia.
Qed.

Lemma val_integral_ge (mc ec m e : Z) :
  e <= ec -> (val m e < val mc ec)%Q -> (val (m + 1) e <= val mc ec)%Q.
Proof.
  intros He H. replace ec with (e + (ec - e)) in * by lia.
  rewrite <- val_scale in * by lia. rewrite val_le. rewrite val_lt in H. lia.
Qed.

(** The round and sticky bits of a shifted record are clear when the
    bits shifted out are all zero. *)
Lemma shr_1_exact (mrs : shr_record) :
  0 <= shr_m mrs -> shr_r mrs = false -> shr_s mrs = false ->
  shr_m mrs mod 2 = 0 ->
  shr_r (shr_1 mrs) = false /\ shr_s (shr_1 mrs) = false.
Proof.
  destruct mrs as [m r s]. cbn [shr_m shr_r shr_s]. intros Hm -> -> Hmod.
  destruct m as [| [q | q |] | q]; cbn [shr_1 shr_r shr_s orb]; try lia; auto.
  - rewrite (Pos2Z.inj_xI q) in Hmod. exfalso.
    rewrite Z.add_comm, Z.mul_comm, Z.mod_add in Hmod by lia. discriminate.
  - discriminate.
Qed.

Lemma mod_mul_split (m a b : Z) :
  0 < a -> 0 < b -> m mod (a * b) = 0 -> m mod a = 0 /\ (m / a) mod b = 0.
Proof.
  intros Ha Hb H. apply Z.mod_divide in H; [| lia]. destruct H as [k ->].
  replace (k * (a * b)) with (k * b * a) by lia. split.
  - apply Z.mod_mul. lia.
  - rewrite Z.div_mul by lia. apply Z.mod_mul. lia.
Qed.

Lemma iter_shr_1_exact (n : positive) :
  forall mrs, 0 <= shr_m mrs -> shr_r mrs = false -> shr_s mrs = false ->
    shr_m mrs mod 2 ^ Zpos n = 0 ->
    shr_r (SpecFloat.iter_pos shr_1 n mrs) = false /\
    shr_s (SpecFloat.iter_pos shr_1 n mrs) = false.
Proof.
  induction n as [n IH | n IH |]; intros mrs Hm Hr Hs Hmod; cbn [SpecFloat.iter_pos].
  - assert (Hp : 0 < 2 ^ Zpos n) by (apply Z.pow_pos_nonneg; lia).
    rewrite (Pos2Z.inj_xI n) in Hmod.
    replace (2 * Zpos n + 1) with (1 + (Zpos n + Zpos n)) in Hmod by lia.
    rewrite Z.pow_add_r, Z.pow_add_r in Hmod by lia. change (2 ^ 1) with 2 in Hmod.
    destruct (mod_mul_split _ 2 (2 ^ Zpos n * 2 ^ Zpos n) ltac:(lia) ltac:(nia) Hmod)
      as [M1 M2].
    destruct (mod_mul_split _ _ _ Hp Hp M2) as [M3 M4].
    destruct (shr_1_exact mrs Hm Hr Hs M1) as [R0 S0].
    assert (G0 : 0 <= shr_m (shr_1 mrs)) by (rewrite shr_1_m by assumption; apply Z.div_pos; lia).
    rewrite <- (shr_1_m mrs Hm) in M3, M4.
    destruct (IH (shr_1 mrs) G0 R0 S0 M3) as [R1 S1].
    apply IH; try assumption.
    + rewrite iter_shr_1_m by assumption. apply Z.div_pos; lia.
    + now rewrite iter_shr_1_m by assumption.
  - assert (Hp : 0 < 2 ^ Zpos n) by (apply Z.pow_pos_nonneg; lia).
    rewrite (Pos2Z.inj_xO n) in Hmod.
    replace (2 * Zpos n) with (Zpos n + Zpos n) in Hmod by lia.
    rewrite Z.pow_add_r in Hmod by lia.
    destruct (mod_mul_split _ _ _ Hp Hp Hmod) as [M1 M2].
    destruct (IH mrs Hm Hr Hs M1) as [R1 S1].
    apply IH; try assumption.
    + rewrite iter_shr_1_m by assumption. apply Z.div_pos; lia.
    + now rewrite iter_shr_1_m by assumption.
  - apply shr_1_exact; try assumption.
Qed.


Lemma loc_of_exact (mrs : shr_record) :
  shr_r mrs = false -> shr_s mrs = false -> loc_of_shr_record mrs = loc_Exact.
Proof. destruct mrs as [m r s]. cbn. now intros -> ->. Qed.

(** What [shr_fexp] does to a positive mantissa: nothing, or a shift of
    [n] bits to the exponent [fexp (digits m + e)]; in the latter case the
    shifted mantissa has 53 digits unless the exponent is the least one. *)
Lemma shr_fexp_cases (m : positive) (e : Z) (l : location) :
  let r := shr_fexp prec emax (Zpos m) e l in
  (shr_m (fst r) = Zpos m /\ snd r = e /\
   loc_of_shr_record (fst r) = l) \/
  (exists n, 0 < n /\ shr_m (fst r) = Zpos m / 2 ^ n /\ snd r = e + n /\
     (snd r = emin64 \/ 2 ^ 52 <= shr_m (fst r)) /\
     (l = loc_Exact -> Zpos m mod 2 ^ n = 0 -> loc_of_shr_record (fst r) = loc_Exact)).
Proof.
  unfold shr_fexp, shr. rewrite fexp64. cbn [Zdigits2].
  pose proof (digits2_pos_bounds m) as [Hlo Hhi].
  destruct (Z.max (Zpos (digits2_pos m) + e - 53) emin64 - e) as [| n | n] eqn:Hn;
    cbn [fst snd].
  - left. rewrite shr_record_of_loc_m. repeat split. destruct l as [| []]; reflexivity.
  - right. exists (Zpos n). split; [lia |].
    rewrite iter_shr_1_m by (rewrite shr_record_of_loc_m; lia).
    rewrite shr_record_of_loc_m. split; [reflexivity |]. split; [reflexivity |]. split.
    + destruct (Z.max_spec (Zpos (digits2_pos m) + e - 53) emin64) as [[_ E] | [_ E]];
        [left; lia | right].
      assert (En : Zpos n = Zpos (digits2_pos m) - 53) by lia. rewrite En.
      apply Z.div_le_lower_bound; [apply Z.pow_pos_nonneg; lia |].
      rewrite <- Z.pow_add_r by lia.
      replace (Zpos (digits2_pos m) - 53 + 52) with (Zpos (digits2_pos m) - 1) by lia.
      exact Hlo.
    + intros -> Hmod.
      destruct (iter_shr_1_exact n (shr_record_of_loc (Zpos m) loc_Exact)) as [R S];
        try reflexivity; try assumption; [cbn; lia |].
      now apply loc_of_exact.
  - left. rewrite shr_record_of_loc_m. repeat split. destruct l as [| []]; reflexivity.
Qed.

(** A threshold below the value stays below the shifted value. *)
Lemma shr_fexp_lower (m : positive) (e : Z) (l : location) (mc ec : Z) :
  0 < mc < 2 ^ 53 -> emin64 <= ec ->
  (val mc ec <= val (Zpos m) e)%Q ->
  let r := shr_fexp prec emax (Zpos m) e l in
  (val mc ec <= val (shr_m (fst r)) (snd r))%Q.
Proof.
  intros Hc Hec H r.
  destruct (shr_fexp_cases m e l) as [(E1 & E2 & _) | (n & Hn & E1 & E2 & Hd & _)];
    fold r in E1, E2.
  - now rewrite E1, E2.
  - fold r in Hd. rewrite E2 in *. rewrite E1 in *.
    destruct (val_floor (Zpos m) e n ltac:(lia)) as [F1 F2].
    destruct (Z.le_gt_cases (e + n) ec) as [L | L].
    + apply val_integral_le; [assumption |]. eapply Qle_lt_trans; eassumption.
    + destruct Hd as [Hd | Hd]; [lia |]. apply Qlt_le_weak. now apply val_small.
Qed.


Lemma val_positive (m : positive) (e : Z) : (0 < val (Zpos m) e)%Q.
Proof.
  unfold val. apply Qmult_lt_0_compat; [| apply pow2_pos].
  change 0%Q with (inject_Z 0). rewrite <- Zlt_Qlt. lia.
Qed.

Lemma val_nonpos (m e : Z) : m <= 0 -> (val m e <= 0)%Q.
Proof.
  intros H. unfold val. pose proof (pow2_pos e) as Hp.
  assert (Hm : (inject_Z m <= 0)%Q) by (change 0%Q with (inject_Z 0); now rewrite <- Zle_Qle).
  nra.
Qed.

(** Rounding does not go below a threshold that the exact value reaches. *)
Lemma binary_round_aux_lower (m : positive) (e : Z) (l : location) (mc ec : Z) :
  0 < mc < 2 ^ 53 -> emin64 <= ec ->
  (val mc ec <= val (Zpos m) e)%Q ->
  atLeast (val mc ec) (binary_round_aux prec emax false (Zpos m) e l).
Proof.
  intros Hc Hec H. unfold binary_round_aux.
  pose proof (shr_fexp_lower m e l mc ec Hc Hec H) as H1. cbv zeta in H1.
  destruct (shr_fexp prec emax (Zpos m) e l) as [mrs' e'] eqn:E1. cbn [fst snd] in H1.
  pose proof (round_nearest_even_ge (shr_m mrs') (loc_of_shr_record mrs')) as Hr.
  set (m2 := round_nearest_even (shr_m mrs') (loc_of_shr_record mrs')) in *.
  assert (Hc0 : (0 < val mc ec)%Q).
  { destruct mc as [| q | q]; try lia. apply val_positive. }
  assert (H2 : (val mc ec <= val m2 e')%Q).
  { eapply Qle_trans; [exact H1 |]. now apply val_le. }
  destruct m2 as [| q2 | q2] eqn:Em2.
  - exfalso. pose proof (val_nonpos 0 e' ltac:(lia)). lra.
  - pose proof (shr_fexp_lower q2 e' loc_Exact mc ec Hc Hec H2) as H3. cbv zeta in H3.
    destruct (shr_fexp prec emax (Zpos q2) e' loc_Exact) as [mrs'' e''] eqn:E2.
    cbn [fst snd] in H3.
    destruct (shr_m mrs'') as [| q3 | q3].
    + exfalso. pose proof (val_nonpos 0 e'' ltac:(lia)). lra.
    + destruct (e'' <=? emax - prec); [exact H3 | exact I].
    + exfalso. pose proof (val_nonpos (Zneg q3) e'' ltac:(lia)). lra.
  - exfalso. pose proof (val_nonpos (Zneg q2) e' ltac:(lia)). lra.
Qed.


Lemma round_nearest_even_le m l : round_nearest_even m l <= m + 1.
Proof.
  destruct l as [| []]; cbn [round_nearest_even]; try lia.
  destruct (Z.even m); lia.
Qed.

Lemma shr_fexp_zero (e : Z) (l : location) :
  shr_m (fst (shr_fexp prec emax 0 e l)) = 0.
Proof.
  unfold shr_fexp, shr. destruct (fexp prec emax (Zdigits2 0 + e) - e) as [| n | n];
    cbn [fst]; rewrite ?shr_record_of_loc_m; try reflexivity.
  rewrite iter_shr_1_m by (rewrite shr_record_of_loc_m; lia).
  rewrite shr_record_of_loc_m. reflexivity.
Qed.

(** An exact value at most a threshold is rounded to at most the threshold. *)
Lemma shr_fexp_upper (m : positive) (e : Z) (mc ec : Z) :
  0 < mc < 2 ^ 53 -> emin64 <= ec ->
  (val (Zpos m) e <= val mc ec)%Q ->
  let r := shr_fexp prec emax (Zpos m) e loc_Exact in
  let m2 := round_nearest_even (shr_m (fst r)) (loc_of_shr_record (fst r)) in
  (val m2 (snd r) <= val mc ec)%Q /\ 0 <= m2 /\ (snd r = e \/ snd r <= ec).
Proof.
  intros Hc Hec H r m2.
  destruct (shr_fexp_cases m e loc_Exact) as [(E1 & E2 & E3) | (n & Hn & E1 & E2 & Hd & Hx)];
    fold r in E1, E2.
  - fold r in E3. subst m2. rewrite E1, E2, E3. cbn [round_nearest_even].
    split; [assumption |]. split; [lia | now left].
  - fold r in Hd.
    destruct (val_floor (Zpos m) e n ltac:(lia)) as [F1 F2].
    assert (Hm1 : 0 <= shr_m (fst r)) by (rewrite E1; apply Z.div_pos; [lia | apply Z.pow_pos_nonneg; lia]).
    pose proof (round_nearest_even_ge (shr_m (fst r)) (loc_of_shr_record (fst r))) as G.
    pose proof (round_nearest_even_le (shr_m (fst r)) (loc_of_shr_record (fst r))) as L.
    fold m2 in G, L.
    assert (He1 : snd r <= ec).
    { destruct Hd as [Hd | Hd]; [lia |].
      destruct (Z.le_gt_cases (snd r) ec) as [A | A]; [assumption | exfalso].
      pose proof (val_small mc ec (shr_m (fst r)) (snd r) Hc Hd A) as B.
      rewrite E1, E2 in B. lra. }
    split; [| split; [lia | now right]].
    destruct (Z.eq_dec (Zpos m mod 2 ^ n) 0) as [Ex | Ex].
    + (* nothing is lost by the shift *)
      assert (Hm2 : m2 = Zpos m / 2 ^ n).
      { subst m2. fold r in Hx. rewrite (Hx eq_refl Ex). cbn [round_nearest_even]. exact E1. }
      rewrite Hm2, E2. eapply Qle_trans; [exact F1 | exact H].
    + (* the value lies strictly between two multiples of the new unit *)
      assert (Hlt : (val (shr_m (fst r)) (snd r) < val mc ec)%Q).
      { rewrite E1, E2. eapply Qlt_le_trans; [| exact H].
        rewrite <- val_scale by lia. apply val_lt.
        pose proof (Z.div_mod (Zpos m) (2 ^ n) ltac:(apply Z.pow_nonzero; lia)) as D.
        pose proof (Z.mod_pos_bound (Zpos m) (2 ^ n) ltac:(apply Z.pow_pos_nonneg; lia)) as B.
        nia. }
      apply Qle_trans with (val (shr_m (fst r) + 1) (snd r)); [apply val_le; lia |].
      now apply val_integral_ge.
Qed.

Lemma binary_round_aux_upper (m : positive) (e : Z) (mc ec : Z) :
  0 < mc < 2 ^ 53 -> emin64 <= ec <= emax - prec -> e <= emax - prec ->
  (val (Zpos m) e <= val mc ec)%Q ->
  atMost (val mc ec) (binary_round_aux prec emax false (Zpos m) e loc_Exact).
Proof.
  intros Hc Hec He H. unfold binary_round_aux.
  pose proof (shr_fexp_upper m e mc ec Hc (proj1 Hec) H) as H1. cbv zeta in H1.
  destruct (shr_fexp prec emax (Zpos m) e loc_Exact) as [mrs' e'] eqn:E1. cbn [fst snd] in H1.
  set (m2 := round_nearest_even (shr_m mrs') (loc_of_shr_record mrs')) in *.
  destruct H1 as (H1 & H2 & H3).
  assert (He' : e' <= emax - prec) by (destruct H3; lia).
  destruct m2 as [| q2 | q2] eqn:Em2; try lia.
  - pose proof (shr_fexp_zero e' loc_Exact) as Z0.
    destruct (shr_fexp prec emax 0 e' loc_Exact) as [mrs'' e'']. cbn [fst] in Z0.
    rewrite Z0. exact I.
  - destruct (shr_fexp_cases q2 e' loc_Exact) as [(F1 & F2 & _) | (n & Hn & F1 & F2 & Hd & _)].
    + destruct (shr_fexp prec emax (Zpos q2) e' loc_Exact) as [mrs'' e''].
      cbn [fst snd] in F1, F2. rewrite F1, F2.
      apply Z.leb_le in He'. rewrite He'. exact H1.
    + destruct (val_floor (Zpos q2) e' n ltac:(lia)) as [G1 G2].
      destruct (shr_fexp prec emax (Zpos q2) e' loc_Exact) as [mrs'' e''].
      cbn [fst snd] in F1, F2, Hd.
      assert (Hle : (val (shr_m mrs'') e'' <= val mc ec)%Q).
      { rewrite F1, F2. eapply Qle_trans; [exact G1 | exact H1]. }
      destruct (shr_m mrs'') as [| q3 | q3] eqn:E3; [exact I | | ].
      * assert (He'' : e'' <= emax - prec).
        { destruct Hd as [Hd | Hd]; [change emin64 with (-1074) in Hd; cbn; lia |].
          destruct (Z.le_gt_cases e'' ec) as [A | A]; [lia | exfalso].
          pose proof (val_small mc ec (Zpos q3) e'' Hc Hd A). lra. }
        apply Z.leb_le in He''. rewrite He''. exact Hle.
      * exfalso.
        assert (0 <= Zpos q2 / 2 ^ n) by (apply Z.div_pos; [lia | apply Z.pow_pos_nonneg; lia]).
        lia.
Qed.


Lemma val_mul (a e b f : Z) : (val a e * val b f == val (a * b) (e + f))%Q.
Proof.
  unfold val. rewrite inject_Z_mult, Qpower_plus by discriminate. ring.
Qed.

Lemma atLeast_weaken (c c' : Q) (x : spec_float) :
  (c' <= c)%Q -> atLeast c x -> atLeast c' x.
Proof.
  destruct x as [[] | [] | | [] m e]; cbn [atLeast]; intros; try assumption; lra.
Qed.

Lemma atMost_weaken (c c' : Q) (x : spec_float) :
  (c <= c')%Q -> atMost c x -> atMost c' x.
Proof.
  destruct x as [[] | [] | | [] m e]; cbn [atMost]; intros; try assumption; lra.
Qed.

Lemma valid_bound s m e :
  valid_binary (S754_finite s m e) = true -> e <= emax - prec.
Proof.
  cbn [SpecFloat.valid_binary]. unfold bounded.
  intros H. apply andb_prop in H as [_ H]. now apply Z.leb_le in H.
Qed.

(** *** Products *)

Lemma SFmul_upper (x y : spec_float) (a b : Q) (mc ec : Z) :
  0 < mc < 2 ^ 53 -> emin64 <= ec <= emax - prec ->
  valid_binary x = true -> valid_binary y = true ->
  (0 <= a)%Q -> (0 <= b)%Q ->
  atMost a x -> atMost b y -> (a * b <= val mc ec)%Q ->
  atMost (val mc ec) (SF64mul x y).
Proof.
  intros Hc Hec Vx Vy Ha Hb Hx Hy Hab. unfold SF64mul.
  destruct x as [[] | [] | | [] mx ex]; try contradiction;
  destruct y as [[] | [] | | [] my ey]; try contradiction; cbn [SFmul xorb atMost]; try exact I.
  cbn [atMost] in Hx, Hy.
  change (Zpos mx * Zpos my) with (Zpos (mx * my)).
  pose proof (val_positive mx ex) as Px. pose proof (val_positive my ey) as Py.
  apply binary_round_aux_upper; try assumption.
  - (* were the exponent large, both mantissas would have 53 digits *)
    destruct (Z.le_gt_cases (ex + ey) (emax - prec)) as [L | L]; [assumption | exfalso].
    pose proof (valid_finite _ _ _ Vx) as Cx. pose proof (valid_finite _ _ _ Vy) as Cy.
    pose proof (valid_bound _ _ _ Vx) as Bx. pose proof (valid_bound _ _ _ Vy) as By.
    pose proof (digits2_pos_bounds mx) as [Lx _].
    pose proof (digits2_pos_bounds my) as [Ly _].
    change (emax - prec) with 971 in *.
    assert (Dx : Zpos (digits2_pos mx) = 53) by lia.
    assert (Dy : Zpos (digits2_pos my) = 53) by lia.
    rewrite Dx in Lx. rewrite Dy in Ly. change (53 - 1) with 52 in Lx, Ly.
    assert (B : (val (Zpos mx) ex * val (Zpos my) ey <= val mc ec)%Q) by nra.
    assert (B2 : (val mc ec < val (Zpos mx) ex * val (Zpos my) ey)%Q).
    { rewrite val_mul.
      apply Qlt_le_trans with (val (2 ^ 53) ec); [apply val_lt; lia |].
      apply Qle_trans with (val (2 ^ 104) (ex + ey)).
      - rewrite !val_pow by lia. apply Qpower_le_compat_l; [lia | discriminate].
      - apply val_le. change (2 ^ 104) with (2 ^ 52 * 2 ^ 52). nia. }
    lra.
  - rewrite Pos2Z.inj_mul, <- val_mul. nra.
Qed.


Lemma SFmul_lower (x y : spec_float) (a b : Q) (mc ec : Z) :
  0 < mc < 2 ^ 53 -> emin64 <= ec ->
  (0 < a)%Q -> (0 < b)%Q ->
  atLeast a x -> atLeast b y -> (val mc ec <= a * b)%Q ->
  atLeast (val mc ec) (SF64mul x y).
Proof.
  intros Hc Hec Ha Hb Hx Hy Hab. unfold SF64mul.
  destruct x as [[] | [] | | [] mx ex]; try contradiction;
  destruct y as [[] | [] | | [] my ey]; try contradiction; cbn [SFmul xorb atLeast]; try exact I.
  cbn [atLeast] in Hx, Hy.
  change (Zpos mx * Zpos my) with (Zpos (mx * my)).
  apply binary_round_aux_lower; try assumption.
  rewrite Pos2Z.inj_mul, <- val_mul. nra.
Qed.

(** *** Quotients *)

Lemma SFdiv_core_lower (mx my : positive) (ex ey mc ec : Z) :
  0 < mc < 2 ^ 53 -> emin64 <= ec ->
  (val mc ec * val (Zpos my) ey <= val (Zpos mx) ex)%Q ->
  exists q e' l,
    SFdiv_core_binary prec emax (Zpos mx) ex (Zpos my) ey = (Zpos q, e', l) /\
    (val mc ec <= val (Zpos q) e')%Q.
Proof.
  intros Hc Hec H. unfold SFdiv_core_binary. cbn [Zdigits2].
  pose proof (digits2_pos_bounds mx) as [Lx Ux].
  pose proof (digits2_pos_bounds my) as [Ly Uy].
  set (d1 := Zpos (digits2_pos mx)) in *. set (d2 := Zpos (digits2_pos my)) in *.
  assert (Hd1 : 0 < d1) by (subst d1; lia). assert (Hd2 : 0 < d2) by (subst d2; lia).
  rewrite fexp64.
  set (e' := Z.min (Z.max (d1 + ex - (d2 + ey) - 53) emin64) (ex - ey)).
  set (s := ex - ey - e').
  assert (Hs : 0 <= s) by (subst s e'; lia).
  set (m' := match s with 0 => Zpos mx | Zpos _ => Z.shiftl (Zpos mx) s | Zneg _ => 0 end).
  assert (Hm' : m' = Zpos mx * 2 ^ s).
  { subst m'. destruct s as [| p | p] eqn:Es; try lia.
    apply Z.shiftl_mul_pow2. lia. }
  pose proof (Z_div_mod m' (Zpos my) ltac:(lia)) as D.
  destruct (Z.div_eucl m' (Zpos my)) as [q r]. destruct D as [D1 D2].
  assert (Hp : 0 < 2 ^ s) by (apply Z.pow_pos_nonneg; lia).
  assert (Hq0 : 0 <= q) by nia.
  (* the threshold is below [(q + 1) * 2^e'] *)
  assert (Hlt : (val mc ec < val (q + 1) e')%Q).
  { pose proof (val_positive my ey) as Py.
    apply Qmult_lt_r with (z := val (Zpos my) ey); [exact Py |].
    eapply Qle_lt_trans; [exact H |].
    rewrite val_mul.
    replace ex with (e' + ey + s) by (subst s; lia).
    rewrite <- val_scale by lia. apply val_lt. nia. }
  assert (Hle : (val mc ec <= val q e')%Q).
  { destruct (Z.le_gt_cases e' ec) as [L | L]; [now apply val_integral_le |].
    apply Qlt_le_weak. apply val_small; try assumption.
    (* the quotient has at least 53 digits *)
    assert (E1 : e' <= d1 + ex - (d2 + ey) - 53) by (subst e'; lia).
    assert (S1 : 53 - d1 + d2 <= s) by (subst s; lia).
    assert (P1 : 2 ^ (52 + d2) <= m').
    { rewrite Hm'. apply Z.le_trans with (2 ^ (d1 - 1 + s)).
      - apply Z.pow_le_mono_r; lia.
      - rewrite Z.pow_add_r by lia. nia. }
    rewrite Z.pow_add_r in P1 by lia.
    assert (0 < 2 ^ 52) by reflexivity.
    nia. }
  assert (Hc0 : (0 < val mc ec)%Q) by (destruct mc; try lia; apply val_positive).
  destruct q as [| q | q]; try lia.
  - exfalso. pose proof (val_nonpos 0 e' ltac:(lia)). lra.
  - eauto.
Qed.

Lemma SFdiv_lower (x y : spec_float) (a b : Q) (mc ec : Z) :
  0 < mc < 2 ^ 53 -> emin64 <= ec ->
  (0 < a)%Q -> (0 <= b)%Q ->
  atLeast a x -> atMost b y -> (val mc ec * b <= a)%Q ->
  atLeast (val mc ec) (SF64div x y).
Proof.
  intros Hc Hec Ha Hb Hx Hy Hab. unfold SF64div.
  destruct x as [[] | [] | | [] mx ex]; try contradiction;
  destruct y as [[] | [] | | [] my ey]; try contradiction; cbn [SFdiv xorb atLeast]; try exact I.
  cbn [atLeast atMost] in Hx, Hy.
  assert (Hc0 : (0 < val mc ec)%Q) by (destruct mc; try lia; apply val_positive).
  destruct (SFdiv_core_lower mx my ex ey mc ec Hc Hec) as (q & e' & l & E & Hq).
  { pose proof (val_positive my ey). nra. }
  rewrite E. now apply binary_round_aux_lower.
Qed.


(** *** Square roots *)

Lemma SFsqrt_core_lower (mx : positive) (ex mc ec : Z) :
  0 < mc < 2 ^ 53 -> emin64 <= ec ->
  (val mc ec * val mc ec <= val (Zpos mx) ex)%Q ->
  exists q e' l,
    SFsqrt_core_binary prec emax (Zpos mx) ex = (Zpos q, e', l) /\
    (val mc ec <= val (Zpos q) e')%Q.
Proof.
  intros Hc Hec H. unfold SFsqrt_core_binary. cbn [Zdigits2].
  pose proof (digits2_pos_bounds mx) as [Lx Ux].
  set (d := Zpos (digits2_pos mx)) in *.
  assert (Hd : 0 < d) by (subst d; lia).
  rewrite fexp64, !Z.div2_div.
  set (e' := Z.min (Z.max ((d + ex + 1) / 2 - 53) emin64) (ex / 2)).
  set (s := ex - 2 * e').
  pose proof (Z.div_mod ex 2 ltac:(lia)) as Dm.
  pose proof (Z.mod_pos_bound ex 2 ltac:(lia)) as Bm.
  pose proof (Z.div_mod (d + ex + 1) 2 ltac:(lia)) as Dm2.
  pose proof (Z.mod_pos_bound (d + ex + 1) 2 ltac:(lia)) as Bm2.
  assert (Hs : 0 <= s) by (subst s e'; lia).
  set (m' := match s with 0 => Zpos mx | Zpos _ => Z.shiftl (Zpos mx) s | Zneg _ => 0 end).
  assert (Hm' : m' = Zpos mx * 2 ^ s).
  { subst m'. destruct s as [| p | p] eqn:Es; try lia.
    apply Z.shiftl_mul_pow2. lia. }
  assert (Hp : 0 < 2 ^ s) by (apply Z.pow_pos_nonneg; lia).
  pose proof (Z.sqrtrem_spec m' ltac:(nia)) as D.
  destruct (Z.sqrtrem m') as [q r]. destruct D as [D1 D2].
  assert (Hq0 : 0 <= q) by lia.
  assert (Hc0 : (0 < val mc ec)%Q) by (destruct mc; try lia; apply val_positive).
  assert (Hlt : (val mc ec < val (q + 1) e')%Q).
  { assert (Pq : (0 < val (q + 1) e')%Q).
    { destruct (q + 1) as [| p | p] eqn:Eq; try lia. apply val_positive. }
    assert (Hsq : (val (Zpos mx) ex < val (q + 1) e' * val (q + 1) e')%Q).
    { rewrite val_mul. replace ex with (e' + e' + s) by (subst s; lia).
      rewrite <- val_scale by lia. apply val_lt. nia. }
    nra. }
  assert (Hle : (val mc ec <= val q e')%Q).
  { destruct (Z.le_gt_cases e' ec) as [L | L]; [now apply val_integral_le |].
    apply Qlt_le_weak. apply val_small; try assumption.
    assert (E1 : e' <= (d + ex + 1) / 2 - 53) by (subst e'; lia).
    assert (S1 : 105 - d <= s) by (subst s; lia).
    assert (P1 : 2 ^ 104 <= m').
    { rewrite Hm'. apply Z.le_trans with (2 ^ (d - 1 + s)).
      - apply Z.pow_le_mono_r; lia.
      - rewrite Z.pow_add_r by lia. nia. }
    change (2 ^ 104) with (2 ^ 52 * 2 ^ 52) in P1.
    assert (0 < 2 ^ 52) by reflexivity. nia. }
  destruct q as [| q | q]; try lia.
  destruct (r =? 0); eauto.
Qed.

Lemma SFsqrt_lower (x : spec_float) (a : Q) (mc ec : Z) :
  0 < mc < 2 ^ 53 -> emin64 <= ec ->
  atLeast a x -> (val mc ec * val mc ec <= a)%Q ->
  atLeast (val mc ec) (SF64sqrt x).
Proof.
  intros Hc Hec Hx Ha. unfold SF64sqrt.
  destruct x as [[] | [] | | [] mx ex]; try contradiction; cbn [SFsqrt atLeast]; try exact I.
  cbn [atLeast] in Hx.
  destruct (SFsqrt_core_lower mx ex mc ec Hc Hec) as (q & e' & l & E & Hq); [lra |].
  rewrite E. now apply binary_round_aux_lower.
Qed.


(** *** Sums *)

Lemma shl_align_val (mx : positive) (ex ez : Z) :
  (val (Zpos (fst (shl_align mx ex ez))) (snd (shl_align mx ex ez)) == val (Zpos mx) ex)%Q.
Proof.
  unfold shl_align. destruct (ez - ex) as [| d | d] eqn:Hd; cbn [fst snd]; try reflexivity.
  unfold shift_pos. rewrite iter_xO_pow.
  rewrite val_scale by lia. replace (ez + Zpos d) with ex by lia. reflexivity.
Qed.

Lemma binary_round_lower (m : positive) (e mc ec : Z) :
  0 < mc < 2 ^ 53 -> emin64 <= ec ->
  (val mc ec <= val (Zpos m) e)%Q ->
  atLeast (val mc ec) (binary_round prec emax false m e).
Proof.
  intros Hc Hec H. unfold binary_round.
  pose proof (shl_align_val m e (fexp prec emax (Zpos (digits2_pos m) + e))) as V.
  destruct (shl_align m e _) as [mz ez]. cbn [fst snd] in V.
  apply binary_round_aux_lower; try assumption. now rewrite V.
Qed.

Lemma val_add (a b e : Z) : (val a e + val b e == val (a + b) e)%Q.
Proof. unfold val. rewrite inject_Z_plus. ring. Qed.

Lemma SFadd_lower (x y : spec_float) (mc ec : Z) :
  0 < mc < 2 ^ 53 -> emin64 <= ec ->
  (atLeast (val mc ec) x /\ nonNegative y) \/ (nonNegative x /\ atLeast (val mc ec) y) ->
  atLeast (val mc ec) (SF64add x y).
Proof.
  intros Hc Hec H. unfold SF64add.
  destruct x as [[] | [] | | [] mx ex]; destruct y as [[] | [] | | [] my ey];
    cbn [atLeast nonNegative] in H; try tauto; cbn [SFadd atLeast]; try tauto.
  cbn [cond_Zopp].
  assert (L1 : Z.min ex ey <= ex) by lia. assert (L2 : Z.min ex ey <= ey) by lia.
  rewrite (shl_align_fst mx ex _ L1), (shl_align_fst my ey _ L2).
  pose proof (val_positive mx ex) as Px. pose proof (val_positive my ey) as Py.
  assert (Vx : (val (Zpos mx * 2 ^ (ex - Z.min ex ey)) (Z.min ex ey) == val (Zpos mx) ex)%Q).
  { rewrite val_scale by lia. replace (Z.min ex ey + (ex - Z.min ex ey)) with ex by lia.
    reflexivity. }
  assert (Vy : (val (Zpos my * 2 ^ (ey - Z.min ex ey)) (Z.min ex ey) == val (Zpos my) ey)%Q).
  { rewrite val_scale by lia. replace (Z.min ex ey + (ey - Z.min ex ey)) with ey by lia.
    reflexivity. }
  set (a := Zpos mx * 2 ^ (ex - Z.min ex ey)) in *.
  set (b := Zpos my * 2 ^ (ey - Z.min ex ey)) in *.
  assert (Ha : 0 < a) by (subst a; apply Z.mul_pos_pos; [lia | apply Z.pow_pos_nonneg; lia]).
  assert (Hb : 0 < b) by (subst b; apply Z.mul_pos_pos; [lia | apply Z.pow_pos_nonneg; lia]).
  pose proof (val_add a b (Z.min ex ey)) as S.
  destruct (a + b) as [| q | q] eqn:Eq; try lia. cbn [binary_normalize].
  apply binary_round_lower; try assumption.
  rewrite <- S, Vx, Vy. destruct H as [[H _] | [_ H]]; lra.
Qed.

(** *** Results that are not [NaN] *)

Lemma shr_fexp_nonneg (m e : Z) (l : location) :
  0 <= m -> 0 <= shr_m (fst (shr_fexp prec emax m e l)).
Proof.
  intros Hm. unfold shr_fexp, shr.
  destruct (fexp prec emax (Zdigits2 m + e) - e) as [| n | n]; cbn [fst];
    rewrite ?shr_record_of_loc_m; try assumption.
  rewrite iter_shr_1_m by (rewrite shr_record_of_loc_m; lia).
  rewrite shr_record_of_loc_m. apply Z.div_pos; [assumption | apply Z.pow_pos_nonneg; lia].
Qed.

Lemma binary_round_aux_nonNegative (m e : Z) (l : location) :
  0 <= m -> nonNegative (binary_round_aux prec emax false m e l).
Proof.
  intros Hm. unfold binary_round_aux.
  pose proof (shr_fexp_nonneg m e l Hm) as H1.
  destruct (shr_fexp prec emax m e l) as [mrs' e']. cbn [fst] in H1.
  pose proof (round_nearest_even_ge (shr_m mrs') (loc_of_shr_record mrs')) as Hr.
  pose proof (shr_fexp_nonneg (round_nearest_even (shr_m mrs') (loc_of_shr_record mrs')) e'
                loc_Exact ltac:(lia)) as H2.
  destruct (shr_fexp prec emax _ e' loc_Exact) as [mrs'' e'']. cbn [fst] in H2.
  destruct (shr_m mrs'') as [| q | q]; try lia; [exact I |].
  destruct (e'' <=? emax - prec); exact I.
Qed.

Lemma SFdiv_nonNegative (x : spec_float) (my : positive) (ey : Z) :
  nonNegative x -> nonNegative (SF64div x (S754_finite false my ey)).
Proof.
  unfold SF64div.
  destruct x as [[] | [] | | [] m e]; cbn [SFdiv xorb nonNegative]; intros H;
    try exact I; try contradiction.
  unfold SFdiv_core_binary. cbn [Zdigits2].
  set (s := e - ey - _).
  set (m' := match s with 0 => Zpos m | Zpos _ => Z.shiftl (Zpos m) s | Zneg _ => 0 end).
  assert (Hm' : 0 <= m').
  { subst m'. destruct s; try lia. apply Z.shiftl_nonneg. lia. }
  pose proof (Z_div_mod m' (Zpos my) ltac:(lia)) as D.
  destruct (Z.div_eucl m' (Zpos my)) as [q r]. destruct D as [D1 D2].
  apply binary_round_aux_nonNegative. nia.
Qed.


(** *** Bounds from above for values that are not exact *)

(** Whatever the location, a value below a threshold is rounded to at
    most the threshold. *)
Lemma shr_fexp_upper_located (m : Z) (e : Z) (l : location) (mc ec : Z) :
  0 <= m -> 0 < mc < 2 ^ 53 -> emin64 <= ec ->
  (val (m + 1) e <= val mc ec)%Q ->
  let r := shr_fexp prec emax m e l in
  let m2 := round_nearest_even (shr_m (fst r)) (loc_of_shr_record (fst r)) in
  (val m2 (snd r) <= val mc ec)%Q /\ 0 <= m2 /\ (snd r = e \/ snd r <= ec).
Proof.
  intros Hm Hc Hec H r m2.
  pose proof (round_nearest_even_ge (shr_m (fst r)) (loc_of_shr_record (fst r))) as G.
  pose proof (round_nearest_even_le (shr_m (fst r)) (loc_of_shr_record (fst r))) as L.
  fold m2 in G, L.
  destruct m as [| m | m]; try lia.
  - (* a zero mantissa stays zero *)
    pose proof (shr_fexp_zero e l) as Z0. fold r in Z0. rewrite Z0 in G, L.
    assert (Hs : snd r = e \/ snd r = emin64).
    { subst r. unfold shr_fexp, shr. rewrite fexp64. cbn [Zdigits2].
      destruct (Z.max (0 + e - 53) emin64 - e) as [| n | n] eqn:En; cbn [snd]; [auto | | auto].
      right. lia. }
    split; [| split; [lia | destruct Hs; [now left | right; lia]]].
    destruct Hs as [Hs | Hs]; rewrite Hs.
    + eapply Qle_trans; [| exact H]. apply val_le. lia.
    + apply Qle_trans with (val 1 emin64); [apply val_le; lia |].
      apply Qle_trans with (val 1 ec).
      * change 1 with (2 ^ 0). rewrite !val_pow by lia.
        apply Qpower_le_compat_l; [lia | discriminate].
      * apply val_le. lia.
  - destruct (shr_fexp_cases m e l) as [(E1 & E2 & _) | (n & Hn & E1 & E2 & Hd & _)];
      fold r in E1, E2.
    + rewrite E1 in G, L. rewrite E2.
      split; [| split; [lia | now left]].
      eapply Qle_trans; [| exact H]. apply val_le. lia.
    + fold r in Hd.
      destruct (val_floor (Zpos m) e n ltac:(lia)) as [F1 F2].
      assert (Hm1 : 0 <= shr_m (fst r))
        by (rewrite E1; apply Z.div_pos; [lia | apply Z.pow_pos_nonneg; lia]).
      assert (Hlt : (val (shr_m (fst r)) (snd r) < val mc ec)%Q).
      { rewrite E1, E2. eapply Qle_lt_trans; [exact F1 |].
        eapply Qlt_le_trans; [| exact H]. apply val_lt. lia. }
      assert (He1 : snd r <= ec).
      { destruct Hd as [Hd | Hd]; [lia |].
        destruct (Z.le_gt_cases (snd r) ec) as [A | A]; [assumption | exfalso].
        pose proof (val_small mc ec (shr_m (fst r)) (snd r) Hc Hd A) as B. lra. }
      split; [| split; [lia | now right]].
      apply Qle_trans with (val (shr_m (fst r) + 1) (snd r)); [apply val_le; lia |].
      now apply val_integral_ge.
Qed.

(** The second half of [binary_round_aux]: a mantissa of value at most a
    threshold gives a double at most the threshold. *)
Lemma binary_round_aux_finish (m2 e' : Z) (mc ec : Z) :
  0 <= m2 -> 0 < mc < 2 ^ 53 -> emin64 <= ec <= emax - prec -> e' <= emax - prec ->
  (val m2 e' <= val mc ec)%Q ->
  atMost (val mc ec)
    (let '(mrs'', e'') := shr_fexp prec emax m2 e' loc_Exact in
     match shr_m mrs'' with
     | 0 => S754_zero false
     | Zpos m => if e'' <=? emax - prec then S754_finite false m e'' else S754_infinity false
     | Zneg _ => S754_nan
     end).
Proof.
  intros H2 Hc Hec He' H1.
  destruct m2 as [| q2 | q2]; try lia.
  - pose proof (shr_fexp_zero e' loc_Exact) as Z0.
    destruct (shr_fexp prec emax 0 e' loc_Exact) as [mrs'' e'']. cbn [fst] in Z0.
    rewrite Z0. exact I.
  - destruct (shr_fexp_cases q2 e' loc_Exact) as [(F1 & F2 & _) | (n & Hn & F1 & F2 & Hd & _)].
    + destruct (shr_fexp prec emax (Zpos q2) e' loc_Exact) as [mrs'' e''].
      cbn [fst snd] in F1, F2. rewrite F1, F2.
      apply Z.leb_le in He'. rewrite He'. exact H1.
    + destruct (val_floor (Zpos q2) e' n ltac:(lia)) as [G1 G2].
      destruct (shr_fexp prec emax (Zpos q2) e' loc_Exact) as [mrs'' e''].
      cbn [fst snd] in F1, F2, Hd.
      assert (Hle : (val (shr_m mrs'') e'' <= val mc ec)%Q).
      { rewrite F1, F2. eapply Qle_trans; [exact G1 | exact H1]. }
      destruct (shr_m mrs'') as [| q3 | q3] eqn:E3; [exact I | | ].
      * assert (He'' : e'' <= emax - prec).
        { destruct Hd as [Hd | Hd]; [change emin64 with (-1074) in Hd; cbn; lia |].
          destruct (Z.le_gt_cases e'' ec) as [A | A]; [lia | exfalso].
          pose proof (val_small mc ec (Zpos q3) e'' Hc Hd A). lra. }
        apply Z.leb_le in He''. rewrite He''. exact Hle.
      * exfalso.
        assert (0 <= Zpos q2 / 2 ^ n) by (apply Z.div_pos; [lia | apply Z.pow_pos_nonneg; lia]).
        lia.
Qed.

Lemma binary_round_aux_upper_located (m e : Z) (l : location) (mc ec : Z) :
  0 <= m -> 0 < mc < 2 ^ 53 -> emin64 <= ec <= emax - prec -> e <= emax - prec ->
  (val (m + 1) e <= val mc ec)%Q ->
  atMost (val mc ec) (binary_round_aux prec emax false m e l).
Proof.
  intros Hm Hc Hec He H. unfold binary_round_aux.
  pose proof (shr_fexp_upper_located m e l mc ec Hm Hc (proj1 Hec) H) as H1. cbv zeta in H1.
  destruct (shr_fexp prec emax m e l) as [mrs' e'] eqn:E1. cbn [fst snd] in H1.
  destruct H1 as (H1 & H2 & H3).
  apply binary_round_aux_finish; try assumption. destruct H3; lia.
Qed.


(** *** Quotients, from above *)

(** The quotient [q], its exponent [e'] and the remainder [r] that
    [SFdiv_core_binary] computes. *)
Lemma SFdiv_core_facts (mx my : positive) (ex ey : Z) :
  exists q e' r,
    SFdiv_core_binary prec emax (Zpos mx) ex (Zpos my) ey
    = (q, e', new_location (Zpos my) r) /\
    0 <= q /\ 0 <= r < Zpos my /\
    (val (Zpos mx) ex == val (q * Zpos my + r) (e' + ey))%Q /\
    (emin64 < e' -> 2 ^ 52 <= q).
Proof.
  unfold SFdiv_core_binary. cbn [Zdigits2].
  pose proof (digits2_pos_bounds mx) as [Lx Ux].
  pose proof (digits2_pos_bounds my) as [Ly Uy].
  set (d1 := Zpos (digits2_pos mx)) in *. set (d2 := Zpos (digits2_pos my)) in *.
  assert (Hd1 : 0 < d1) by (subst d1; lia). assert (Hd2 : 0 < d2) by (subst d2; lia).
  rewrite fexp64.
  set (e' := Z.min (Z.max (d1 + ex - (d2 + ey) - 53) emin64) (ex - ey)).
  set (s := ex - ey - e').
  assert (Hs : 0 <= s) by (subst s e'; lia).
  set (m' := match s with 0 => Zpos mx | Zpos _ => Z.shiftl (Zpos mx) s | Zneg _ => 0 end).
  assert (Hm' : m' = Zpos mx * 2 ^ s).
  { subst m'. destruct s as [| p | p] eqn:Es; try lia.
    apply Z.shiftl_mul_pow2. lia. }
  pose proof (Z_div_mod m' (Zpos my) ltac:(lia)) as D.
  destruct (Z.div_eucl m' (Zpos my)) as [q r]. destruct D as [D1 D2].
  assert (Hp : 0 < 2 ^ s) by (apply Z.pow_pos_nonneg; lia).
  assert (Hq0 : 0 <= q) by nia.
  exists q, e', r. split; [reflexivity |]. split; [assumption |]. split; [assumption |].
  split.
  - replace (q * Zpos my + r) with m' by lia. rewrite Hm'.
    rewrite val_scale by lia. replace (e' + ey + s) with ex by (subst s; lia). reflexivity.
  - intros He.
    assert (E1 : e' <= d1 + ex - (d2 + ey) - 53) by (subst e'; lia).
    assert (S1 : 53 - d1 + d2 <= s) by (subst s; lia).
    assert (P1 : 2 ^ (52 + d2) <= m').
    { rewrite Hm'. apply Z.le_trans with (2 ^ (d1 - 1 + s)).
      - apply Z.pow_le_mono_r; lia.
      - rewrite Z.pow_add_r by lia. nia. }
    rewrite Z.pow_add_r in P1 by lia.
    assert (0 < 2 ^ 52) by reflexivity.
    nia.
Qed.

Lemma new_location_exact (n : Z) : new_location n 0 = loc_Exact.
Proof. unfold new_location. destruct (Z.even n); reflexivity. Qed.

Lemma SFdiv_upper (x y : spec_float) (a b : Q) (mc ec : Z) :
  0 < mc < 2 ^ 53 -> emin64 <= ec <= emax - prec ->
  (0 < b)%Q ->
  atMost a x -> atLeast b y -> (a <= val mc ec * b)%Q ->
  atMost (val mc ec) (SF64div x y).
Proof.
  intros Hc Hec Hb Hx Hy Hab. unfold SF64div.
  destruct x as [[] | [] | | [] mx ex]; try contradiction;
  destruct y as [[] | [] | | [] my ey]; try contradiction; cbn [SFdiv xorb atMost]; try exact I.
  cbn [atLeast atMost] in Hx, Hy.
  assert (Hc0 : (0 < val mc ec)%Q) by (destruct mc; try lia; apply val_positive).
  pose proof (val_positive my ey) as Py.
  destruct (SFdiv_core_facts mx my ex ey) as (q & e' & r & E & Hq & Hr & Hv & Hd).
  rewrite E.
  (* the exact quotient is at most the threshold *)
  assert (Hle : (val (q * Zpos my + r) (e' + ey) <= val mc ec * val (Zpos my) ey)%Q)
    by (rewrite <- Hv; nra).
  assert (Hq1 : (val q e' <= val mc ec)%Q).
  { apply Qmult_le_r with (z := val (Zpos my) ey); [exact Py |].
    eapply Qle_trans; [| exact Hle]. rewrite val_mul. apply val_le. nia. }
  assert (He' : e' <= emax - prec).
  { destruct (Z.le_gt_cases e' ec) as [A | A]; [lia | exfalso].
    pose proof (val_small mc ec q e' Hc (Hd ltac:(lia)) A). lra. }
  destruct (Z.eq_dec r 0) as [-> | Hr0].
  - rewrite new_location_exact.
    destruct q as [| q | q]; try lia.
    + exfalso. rewrite Z.mul_0_l, Z.add_0_r in Hv.
      pose proof (val_positive mx ex). pose proof (val_nonpos 0 (e' + ey) ltac:(lia)). lra.
    + now apply binary_round_aux_upper.
  - apply binary_round_aux_upper_located; try assumption.
    assert (Hlt : (val q e' < val mc ec)%Q).
    { apply Qmult_lt_r with (z := val (Zpos my) ey); [exact Py |].
      eapply Qlt_le_trans; [| exact Hle]. rewrite val_mul. apply val_lt. nia. }
    destruct (Z.le_gt_cases e' ec) as [A | A]; [now apply val_integral_ge | exfalso].
    pose proof (val_small mc ec q e' Hc (Hd ltac:(lia)) A). lra.
Qed.


(** *** Square roots, from above *)

Lemma SFsqrt_core_facts (mx : positive) (ex : Z) :
  exists q e' r,
    SFsqrt_core_binary prec emax (Zpos mx) ex
    = (q, e', if r =? 0 then loc_Exact
              else loc_Inexact (if r <=? q then Lt else Gt)) /\
    0 < q /\ 0 <= r <= 2 * q /\
    (val (Zpos mx) ex == val (q * q + r) (e' + e'))%Q /\
    (emin64 < e' -> 2 ^ 52 <= q).
Proof.
  unfold SFsqrt_core_binary. cbn [Zdigits2].
  pose proof (digits2_pos_bounds mx) as [Lx Ux].
  set (d := Zpos (digits2_pos mx)) in *.
  assert (Hd : 0 < d) by (subst d; lia).
  rewrite fexp64, !Z.div2_div.
  set (e' := Z.min (Z.max ((d + ex + 1) / 2 - 53) emin64) (ex / 2)).
  set (s := ex - 2 * e').
  pose proof (Z.div_mod ex 2 ltac:(lia)) as Dm.
  pose proof (Z.mod_pos_bound ex 2 ltac:(lia)) as Bm.
  pose proof (Z.div_mod (d + ex + 1) 2 ltac:(lia)) as Dm2.
  pose proof (Z.mod_pos_bound (d + ex + 1) 2 ltac:(lia)) as Bm2.
  assert (Hs : 0 <= s) by (subst s e'; lia).
  set (m' := match s with 0 => Zpos mx | Zpos _ => Z.shiftl (Zpos mx) s | Zneg _ => 0 end).
  assert (Hm' : m' = Zpos mx * 2 ^ s).
  { subst m'. destruct s as [| p | p] eqn:Es; try lia.
    apply Z.shiftl_mul_pow2. lia. }
  assert (Hp : 0 < 2 ^ s) by (apply Z.pow_pos_nonneg; lia).
  pose proof (Z.sqrtrem_spec m' ltac:(nia)) as D.
  destruct (Z.sqrtrem m') as [q r]. destruct D as [D1 D2].
  exists q, e', r. split; [reflexivity |]. split; [nia |]. split; [assumption |]. split.
  - rewrite <- D1, Hm'. rewrite val_scale by lia.
    replace (e' + e' + s) with ex by (subst s; lia). reflexivity.
  - intros He.
    assert (E1 : e' <= (d + ex + 1) / 2 - 53) by (subst e'; lia).
    assert (S1 : 105 - d <= s) by (subst s; lia).
    assert (P1 : 2 ^ 104 <= m').
    { rewrite Hm'. apply Z.le_trans with (2 ^ (d - 1 + s)).
      - apply Z.pow_le_mono_r; lia.
      - rewrite Z.pow_add_r by lia. nia. }
    change (2 ^ 104) with (2 ^ 52 * 2 ^ 52) in P1.
    assert (0 < 2 ^ 52) by reflexivity. nia.
Qed.

Lemma SFsqrt_upper (x : spec_float) (a : Q) (mc ec : Z) :
  0 < mc < 2 ^ 53 -> emin64 <= ec <= emax - prec ->
  atMost a x -> (a <= val mc ec * val mc ec)%Q ->
  atMost (val mc ec) (SF64sqrt x).
Proof.
  intros Hc Hec Hx Ha. unfold SF64sqrt.
  destruct x as [[] | [] | | [] mx ex]; try contradiction; cbn [SFsqrt atMost]; try exact I.
  cbn [atMost] in Hx.
  assert (Hc0 : (0 < val mc ec)%Q) by (destruct mc; try lia; apply val_positive).
  destruct (SFsqrt_core_facts mx ex) as (q & e' & r & E & Hq & Hr & Hv & Hd).
  rewrite E.
  assert (Pq : (0 < val q e')%Q) by (destruct q; try lia; apply val_positive).
  assert (Hsq : (val q e' * val q e' <= val (q * q + r) (e' + e'))%Q)
    by (rewrite val_mul; apply val_le; lia).
  assert (Hq1 : (val q e' <= val mc ec)%Q) by nra.
  assert (He' : e' <= emax - prec).
  { destruct (Z.le_gt_cases e' ec) as [A | A]; [lia | exfalso].
    pose proof (val_small mc ec q e' Hc (Hd ltac:(lia)) A). lra. }
  destruct (Z.eqb_spec r 0) as [Hr0 | Hr0].
  - destruct q as [| q | q]; try lia. now apply binary_round_aux_upper.
  - apply binary_round_aux_upper_located; try assumption; [lia |].
    assert (Hsq2 : (val q e' * val q e' < val (q * q + r) (e' + e'))%Q)
      by (rewrite val_mul; apply val_lt; lia).
    assert (Hlt : (val q e' < val mc ec)%Q) by nra.
    destruct (Z.le_gt_cases e' ec) as [A | A]; [now apply val_integral_ge | exfalso].
    pose proof (val_small mc ec q e' Hc (Hd ltac:(lia)) A). lra.
Qed.

Lemma binary_round_upper (m : positive) (e mc ec : Z) :
  0 < mc < 2 ^ 53 -> emin64 <= ec <= emax - prec -> e <= emax - prec ->
  (val (Zpos m) e <= val mc ec)%Q ->
  atMost (val mc ec) (binary_round prec emax false m e).
Proof.
  intros Hc Hec He H. unfold binary_round.
  pose proof (shl_align_val m e (fexp prec emax (Zpos (digits2_pos m) + e))) as V.
  assert (Hs : snd (shl_align m e (fexp prec emax (Zpos (digits2_pos m) + e))) <= e).
  { unfold shl_align. destruct (_ - e) eqn:E; cbn [snd]; lia. }
  destruct (shl_align m e _) as [mz ez]. cbn [fst snd] in V, Hs.
  apply binary_round_aux_upper; try assumption; [lia |]. now rewrite V.
Qed.

(** *** Comparisons of doubles and of their values *)

Lemma val_aligned (m e k : Z) : k <= e -> (val m e == val (m * 2 ^ (e - k)) k)%Q.
Proof.
  intros H. rewrite val_scale by lia. replace (k + (e - k)) with e by lia. reflexivity.
Qed.

Lemma SFcompare_val (mx my : positive) (ex ey : Z) :
  valid_binary (S754_finite false mx ex) = true ->
  valid_binary (S754_finite false my ey) = true ->
  SFcompare (S754_finite false mx ex) (S754_finite false my ey) =
  Some (Zpos mx * 2 ^ (ex - Z.min ex ey) ?= Zpos my * 2 ^ (ey - Z.min ex ey)).
Proof.
  intros Vx Vy. cbn [SFcompare].
  rewrite (aligned_compare mx ex my ey (valid_finite _ _ _ Vx) (valid_finite _ _ _ Vy)).
  destruct (ex ?= ey); reflexivity.
Qed.

Lemma SFleb_val (mx my : positive) (ex ey : Z) :
  valid_binary (S754_finite false mx ex) = true ->
  valid_binary (S754_finite false my ey) = true ->
  SFleb (S754_finite false mx ex) (S754_finite false my ey) = true <->
  (val (Zpos mx) ex <= val (Zpos my) ey)%Q.
Proof.
  intros Vx Vy. unfold SFleb. rewrite (SFcompare_val _ _ _ _ Vx Vy).
  rewrite (val_aligned (Zpos mx) ex (Z.min ex ey)), (val_aligned (Zpos my) ey (Z.min ex ey))
    by lia.
  rewrite val_le.
  destruct (Z.compare_spec (Zpos mx * 2 ^ (ex - Z.min ex ey))
              (Zpos my * 2 ^ (ey - Z.min ex ey))); split; intros; try reflexivity;
    try discriminate; lia.
Qed.

Local Open Scope float_scope.

(** [c <= x] for a positive double [c] of value [mc * 2^ec]. *)
Lemma leb_atLeast (c x : float) (mc : positive) (ec : Z) :
  Prim2SF c = S754_finite false mc ec ->
  (c <=? x) = true <-> atLeast (val (Zpos mc) ec) (Prim2SF x).
Proof.
  intros Ec. rewrite leb_spec, Ec.
  pose proof (Prim2SF_valid c) as Vc. rewrite Ec in Vc.
  pose proof (Prim2SF_valid x) as Vx.
  destruct (Prim2SF x) as [[] | [] | | [] m e]; cbn [atLeast];
    try (unfold SFleb; cbn; split; [discriminate | contradiction]).
  - unfold SFleb. cbn. tauto.
  - now apply SFleb_val.
Qed.

(** [0 < x <= c] for a positive double [c] of value [mc * 2^ec]. *)
Lemma leb_atMost (c x : float) (mc : positive) (ec : Z) :
  Prim2SF c = S754_finite false mc ec ->
  (0 <? x) = true -> (x <=? c) = true ->
  atMost (val (Zpos mc) ec) (Prim2SF x) /\ atLeast 0 (Prim2SF x).
Proof.
  intros Ec. rewrite ltb_spec, leb_spec, Ec, Prim2SF_zero.
  pose proof (Prim2SF_valid c) as Vc. rewrite Ec in Vc.
  pose proof (Prim2SF_valid x) as Vx.
  destruct (Prim2SF x) as [[] | [] | | [] m e]; cbn [atMost atLeast];
    unfold SFltb, SFleb; cbn [SFcompare]; try discriminate.
  intros _ H. split.
  - now apply (SFleb_val m mc e ec Vx Vc).
  - apply Qlt_le_weak, val_positive.
Qed.

Lemma leb_nonNegative (x : float) : (0 <=? x) = true -> nonNegative (Prim2SF x).
Proof.
  rewrite leb_spec, Prim2SF_zero.
  destruct (Prim2SF x) as [[] | [] | | [] m e]; unfold SFleb; cbn; try discriminate; auto.
Qed.

(** *** Integers as doubles, and [Math.round] *)

Lemma ofZ_lower (n : Z) (mc ec : Z) :
  (0 < mc < 2 ^ 53)%Z -> (emin64 <= ec)%Z -> (0 < n < 2 ^ 63)%Z ->
  (val mc ec <= val n 0)%Q ->
  atLeast (val mc ec) (Prim2SF (JS.ofZ n)).
Proof.
  intros Hc Hec Hn H. destruct n as [| q | q]; try lia. cbn [JS.ofZ].
  rewrite of_uint63_spec.
  rewrite Uint63.of_Z_spec, Z.mod_small by (change Uint63.wB with (2 ^ 63)%Z; lia).
  cbn [binary_normalize]. now apply binary_round_lower.
Qed.

Lemma Math_round_lower (x : float) (k : Z) :
  (0 < k < 2 ^ 53)%Z ->
  atLeast (val k 0) (Prim2SF x) -> atLeast (val k 0) (Prim2SF (JS.Math_round x)).
Proof.
  intros Hk H. unfold JS.Math_round.
  pose proof (Prim2SF_valid x) as V.
  destruct (Prim2SF x) as [[] | [] | | [] m e] eqn:E; try contradiction;
    try (rewrite E; exact H).
  cbn [atLeast] in H.
  destruct (0 <=? e)%Z eqn:He; [rewrite E; exact H |].
  apply Z.leb_gt in He.
  set (d := (2 ^ (- e))%Z).
  assert (Hd : (0 < d)%Z) by (apply Z.pow_pos_nonneg; lia).
  (* the mantissa is at least [k * d] and below [2^53] *)
  assert (Hm : (k * d <= Zpos m)%Z).
  { rewrite (val_aligned k 0 e) in H by lia. apply val_le in H.
    now rewrite Z.sub_0_l in H. }
  assert (Hm53 : (Zpos m < 2 ^ 53)%Z).
  { pose proof (valid_finite _ _ _ V) as C.
    pose proof (digits2_pos_bounds m) as [_ U].
    apply Z.lt_le_trans with (1 := U). apply Z.pow_le_mono_r; lia. }
  pose proof (Z.div_mod (Zpos m) d ltac:(lia)) as D.
  pose proof (Z.mod_pos_bound (Zpos m) d Hd) as B.
  assert (Hq : (k <= Zpos m / d)%Z) by (apply Z.div_le_lower_bound; lia).
  assert (Hq53 : (Zpos m / d < 2 ^ 53)%Z).
  { apply Z.le_lt_trans with (Zpos m); [| assumption].
    apply Z.div_le_upper_bound; [lia | nia]. }
  assert (R : forall n, (Zpos m / d <= n <= Zpos m / d + 1)%Z ->
            atLeast (val k 0)
              (Prim2SF (if (n =? 0)%Z then zero else JS.ofZ n))).
  { intros n Hn. destruct (Z.eqb_spec n 0) as [-> | _]; [lia |].
    apply ofZ_lower; try lia. apply val_le. lia. }
  destruct (d <=? 2 * (Zpos m mod d))%Z; apply R; lia.
Qed.

(** *** Integers and [Math.round], from above *)

Lemma ofZ_upper (n : Z) (mc ec : Z) :
  (0 < mc < 2 ^ 53)%Z -> (emin64 <= ec <= emax - prec)%Z -> (0 <= n < 2 ^ 63)%Z ->
  (val n 0 <= val mc ec)%Q ->
  atMost (val mc ec) (Prim2SF (if (n =? 0)%Z then zero else JS.ofZ n)).
Proof.
  intros Hc Hec Hn H. destruct n as [| q | q]; try lia; cbn [Z.eqb JS.ofZ].
  - exact I.
  - rewrite of_uint63_spec.
    rewrite Uint63.of_Z_spec, Z.mod_small by (change Uint63.wB with (2 ^ 63)%Z; lia).
    cbn [binary_normalize]. apply binary_round_upper; try assumption. discriminate.
Qed.

Lemma Math_round_upper (x : float) (k : Z) :
  (0 < k < 2 ^ 53)%Z ->
  atMost (val k 0) (Prim2SF x) -> atMost (val k 0) (Prim2SF (JS.Math_round x)).
Proof.
  intros Hk H. unfold JS.Math_round.
  pose proof (Prim2SF_valid x) as V.
  destruct (Prim2SF x) as [[] | [] | | [] m e] eqn:E; try contradiction;
    try (rewrite E; exact H).
  cbn [atMost] in H.
  destruct (0 <=? e)%Z eqn:He; [rewrite E; exact H |].
  apply Z.leb_gt in He.
  set (d := (2 ^ (- e))%Z).
  assert (Hd : (0 < d)%Z) by (apply Z.pow_pos_nonneg; lia).
  assert (Hm : (Zpos m <= k * d)%Z).
  { rewrite (val_aligned k 0 e) in H by lia. apply val_le in H.
    now rewrite Z.sub_0_l in H. }
  pose proof (Z.div_mod (Zpos m) d ltac:(lia)) as D.
  pose proof (Z.mod_pos_bound (Zpos m) d Hd) as B.
  assert (R : forall n, (0 <= n <= k)%Z ->
            atMost (val k 0) (Prim2SF (if (n =? 0)%Z then zero else JS.ofZ n))).
  { intros n Hn. apply ofZ_upper; try lia; [split; discriminate | apply val_le; lia]. }
  assert (Hq0 : (0 <= Zpos m / d)%Z) by (apply Z.div_pos; lia).
  destruct (d <=? 2 * (Zpos m mod d))%Z eqn:Er; apply R.
  - apply Z.leb_le in Er. split; [lia |].
    (* a remainder of at least one half means that the mantissa is below [k * d] *)
    assert (Zpos m / d < k)%Z by nia. lia.
  - split; [lia |]. nia.
Qed.

End FloatOrder.

Import FloatOrder.

Lemma SFltb_SFleb_trans x y z :
  SFltb x y = true -> SFleb y z = true -> SFltb x z = true.
Proof.
  unfold SFleb, SFltb.
  destruct x as [[] | [] | | [] mx ex], y as [[] | [] | | [] my ey],
           z as [[] | [] | | [] mz ez]; cbn; try easy;
    intros H1 H2; split_compare; cbn in *; try easy; try lia.
Qed.

Lemma ltb_leb_trans (x y z : float) :
  (x <? y) = true -> (y <=? z) = true -> (x <? z) = true.
Proof. rewrite leb_spec, !ltb_spec. apply SFltb_SFleb_trans. Qed.

(** ** The direction of a box in pixels *)

(** X12.  For a box in pixels the direction is always "on your right":
    whenever the left edge is at least 1 and the width is not negative, or
    the left edge is not negative and the width at least 2, the centre is
    beyond 0.7, whatever the size of the frame. *)
Theorem X12_pixel_boxes_are_on_the_right (b : list float) :
  ((1 <=? item b 0) = true /\ (0 <=? item b 2) = true) \/
  ((0 <=? item b 0) = true /\ (2 <=? item b 2) = true) ->
  getDirectionalGuidance b = "on your right"%string.
Proof.
  intros H.
  assert (Hc : (1 <=? item b 0 + item b 2 / 2) = true).
  { apply (leb_atLeast 1 _ 4503599627370496 (-52) eq_refl).
    rewrite add_spec, div_spec.
    change (Prim2SF 2) with (S754_finite false 4503599627370496 (-51)).
    apply SFadd_lower; [split; reflexivity | discriminate |].
    destruct H as [[Hx Hw] | [Hx Hw]].
    - left. split.
      + now apply (leb_atLeast 1 _ 4503599627370496 (-52) eq_refl).
      + apply SFdiv_nonNegative. now apply leb_nonNegative.
    - right. split; [now apply leb_nonNegative |].
      apply (leb_atLeast 2 _ 4503599627370496 (-51) eq_refl) in Hw.
      apply SFdiv_lower with (a := val 4503599627370496 (-51))
                             (b := val 4503599627370496 (-51));
        try assumption; try (split; reflexivity); try discriminate; try reflexivity. }
  unfold getDirectionalGuidance. cbv zeta.
  assert (H1 : (0.7 <? item b 0 + item b 2 / 2) = true)
    by (apply ltb_leb_trans with 1; [reflexivity | exact Hc]).
  assert (H2 : (item b 0 + item b 2 / 2 <? 0.3) = false).
  { apply ltb_asym. apply ltb_leb_trans with 1; [reflexivity | exact Hc]. }
  now rewrite H2, H1.
Qed.

Lemma X12_pixel_boxes_are_on_the_right_witness :
  getDirectionalGuidance (bbox dogPrediction) = "on your right"%string /\
  getDirectionalGuidance [0; 40; 2; 100] = "on your right"%string.
Proof.
  split.
  - apply X12_pixel_boxes_are_on_the_right. left. split; reflexivity.
  - apply X12_pixel_boxes_are_on_the_right. right. split; reflexivity.
Defined.

(** ** Distances that the boxes of a frame can have *)

Lemma binary_round_aux_negative_leb (m e : Z) (l : location) (mc : positive) (ec : Z) :
  (0 <= m)%Z ->
  SFleb (binary_round_aux prec emax true m e l) (S754_finite false mc ec) = true.
Proof.
  intros Hm. unfold binary_round_aux.
  pose proof (shr_fexp_nonneg m e l Hm) as H1.
  destruct (shr_fexp prec emax m e l) as [mrs' e']. cbn [fst] in H1.
  pose proof (round_nearest_even_ge (shr_m mrs') (loc_of_shr_record mrs')) as Hr.
  pose proof (shr_fexp_nonneg (round_nearest_even (shr_m mrs') (loc_of_shr_record mrs')) e'
                loc_Exact ltac:(lia)) as H2.
  destruct (shr_fexp prec emax _ e' loc_Exact) as [mrs'' e'']. cbn [fst] in H2.
  destruct (shr_m mrs'') as [| q | q]; try lia; [reflexivity |].
  destruct (e'' <=? emax - prec)%Z; reflexivity.
Qed.

Lemma atMost_leb (c x : float) (mc : positive) (ec : Z) :
  Prim2SF c = S754_finite false mc ec ->
  atMost (val (Zpos mc) ec) (Prim2SF x) -> (x <=? c) = true.
Proof.
  intros Ec. rewrite leb_spec, Ec.
  pose proof (Prim2SF_valid c) as Vc. rewrite Ec in Vc.
  pose proof (Prim2SF_valid x) as Vx.
  destruct (Prim2SF x) as [[] | [] | | [] m e]; cbn [atMost]; try contradiction.
  - reflexivity.
  - now apply SFleb_val.
Qed.

Lemma leb_not_ltb (x y : float) : (x <=? y) = true -> (y <? x) = false.
Proof.
  rewrite leb_spec, ltb_spec. unfold SFleb, SFltb.
  rewrite (SFcompare_antisym (Prim2SF x)).
  destruct (SFcompare (Prim2SF x) (Prim2SF y)) as [[] |]; cbn; congruence.
Qed.

(** A warning distance of at most [c], scaled by a positive constant [k],
    is at most [t] when the product of [c] and [k] is. *)
Lemma scaled_threshold (w c k t : float) (mc mk mt : positive) (ec ek et : Z) :
  Prim2SF c = S754_finite false mc ec ->
  Prim2SF k = S754_finite false mk ek ->
  Prim2SF t = S754_finite false mt et ->
  (val (Zpos mc) ec * val (Zpos mk) ek <= val (Zpos mt) et)%Q ->
  (w <=? c) = true -> (w * k <=? t) = true.
Proof.
  intros Ec Ek Et Hv H.
  pose proof (Prim2SF_valid c) as Vc. rewrite Ec in Vc.
  pose proof (Prim2SF_valid t) as Vt. rewrite Et in Vt.
  destruct (Prim2SF w) as [s | s | | s m e] eqn:E.
  - rewrite leb_spec, mul_spec, E, Ek, Et. destruct s; reflexivity.
  - rewrite leb_spec, E, Ec in H. destruct s; [| discriminate].
    rewrite leb_spec, mul_spec, E, Ek, Et. reflexivity.
  - rewrite leb_spec, E in H. discriminate.
  - destruct s.
    + rewrite leb_spec, mul_spec, E, Ek, Et.
      unfold SF64mul. cbn [SFmul xorb]. apply binary_round_aux_negative_leb. lia.
    + apply (atMost_leb t _ mt et Et).
      rewrite mul_spec.
      pose proof (valid_finite _ _ _ Vt) as Ct. pose proof (valid_bound _ _ _ Vt) as Bt.
      pose proof (digits2_pos_bounds mt) as [_ Ut].
      apply SFmul_upper with (a := val (Zpos mc) ec) (b := val (Zpos mk) ek);
        try apply Prim2SF_valid; try assumption.
      * split; [lia |]. apply Z.lt_le_trans with (1 := Ut). apply Z.pow_le_mono_r; lia.
      * lia.
      * apply Qlt_le_weak, val_positive.
      * apply Qlt_le_weak, val_positive.
      * rewrite E. cbn [atMost].
        pose proof (Prim2SF_valid w) as V. rewrite E in V.
        rewrite leb_spec, E, Ec in H.
        now apply (SFleb_val m mc e ec V Vc).
      * rewrite Ek. cbn [atMost]. apply Qle_refl.
Qed.

(** A detection at least [t] away, [t] being at least half the warning
    distance, is never of tier 1, and never of tier 2 as an obstacle; it is
    neither shown as high priority nor announced with a warning. *)
Lemma far_detection_not_warned (p : Props) (d : Detection) (t : float) :
  (0 <? t) = true ->
  (t <=? estimateDistance (bbox d)) = true ->
  distanceOf (decorate d) = estimateDistance (bbox d) /\
  ((warningDistance p * 0.5 <=? t) = true ->
   (warningDistance p * 0.4 <=? t) = true ->
   getPriorityLevel p (decorate d) =
     (if includes dangerousObjects (class d) then
        if estimateDistance (bbox d) <? warningDistance p then 2 else 3
      else if includes obstacles (class d) then 4 else 5) /\
   isHighPriority p (decorate d) = false /\
   composeMessage p (decorate d) = plainMessage (decorate d)).
Proof.
  intros Ht D.
  assert (Hd : distanceOf (decorate d) = estimateDistance (bbox d)).
  { unfold distanceOf, decorate. cbn [distance]. apply orZero_positive.
    apply ltb_leb_trans with t; assumption. }
  split; [exact Hd |]. intros Hw Hw4.
  assert (Hn : (distanceOf (decorate d) <? warningDistance p * 0.5) = false).
  { rewrite Hd. apply leb_not_ltb. apply leb_trans with t; assumption. }
  assert (Hn4 : (distanceOf (decorate d) <? warningDistance p * 0.4) = false).
  { rewrite Hd. apply leb_not_ltb. apply leb_trans with t; assumption. }
  assert (Hm : composeMessage p (decorate d) =
               if distanceOf (decorate d) <? warningDistance p * 0.5
               then ("Warning! " ++ plainMessage (decorate d))%string
               else plainMessage (decorate d)) by reflexivity.
  rewrite Hm, Hn.
  unfold isHighPriority, getPriorityLevel. fold (distanceOf (decorate d)).
  rewrite Hn, Hn4, Hd. change (class (decorate d)) with (class d).
  destruct (includes dangerousObjects (class d)), (includes obstacles (class d)),
           (estimateDistance (bbox d) <? warningDistance p); repeat split; reflexivity.
Qed.

(** The estimated distance of a box that fits a frame of 640 by 480. *)
Lemma estimateDistance_in_frame (b : list float) :
  (0 <? item b 2) = true -> (item b 2 <=? 640) = true ->
  (0 <? item b 3) = true -> (item b 3 <=? 480) = true ->
  (1.75 <=? estimateDistance b) = true.
Proof.
  intros W0 W1 H0 H1.
  destruct (leb_atMost 640 _ 5629499534213120 (-43) eq_refl W0 W1) as [Wm _].
  destruct (leb_atMost 480 _ 8444249301319680 (-44) eq_refl H0 H1) as [Hm _].
  (* the area is at most 307200 *)
  assert (A : atMost (val 5277655813324800 (-34)) (Prim2SF (item b 2 * item b 3))).
  { rewrite mul_spec.
    apply SFmul_upper with (a := val 5629499534213120 (-43)) (b := val 8444249301319680 (-44));
      try apply Prim2SF_valid; try assumption;
      try (split; reflexivity); try (split; discriminate); try discriminate. }
  (* the quotient is at least 3.25 *)
  assert (Q : atLeast (val 13 (-2)) (Prim2SF (1000000 / (item b 2 * item b 3)))).
  { rewrite div_spec.
    apply SFdiv_lower with (a := val 8589934592000000 (-33)) (b := val 5277655813324800 (-34));
      try assumption; try (split; reflexivity); try discriminate; try reflexivity.
    cbn [atLeast]. change (Prim2SF 1000000) with (S754_finite false 8589934592000000 (-33)).
    cbn [atLeast]. apply Qle_refl. }
  (* its square root is at least 461/256 *)
  assert (R : atLeast (val 461 (-8)) (Prim2SF (sqrt (1000000 / (item b 2 * item b 3))))).
  { rewrite sqrt_spec.
    apply SFsqrt_lower with (a := val 13 (-2)); try assumption;
      try (split; reflexivity); try discriminate. }
  assert (T : atLeast (val 18 0) (Prim2SF (sqrt (1000000 / (item b 2 * item b 3)) * 10))).
  { rewrite mul_spec.
    apply SFmul_lower with (a := val 461 (-8)) (b := val 5629499534213120 (-49));
      try assumption; try (split; reflexivity); try discriminate; try reflexivity.
    change (Prim2SF 10) with (S754_finite false 5629499534213120 (-49)).
    cbn [atLeast]. apply Qle_refl. }
  assert (M : atLeast (val 18 0)
                (Prim2SF (JS.Math_round (sqrt (1000000 / (item b 2 * item b 3)) * 10)))).
  { apply Math_round_lower; [split; reflexivity | exact T]. }
  apply (leb_atLeast 1.75 _ 7881299347898368 (-52) eq_refl).
  unfold estimateDistance. cbv zeta. rewrite div_spec.
  apply atLeast_weaken with (c := val 7 (-2)); [discriminate |].
  apply SFdiv_lower with (a := val 18 0) (b := val 5629499534213120 (-49));
    try assumption; try (split; reflexivity); try discriminate; try reflexivity.
  change (Prim2SF 10) with (S754_finite false 5629499534213120 (-49)).
  cbn [atMost]. apply Qle_refl.
Qed.

(** X13.  A detection in a frame of at most 640 by 480 pixels (the
    region that [CameraFeed] hands over) is never nearer than 1.75: for a
    box of positive width at most 640 and positive height at most 480 the
    estimated distance is at least 1.75.  So with a warning distance of at
    most 3.5 (the default is 3) tier 1 is out of reach, and tier 2 for an
    obstacle as well: a dangerous class gets tier 2 or 3 by its distance,
    an obstacle tier 4; the detection is never shown as high priority and
    its announcement never starts with "Warning! ". *)
Theorem X13_no_warning_within_the_frame (p : Props) (d : Detection) :
  (0 <? item (bbox d) 2) = true -> (item (bbox d) 2 <=? 640) = true ->
  (0 <? item (bbox d) 3) = true -> (item (bbox d) 3 <=? 480) = true ->
  (1.75 <=? estimateDistance (bbox d)) = true /\
  distanceOf (decorate d) = estimateDistance (bbox d) /\
  ((warningDistance p <=? 3.5) = true ->
   getPriorityLevel p (decorate d) =
     (if includes dangerousObjects (class d) then
        if estimateDistance (bbox d) <? warningDistance p then 2 else 3
      else if includes obstacles (class d) then 4 else 5) /\
   isHighPriority p (decorate d) = false /\
   composeMessage p (decorate d) = plainMessage (decorate d)).
Proof.
  intros W0 W1 H0 H1.
  pose proof (estimateDistance_in_frame (bbox d) W0 W1 H0 H1) as D.
  destruct (far_detection_not_warned p d 1.75 eq_refl D) as [Hd Hw].
  split; [exact D |]. split; [exact Hd |].
  intros H. apply Hw.
  - apply (scaled_threshold _ 3.5 0.5 1.75 7881299347898368 4503599627370496
             7881299347898368 (-51) (-53) (-52) eq_refl eq_refl eq_refl);
      [discriminate | exact H].
  - apply (scaled_threshold _ 3.5 0.4 1.75 7881299347898368 7205759403792794
             7881299347898368 (-51) (-54) (-52) eq_refl eq_refl eq_refl);
      [discriminate | exact H].
Qed.

Lemma X13_no_warning_within_the_frame_witness :
  (1.75 <=? estimateDistance (bbox carAt2)) = true /\
  distanceOf (decorate carAt2) = estimateDistance (bbox carAt2) /\
  getPriorityLevel exampleProps (decorate carAt2) =
    (if includes dangerousObjects (class carAt2) then
       if estimateDistance (bbox carAt2) <? warningDistance exampleProps then 2 else 3
     else if includes obstacles (class carAt2) then 4 else 5) /\
  isHighPriority exampleProps (decorate carAt2) = false /\
  composeMessage exampleProps (decorate carAt2) = plainMessage (decorate carAt2).
Proof.
  pose proof (X13_no_warning_within_the_frame exampleProps carAt2
                eq_refl eq_refl eq_refl eq_refl) as (H1 & H2 & H3).
  exact (conj H1 (conj H2 (H3 eq_refl))).
Defined.

(** The estimated distance of a box in normalised coordinates. *)
Lemma estimateDistance_normalised (b : list float) :
  (0 <? item b 2) = true -> (item b 2 <=? 1) = true ->
  (0 <? item b 3) = true -> (item b 3 <=? 1) = true ->
  (1000 <=? estimateDistance b) = true.
Proof.
  intros W0 W1 H0 H1.
  destruct (leb_atMost 1 _ 4503599627370496 (-52) eq_refl W0 W1) as [Wm _].
  destruct (leb_atMost 1 _ 4503599627370496 (-52) eq_refl H0 H1) as [Hm _].
  assert (A : atMost (val 1 0) (Prim2SF (item b 2 * item b 3))).
  { rewrite mul_spec.
    apply SFmul_upper with (a := val 4503599627370496 (-52)) (b := val 4503599627370496 (-52));
      try apply Prim2SF_valid; try assumption;
      try (split; reflexivity); try (split; discriminate); try discriminate. }
  assert (Q : atLeast (val 1000000 0) (Prim2SF (1000000 / (item b 2 * item b 3)))).
  { rewrite div_spec.
    apply SFdiv_lower with (a := val 1000000 0) (b := val 1 0);
      try assumption; try (split; reflexivity); try discriminate; try reflexivity.
    change (Prim2SF 1000000) with (S754_finite false 8589934592000000 (-33)).
    cbn [atLeast]. discriminate. }
  assert (R : atLeast (val 1000 0) (Prim2SF (sqrt (1000000 / (item b 2 * item b 3))))).
  { rewrite sqrt_spec.
    apply SFsqrt_lower with (a := val 1000000 0); try assumption;
      try (split; reflexivity); try discriminate. }
  assert (T : atLeast (val 10000 0) (Prim2SF (sqrt (1000000 / (item b 2 * item b 3)) * 10))).
  { rewrite mul_spec.
    apply SFmul_lower with (a := val 1000 0) (b := val 10 0);
      try assumption; try (split; reflexivity); try discriminate; try reflexivity.
    change (Prim2SF 10) with (S754_finite false 5629499534213120 (-49)).
    cbn [atLeast]. discriminate. }
  assert (M : atLeast (val 10000 0)
                (Prim2SF (JS.Math_round (sqrt (1000000 / (item b 2 * item b 3)) * 10)))).
  { apply Math_round_lower; [split; reflexivity | exact T]. }
  apply (leb_atLeast 1000 _ 8796093022208000 (-43) eq_refl).
  unfold estimateDistance. cbv zeta. rewrite div_spec.
  apply atLeast_weaken with (c := val 1000 0); [discriminate |].
  apply SFdiv_lower with (a := val 10000 0) (b := val 10 0);
    try assumption; try (split; reflexivity); try discriminate; try reflexivity.
  change (Prim2SF 10) with (S754_finite false 5629499534213120 (-49)).
  cbn [atMost]. discriminate.
Qed.

(** X14.  In normalised coordinates (which the thresholds 0.3 and 0.7 of
    the direction suppose) every box is far away: for a box of positive
    width and height at most 1 the estimated distance is at least 1000.
    So for every warning distance up to 2000 a dangerous class gets tier 2
    or 3 and an obstacle tier 4; the detection is never shown as high
    priority and its announcement never starts with "Warning! ". *)
Theorem X14_normalised_boxes_are_far (p : Props) (d : Detection) :
  (0 <? item (bbox d) 2) = true -> (item (bbox d) 2 <=? 1) = true ->
  (0 <? item (bbox d) 3) = true -> (item (bbox d) 3 <=? 1) = true ->
  (1000 <=? estimateDistance (bbox d)) = true /\
  distanceOf (decorate d) = estimateDistance (bbox d) /\
  ((warningDistance p <=? 2000) = true ->
   getPriorityLevel p (decorate d) =
     (if includes dangerousObjects (class d) then
        if estimateDistance (bbox d) <? warningDistance p then 2 else 3
      else if includes obstacles (class d) then 4 else 5) /\
   isHighPriority p (decorate d) = false /\
   composeMessage p (decorate d) = plainMessage (decorate d)).
Proof.
  intros W0 W1 H0 H1.
  pose proof (estimateDistance_normalised (bbox d) W0 W1 H0 H1) as D.
  destruct (far_detection_not_warned p d 1000 eq_refl D) as [Hd Hw].
  split; [exact D |]. split; [exact Hd |].
  intros H. apply Hw.
  - apply (scaled_threshold _ 2000 0.5 1000 8796093022208000 4503599627370496
             8796093022208000 (-42) (-53) (-43) eq_refl eq_refl eq_refl);
      [discriminate | exact H].
  - apply (scaled_threshold _ 2000 0.4 1000 8796093022208000 7205759403792794
             8796093022208000 (-42) (-54) (-43) eq_refl eq_refl eq_refl);
      [discriminate | exact H].
Qed.

Lemma X14_normalised_boxes_are_far_witness :
  (1000 <=? estimateDistance (bbox personPrediction)) = true /\
  distanceOf (decorate personPrediction) = estimateDistance (bbox personPrediction) /\
  getPriorityLevel exampleProps (decorate personPrediction) =
    (if includes dangerousObjects (class personPrediction) then
       if estimateDistance (bbox personPrediction) <? warningDistance exampleProps
       then 2 else 3
     else if includes obstacles (class personPrediction) then 4 else 5) /\
  isHighPriority exampleProps (decorate personPrediction) = false /\
  composeMessage exampleProps (decorate personPrediction)
  = plainMessage (decorate personPrediction).
Proof.
  pose proof (X14_normalised_boxes_are_far exampleProps personPrediction
                eq_refl eq_refl eq_refl eq_refl) as (H1 & H2 & H3).
  exact (conj H1 (conj H2 (H3 eq_refl))).
Defined.

(** ** Boxes that are always warned about *)

(** The estimated distance of a box of at least 400 by 400. *)
Lemma estimateDistance_large_box (b : list float) :
  (400 <=? item b 2) = true -> (400 <=? item b 3) = true ->
  (estimateDistance b <=? 2.5) = true.
Proof.
  intros W H.
  apply (leb_atLeast 400 _ 7036874417766400 (-44) eq_refl) in W, H.
  assert (A : atLeast (val 160000 0) (Prim2SF (item b 2 * item b 3))).
  { rewrite mul_spec.
    apply SFmul_lower with (a := val 7036874417766400 (-44)) (b := val 7036874417766400 (-44));
      try assumption; try (split; reflexivity); try discriminate; try reflexivity. }
  assert (Q : atMost (val 25 (-2)) (Prim2SF (1000000 / (item b 2 * item b 3)))).
  { rewrite div_spec.
    apply SFdiv_upper with (a := val 1000000 0) (b := val 160000 0);
      try assumption; try (split; reflexivity); try (split; discriminate);
      try discriminate; try reflexivity.
    change (Prim2SF 1000000) with (S754_finite false 8589934592000000 (-33)).
    cbn [atMost]. discriminate. }
  assert (R : atMost (val 5 (-1)) (Prim2SF (sqrt (1000000 / (item b 2 * item b 3))))).
  { rewrite sqrt_spec.
    apply SFsqrt_upper with (a := val 25 (-2)); try assumption;
      try (split; reflexivity); try (split; discriminate); try discriminate. }
  assert (T : atMost (val 25 0) (Prim2SF (sqrt (1000000 / (item b 2 * item b 3)) * 10))).
  { rewrite mul_spec.
    apply SFmul_upper with (a := val 5 (-1)) (b := val 10 0);
      try apply Prim2SF_valid; try assumption;
      try (split; reflexivity); try (split; discriminate); try discriminate.
    change (Prim2SF 10) with (S754_finite false 5629499534213120 (-49)).
    cbn [atMost]. discriminate. }
  assert (M : atMost (val 25 0)
                (Prim2SF (JS.Math_round (sqrt (1000000 / (item b 2 * item b 3)) * 10)))).
  { apply Math_round_upper; [split; reflexivity | exact T]. }
  apply (atMost_leb 2.5 _ 5629499534213120 (-51) eq_refl).
  unfold estimateDistance. cbv zeta. rewrite div_spec.
  apply atMost_weaken with (c := val 5 (-1)); [discriminate |].
  apply SFdiv_upper with (a := val 25 0) (b := val 10 0);
    try assumption; try (split; reflexivity); try (split; discriminate);
    try discriminate; try reflexivity.
  change (Prim2SF 10) with (S754_finite false 5629499534213120 (-49)).
  cbn [atLeast]. discriminate.
Qed.

(** X15.  With a warning distance of 5.5 or more, a detection whose box
    is at least 400 by 400 pixels is always warned about: its estimated
    distance is at most 2.5, its announcement starts with "Warning! ", and
    for a dangerous class it has tier 1 and is shown as high priority. *)
Theorem X15_large_boxes_are_warned_about (p : Props) (d : Detection) :
  (400 <=? item (bbox d) 2) = true -> (400 <=? item (bbox d) 3) = true ->
  (5.5 <=? warningDistance p) = true ->
  (estimateDistance (bbox d) <=? 2.5) = true /\
  composeMessage p (decorate d) = ("Warning! " ++ plainMessage (decorate d))%string /\
  (includes dangerousObjects (class d) = true ->
   getPriorityLevel p (decorate d) = 1 /\ isHighPriority p (decorate d) = true).
Proof.
  intros W H Hw.
  pose proof (estimateDistance_large_box (bbox d) W H) as D.
  assert (Hd : (distanceOf (decorate d) <=? 2.5) = true).
  { unfold distanceOf, decorate. cbn [distance JS.orZero].
    destruct (JS.truthy (estimateDistance (bbox d))); [exact D | reflexivity]. }
  assert (Ht : (2.75 <=? warningDistance p * 0.5) = true).
  { apply (leb_atLeast 2.75 _ 6192449487634432 (-51) eq_refl).
    apply (leb_atLeast 5.5 _ 6192449487634432 (-50) eq_refl) in Hw.
    rewrite mul_spec.
    apply SFmul_lower with (a := val 6192449487634432 (-50)) (b := val 1 (-1));
      try assumption; try (split; reflexivity); try discriminate; try reflexivity.
    change (Prim2SF 0.5) with (S754_finite false 4503599627370496 (-53)).
    cbn [atLeast]. discriminate. }
  assert (Hn : (distanceOf (decorate d) <? warningDistance p * 0.5) = true).
  { apply leb_ltb_trans with 2.5; [exact Hd |].
    apply ltb_leb_trans with 2.75; [reflexivity | exact Ht]. }
  split; [exact D |].
  assert (Hm : composeMessage p (decorate d) =
               if distanceOf (decorate d) <? warningDistance p * 0.5
               then ("Warning! " ++ plainMessage (decorate d))%string
               else plainMessage (decorate d)) by reflexivity.
  rewrite Hm, Hn. split; [reflexivity |].
  intros Hc. unfold isHighPriority, getPriorityLevel. fold (distanceOf (decorate d)).
  change (class (decorate d)) with (class d). rewrite Hc, Hn. split; reflexivity.
Qed.

Lemma X15_large_boxes_are_warned_about_witness :
  (estimateDistance (bbox nearCar) <=? 2.5) = true /\
  composeMessage cautiousProps (decorate nearCar)
  = ("Warning! " ++ plainMessage (decorate nearCar))%string /\
  getPriorityLevel cautiousProps (decorate nearCar) = 1 /\
  isHighPriority cautiousProps (decorate nearCar) = true.
Proof.
  pose proof (X15_large_boxes_are_warned_about cautiousProps nearCar
                eq_refl eq_refl eq_refl) as (H1 & H2 & H3).
  exact (conj H1 (conj H2 (H3 eq_refl))).
Defined.

(** ** The region captured by [CameraFeed], its place in the canvas *)

(** X16.  The region that [captureFrame] reads is at most 640 by 480
    pixels, lies inside the canvas and is centred in it (the margins on
    both sides are equal); it is the whole canvas when the video is at
    most 640 by 480. *)
Theorem X16_captured_region_is_centred (videoWidth videoHeight : Z) :
  (0 <= videoWidth)%Z -> (0 <= videoHeight)%Z ->
  let r := captureRegion videoWidth videoHeight in
  (0 <= centerWidth r <= 640)%Z /\ (0 <= centerHeight r <= 480)%Z /\
  (0 <= regionX r)%Q /\
  (regionX r + inject_Z (centerWidth r) <= inject_Z videoWidth)%Q /\
  (inject_Z videoWidth - (regionX r + inject_Z (centerWidth r)) == regionX r)%Q /\
  (0 <= regionY r)%Q /\
  (regionY r + inject_Z (centerHeight r) <= inject_Z videoHeight)%Q /\
  (inject_Z videoHeight - (regionY r + inject_Z (centerHeight r)) == regionY r)%Q /\
  ((videoWidth <= 640)%Z -> (videoHeight <= 480)%Z ->
   (regionX r == 0)%Q /\ (regionY r == 0)%Q /\
   centerWidth r = videoWidth /\ centerHeight r = videoHeight).
Proof.
  intros Hw Hh r. subst r. unfold captureRegion. cbv zeta.
  cbn [regionX regionY centerWidth centerHeight].
  assert (Cw : (0 <= Z.min videoWidth 640 <= videoWidth)%Z) by lia.
  assert (Ch : (0 <= Z.min videoHeight 480 <= videoHeight)%Z) by lia.
  assert (Mw : (Z.min videoWidth 640 <= 640)%Z) by lia.
  assert (Mh : (Z.min videoHeight 480 <= 480)%Z) by lia.
  set (cw := Z.min videoWidth 640) in *. set (ch := Z.min videoHeight 480) in *.
  assert (Qw : (0 <= inject_Z cw <= inject_Z videoWidth)%Q)
    by (change 0%Q with (inject_Z 0); rewrite <- !Zle_Qle; lia).
  assert (Qh : (0 <= inject_Z ch <= inject_Z videoHeight)%Q)
    by (change 0%Q with (inject_Z 0); rewrite <- !Zle_Qle; lia).
  assert (Ew : (videoWidth <= 640)%Z -> cw = videoWidth) by lia.
  assert (Eh : (videoHeight <= 480)%Z -> ch = videoHeight) by lia.
  clearbody cw ch.
  unfold Z.sub, Qdiv. rewrite !inject_Z_plus, !inject_Z_opp.
  change (/ 2)%Q with (1 # 2)%Q.
  repeat split; try lia; try lra; try ring;
    try (rewrite Ew by assumption; ring); try (rewrite Eh by assumption; ring); auto.
Qed.

Lemma X16_captured_region_is_centred_witness :
  regionX (captureRegion 1280 720) == 320 /\ regionY (captureRegion 1280 720) == 120 /\
  centerWidth (captureRegion 1280 720) = 640%Z /\
  centerHeight (captureRegion 1280 720) = 480%Z /\
  (inject_Z 1280 - (regionX (captureRegion 1280 720)
                    + inject_Z (centerWidth (captureRegion 1280 720)))
   == regionX (captureRegion 1280 720))%Q.
Proof.
  pose proof (X16_captured_region_is_centred 1280 720 ltac:(discriminate) ltac:(discriminate))
    as (_ & _ & _ & _ & H & _).
  split; [reflexivity |]. split; [reflexivity |]. split; [reflexivity |].
  split; [reflexivity |]. exact H.
Defined.

(** ** The classes of the settings *)

(** X17.  The classes that the settings offer are exactly the classes
    that [getPriorityLevel] knows as dangerous or as obstacles; so, as long
    as [filteredObjects] is chosen among them, the detection selected for
    the announcement is never of the lowest tier 5. *)
Theorem X17_selectable_classes_are_classified (p : Props) (ds : list Detection)
    (m : Detection) :
  (forall cls,
     includes availableObjects cls =
     includes dangerousObjects cls || includes obstacles cls) /\
  ((forall cls, includes (filteredObjects p) cls = true ->
                includes availableObjects cls = true) ->
   mostImportant p (filterDetections p ds) = Some m ->
   In (getPriorityLevel p m) [1; 2; 3; 4]).
Proof.
  assert (Hc : forall cls, includes availableObjects cls =
                 includes dangerousObjects cls || includes obstacles cls).
  { intros cls. unfold includes.
    change availableObjects with (dangerousObjects ++ obstacles)%list.
    apply existsb_app. }
  split; [exact Hc |].
  intros Hsub Hm.
  assert (Hin : In m (filterDetections p ds)).
  { unfold mostImportant in Hm. apply (sort_In (compareDetections p)).
    destruct (sort (compareDetections p) (filterDetections p ds)); [discriminate |].
    injection Hm as ->. now left. }
  apply filter_In in Hin as [_ Hf]. apply Hsub in Hf. rewrite Hc in Hf.
  unfold getPriorityLevel.
  destruct (includes dangerousObjects (class m)), (includes obstacles (class m));
    try discriminate;
    repeat match goal with |- context [if ?c then _ else _] => destruct c end;
    cbn; tauto.
Qed.

Lemma X17_selectable_classes_are_classified_witness :
  In (getPriorityLevel exampleProps (decorate carAt2)) [1; 2; 3; 4].
Proof.
  apply (proj2 (X17_selectable_classes_are_classified exampleProps
                  [decorate dogPrediction; decorate carAt2] (decorate carAt2))).
  - intros cls. unfold includes.
    cbn [filteredObjects exampleProps availableObjects existsb].
    destruct (cls =? "person")%string, (cls =? "car")%string, (cls =? "truck")%string,
             (cls =? "motorcycle")%string, (cls =? "bicycle")%string;
      cbn [orb]; intros H; try reflexivity; discriminate.
  - vm_compute. reflexivity.
Defined.

(** ** The list on display over a sequence of events *)

Lemma steps_app (c : Component) (l1 l2 : list Event) :
  steps c (l1 ++ l2) = steps (steps c l1) l2.
Proof. unfold steps. apply fold_left_app. Qed.

Lemma step_lock_and_model (c : Component) (e : Event) :
  processingLock (core c) = false ->
  processingLock (core (step c e)) = false /\
  (model c = true -> model (step c e) = true).
Proof.
  intros Hl. destruct e as [p synth loaded now | p synth imageData predictions now now'];
    cbn [step].
  - unfold loadModel. destruct loaded; cbn [core model].
    + destruct (speak_fields p synth now readyMessage (core c)) as (_ & _ & ->). auto.
    + cbn [setError processingLock]. auto.
  - unfold frameEffect. destruct (negb imageData || negb (model c)); [auto |].
    cbn [core model]. split; [| auto].
    unfold processFrame. rewrite Hl. reflexivity.
Qed.

Lemma steps_lock_and_model (l : list Event) (c : Component) :
  processingLock (core c) = false ->
  processingLock (core (steps c l)) = false /\
  (model c = true -> model (steps c l) = true).
Proof.
  revert c. induction l as [| e r IH]; intros c Hl; [auto |].
  cbn [steps fold_left]. fold (steps (step c e) r).
  destruct (step_lock_and_model c e Hl) as [H1 H2].
  destruct (IH (step c e) H1) as [H3 H4]. auto.
Qed.

Lemma step_keeps_list (c : Component) (e : Event) :
  publishes e = false -> detections (core (step c e)) = detections (core c).
Proof.
  intros He. destruct e as [p synth loaded now | p synth imageData predictions now now'];
    cbn [step].
  - unfold loadModel. destruct loaded; cbn [core].
    + now destruct (speak_fields p synth now readyMessage (core c)) as (-> & _).
    + reflexivity.
  - unfold frameEffect. destruct imageData; [| reflexivity].
    destruct predictions as [preds |]; [discriminate |].
    cbn [negb orb]. destruct (negb (model c)); [reflexivity |]. cbn [core].
    unfold processFrame. destruct (processingLock (core c)); reflexivity.
Qed.

(** X18.  The list on display is the decorated output of the latest frame
    whose detection succeeded: once a model is loaded, after a frame with
    predictions [preds], and whatever follows it other than such a frame
    (loads of the model, frames without image data, frames whose detection
    fails), the detections of the state are [preds] with their
    distances. *)
Theorem X18_list_shows_the_latest_frame (c : Component) (l1 l2 : list Event)
    (p : Props) (synth : bool) (preds : list Detection) (now now' : Z) :
  processingLock (core c) = false ->
  model (steps c l1) = true ->
  forallb (fun e => negb (publishes e)) l2 = true ->
  detections (core (steps c (l1 ++ Frame p synth true (Some preds) now now' :: l2)))
  = map decorate preds.
Proof.
  intros Hl Hm Hq.
  rewrite steps_app. cbn [steps fold_left].
  fold (steps (step (fold_left step l1 c) (Frame p synth true (Some preds) now now')) l2).
  fold (steps c l1).
  destruct (steps_lock_and_model l1 c Hl) as [Hl1 _].
  assert (Hd : detections (core (step (steps c l1) (Frame p synth true (Some preds) now now')))
               = map decorate preds).
  { cbn [step]. unfold frameEffect. rewrite Hm. cbn [negb orb core].
    now destruct (processFrame_publishes p synth preds now now' (core (steps c l1)) Hl1)
      as (-> & _). }
  revert Hd. generalize (step (steps c l1) (Frame p synth true (Some preds) now now')).
  clear - Hq. induction l2 as [| e r IH]; intros c Hd; [exact Hd |].
  cbn [forallb] in Hq. apply andb_prop in Hq as [He Hr]. apply negb_true_iff in He.
  cbn [steps fold_left]. fold (steps (step c e) r).
  apply IH; [exact Hr |]. now rewrite step_keeps_list.
Qed.

Lemma X18_list_shows_the_latest_frame_witness :
  detections (core (steps initialComponent
    ([LoadModel exampleProps true true 5000]
     ++ Frame exampleProps true true (Some [carAt2]) 6000 6000
        :: [Frame exampleProps true true None 7000 7000;
            Frame exampleProps true false (Some [dogPrediction]) 8000 8000])))
  = map decorate [carAt2].
Proof.
  exact (X18_list_shows_the_latest_frame initialComponent
           [LoadModel exampleProps true true 5000]
           [Frame exampleProps true true None 7000 7000;
            Frame exampleProps true false (Some [dogPrediction]) 8000 8000]
           exampleProps true [carAt2] 6000 6000 eq_refl eq_refl eq_refl).
Defined.

(** ** Rounding is monotone *)

Module Rounding.

Local Open Scope Z_scope.

Lemma unit2_pos (e : Z) : (0 < unit2 e)%R.
Proof.
  unfold unit2. replace 0%R with (Q2R 0) by (unfold Q2R; cbn; Lra.lra).
  apply Qlt_Rlt. apply pow2_pos.
Qed.

Lemma unit2_succ (e : Z) : unit2 (e + 1) = (2 * unit2 e)%R.
Proof.
  unfold unit2. rewrite (Qeq_eqR _ _ (Qpower_plus 2 e 1 ltac:(discriminate))).
  rewrite Q2R_mult. change (2 ^ 1)%Q with 2%Q.
  replace (Q2R 2) with 2%R by (unfold Q2R; cbn; Lra.lra). Lra.lra.
Qed.

Lemma unit2_pred (e : Z) : unit2 e = (2 * unit2 (e - 1))%R.
Proof. rewrite <- unit2_succ. f_equal. lia. Qed.


Local Open Scope R_scope.

Lemma IZR_xO (q : positive) : IZR (Zpos q~0) = 2 * IZR (Zpos q).
Proof. rewrite (Pos2Z.inj_xO q), mult_IZR. reflexivity. Qed.

Lemma IZR_xI (q : positive) : IZR (Zpos q~1) = 2 * IZR (Zpos q) + 1.
Proof. rewrite (Pos2Z.inj_xI q), plus_IZR, mult_IZR. reflexivity. Qed.

(** One step of [shr_1] keeps the place of [X]. *)
Lemma shr_1_located (X : R) (mrs : shr_record) (e : Z) :
  (0 <= shr_m mrs)%Z ->
  located X (shr_m mrs) e (loc_of_shr_record mrs) ->
  located X (shr_m (shr_1 mrs)) (e + 1) (loc_of_shr_record (shr_1 mrs)).
Proof.
  destruct mrs as [m r s]. cbn [shr_m]. intros Hm.
  unfold located. replace (e + 1 - 1)%Z with e by lia.
  rewrite (unit2_pred e). pose proof (unit2_pos (e - 1)) as Hp.
  set (p := unit2 (e - 1)) in *.
  destruct m as [| [q | q |] | q]; try lia.
  - destruct r, s; cbn [shr_1 shr_m loc_of_shr_record orb]; intros H; Lra.lra.
  - rewrite (IZR_xI q).
    destruct r, s; cbn [shr_1 shr_m loc_of_shr_record orb]; intros H; Lra.lra.
  - rewrite (IZR_xO q).
    destruct r, s; cbn [shr_1 shr_m loc_of_shr_record orb]; intros H; Lra.lra.
  - destruct r, s; cbn [shr_1 shr_m loc_of_shr_record orb]; intros H; Lra.lra.
Qed.


Lemma shr_1_nonneg (mrs : shr_record) : (0 <= shr_m mrs)%Z -> (0 <= shr_m (shr_1 mrs))%Z.
Proof. intros H. rewrite shr_1_m by assumption. apply Z.div_pos; lia. Qed.

Lemma iter_shr_1_nonneg (n : positive) (mrs : shr_record) :
  (0 <= shr_m mrs)%Z -> (0 <= shr_m (SpecFloat.iter_pos shr_1 n mrs))%Z.
Proof.
  intros H. rewrite iter_shr_1_m by assumption.
  apply Z.div_pos; [assumption | apply Z.pow_pos_nonneg; lia].
Qed.

Lemma iter_shr_1_located (X : R) (n : positive) :
  forall (mrs : shr_record) (e : Z),
    (0 <= shr_m mrs)%Z ->
    located X (shr_m mrs) e (loc_of_shr_record mrs) ->
    located X (shr_m (SpecFloat.iter_pos shr_1 n mrs)) (e + Zpos n)
      (loc_of_shr_record (SpecFloat.iter_pos shr_1 n mrs)).
Proof.
  induction n as [n IH | n IH |]; intros mrs e Hm H; cbn [SpecFloat.iter_pos].
  - replace (e + Zpos n~1)%Z with (e + 1 + Zpos n + Zpos n)%Z by lia.
    apply IH; [apply iter_shr_1_nonneg, shr_1_nonneg, Hm |].
    apply IH; [apply shr_1_nonneg, Hm |].
    now apply shr_1_located.
  - replace (e + Zpos n~0)%Z with (e + Zpos n + Zpos n)%Z by lia.
    apply IH; [apply iter_shr_1_nonneg, Hm |].
    now apply IH.
  - now apply shr_1_located.
Qed.

Lemma loc_of_shr_record_of_loc (m : Z) (l : location) :
  loc_of_shr_record (shr_record_of_loc m l) = l.
Proof. destruct l as [| []]; reflexivity. Qed.

(** [shr_fexp] keeps the place of [X]. *)
Lemma shr_fexp_located (X : R) (m e : Z) (l : location) :
  (0 <= m)%Z -> located X m e l ->
  located X (shr_m (fst (shr_fexp prec emax m e l))) (snd (shr_fexp prec emax m e l))
    (loc_of_shr_record (fst (shr_fexp prec emax m e l))).
Proof.
  intros Hm H. unfold shr_fexp, shr.
  destruct (fexp prec emax (Zdigits2 m + e) - e)%Z as [| n | n]; cbn [fst snd];
    rewrite ?shr_record_of_loc_m, ?loc_of_shr_record_of_loc; try assumption.
  apply iter_shr_1_located; rewrite ?shr_record_of_loc_m, ?loc_of_shr_record_of_loc;
    assumption.
Qed.


Local Open Scope Z_scope.

Lemma binary_round_aux_rounded (m e : Z) (l : location) :
  binary_round_aux prec emax false m e l = finish (rounded m e l).
Proof.
  unfold binary_round_aux, finish, rounded.
  destruct (shr_fexp prec emax m e l) as [mrs' e']. reflexivity.
Qed.

Lemma Zdigits2_bounds (m : Z) :
  0 < m -> 2 ^ (Zdigits2 m - 1) <= m < 2 ^ Zdigits2 m.
Proof. destruct m as [| q | q]; try lia. intros _. apply digits2_pos_bounds. Qed.

Lemma Zdigits2_pos (m : Z) : 0 < m -> 0 < Zdigits2 m.
Proof. destruct m as [| q | q]; cbn; lia. Qed.

(** After [shr_fexp] a fine mantissa has at most 53 digits, and exactly 53
    unless the exponent is the least one. *)
Lemma shr_fexp_facts (m e : Z) (l : location) :
  0 <= m -> fine m e ->
  let r := shr_fexp prec emax m e l in
  0 <= shr_m (fst r) < 2 ^ 53 /\ emin64 <= snd r /\
  (emin64 < snd r -> 2 ^ 52 <= shr_m (fst r)).
Proof.
  intros Hm Hf. unfold fine in Hf. rewrite fexp64 in Hf.
  unfold shr_fexp, shr. rewrite fexp64.
  destruct (Z.eq_dec m 0) as [-> | Hm0].
  - cbn [Zdigits2] in *.
    destruct (Z.max (0 + e - 53) emin64 - e) as [| n | n] eqn:En; cbn [fst snd];
      rewrite ?shr_record_of_loc_m; try lia.
    rewrite iter_shr_1_m by (rewrite shr_record_of_loc_m; lia).
    rewrite shr_record_of_loc_m, Z.div_0_l by (apply Z.pow_nonzero; lia). lia.
  - pose proof (Zdigits2_bounds m ltac:(lia)) as [Lo Hi].
    pose proof (Zdigits2_pos m ltac:(lia)) as Hd.
    set (d := Zdigits2 m) in *.
    destruct (Z.max (d + e - 53) emin64 - e) as [| n | n] eqn:En; cbn [fst snd];
      rewrite ?shr_record_of_loc_m; try lia.
    + (* no shift: the exponent is the one of the format *)
      assert (Hd53 : d <= 53) by lia.
      split; [split; [lia |] |].
      * apply Z.lt_le_trans with (1 := Hi). apply Z.pow_le_mono_r; lia.
      * split; [lia |]. intros He. assert (d = 53) by lia. subst d.
        replace 52 with (Zdigits2 m - 1) by lia. exact Lo.
    + rewrite iter_shr_1_m by (rewrite shr_record_of_loc_m; lia).
      rewrite shr_record_of_loc_m.
      assert (Hp : 0 < 2 ^ Zpos n) by (apply Z.pow_pos_nonneg; lia).
      split; [split; [apply Z.div_pos; lia |] |].
      * apply Z.div_lt_upper_bound; [lia |].
        apply Z.lt_le_trans with (1 := Hi).
        rewrite <- Z.pow_add_r by lia. apply Z.pow_le_mono_r; lia.
      * split; [lia |]. intros He.
        assert (En' : Zpos n = d - 53) by lia. rewrite En'.
        apply Z.div_le_lower_bound; [apply Z.pow_pos_nonneg; lia |].
        rewrite <- Z.pow_add_r by lia.
        replace (d - 53 + 52) with (d - 1) by lia. exact Lo.
Qed.


Local Open Scope R_scope.

Lemma located_cell (X : R) (m e : Z) (l : location) :
  located X m e l -> IZR m * unit2 e <= X < (IZR m + 1) * unit2 e.
Proof.
  unfold located. rewrite (unit2_pred e). pose proof (unit2_pos (e - 1)) as Hp.
  destruct l as [| []]; intros H; Lra.lra.
Qed.

Lemma unit2_le (e1 e2 : Z) : (e1 <= e2)%Z -> unit2 e1 <= unit2 e2.
Proof.
  intros H. unfold unit2. apply Qle_Rle. apply Qpower_le_compat_l; [assumption | discriminate].
Qed.

Lemma unit2_pow (k e : Z) : (0 <= k)%Z -> IZR (2 ^ k) * unit2 e = unit2 (k + e).
Proof.
  intros Hk. unfold unit2.
  rewrite (Qeq_eqR _ _ (Qpower_plus 2 k e ltac:(discriminate))), Q2R_mult.
  f_equal. change (2 ^ k)%Q with (inject_Z 2 ^ k)%Q.
  rewrite <- (Qeq_eqR _ _ (Zpower_Qpower 2 k Hk)).
  unfold Q2R, inject_Z. cbn [Qnum Qden]. rewrite Rinv_1. Lra.lra.
Qed.

(** In one cell the rounded mantissa grows with the place of [X]. *)
Lemma round_in_cell (X1 X2 : R) (m e : Z) (l1 l2 : location) :
  located X1 m e l1 -> located X2 m e l2 -> X1 <= X2 ->
  (round_nearest_even m l1 <= round_nearest_even m l2)%Z.
Proof.
  unfold located. pose proof (unit2_pos (e - 1)) as Hp.
  destruct l1 as [| []], l2 as [| []]; cbn [round_nearest_even]; intros H1 H2 H;
    try lia; try (destruct (Z.even m); lia); exfalso; Lra.lra.
Qed.

(** The rounded values of two numbers are in the order of the numbers. *)
Lemma round_mono (X1 X2 : R) (m1 t1 m2 t2 : Z) (l1 l2 : location) :
  (0 <= m1 < 2 ^ 53)%Z -> (emin64 < t1 -> 2 ^ 52 <= m1)%Z ->
  (0 <= m2 < 2 ^ 53)%Z -> (emin64 < t2 -> 2 ^ 52 <= m2)%Z ->
  (emin64 <= t1)%Z -> (emin64 <= t2)%Z ->
  located X1 m1 t1 l1 -> located X2 m2 t2 l2 -> X1 <= X2 ->
  IZR (round_nearest_even m1 l1) * unit2 t1 <= IZR (round_nearest_even m2 l2) * unit2 t2.
Proof.
  intros B1 D1 B2 D2 E1 E2 L1 L2 H.
  pose proof (located_cell _ _ _ _ L1) as C1. pose proof (located_cell _ _ _ _ L2) as C2.
  pose proof (round_nearest_even_ge m1 l1) as G1. pose proof (round_nearest_even_le m1 l1) as U1.
  pose proof (round_nearest_even_ge m2 l2) as G2. pose proof (round_nearest_even_le m2 l2) as U2.
  pose proof (unit2_pos t1) as P1. pose proof (unit2_pos t2) as P2.
  apply IZR_le in G1, U1, G2, U2. rewrite plus_IZR in U1, U2.
  destruct (Z.lt_trichotomy t1 t2) as [T | [T | T]].
  - (* the first number is in a lower binade *)
    specialize (D2 ltac:(lia)).
    assert (A : IZR (round_nearest_even m1 l1) * unit2 t1 <= unit2 (53 + t1)).
    { rewrite <- unit2_pow by lia.
      apply Rmult_le_compat_r; [Lra.lra |].
      apply Rle_trans with (1 := U1). rewrite <- plus_IZR. apply IZR_le. lia. }
    assert (B : unit2 (52 + t2) <= IZR (round_nearest_even m2 l2) * unit2 t2).
    { rewrite <- unit2_pow by lia.
      apply Rmult_le_compat_r; [Lra.lra |].
      apply Rle_trans with (2 := G2). apply IZR_le. lia. }
    pose proof (unit2_le (53 + t1) (52 + t2) ltac:(lia)). Lra.lra.
  - subst t2.
    assert (Hm : (m1 <= m2)%Z).
    { destruct (Z.le_gt_cases m1 m2) as [A | A]; [assumption | exfalso].
      assert (IZR m2 + 1 <= IZR m1) by (rewrite <- plus_IZR; apply IZR_le; lia).
      assert (IZR m1 * unit2 t1 >= (IZR m2 + 1) * unit2 t1) by Lra.nra.
      Lra.lra. }
    apply Rmult_le_compat_r; [Lra.lra |]. apply IZR_le.
    destruct (Z.eq_dec m1 m2) as [-> | Hne].
    + now apply (round_in_cell X1 X2 m2 t1).
    + pose proof (round_nearest_even_le m1 l1). pose proof (round_nearest_even_ge m2 l2). lia.
  - (* impossible: the first number would be the larger one *)
    exfalso. specialize (D1 ltac:(lia)).
    assert (A : unit2 (52 + t1) <= IZR m1 * unit2 t1).
    { rewrite <- unit2_pow by lia. apply Rmult_le_compat_r; [Lra.lra |]. apply IZR_le. lia. }
    assert (B : (IZR m2 + 1) * unit2 t2 <= unit2 (53 + t2)).
    { rewrite <- unit2_pow by lia. apply Rmult_le_compat_r; [Lra.lra |].
      rewrite <- plus_IZR. apply IZR_le. lia. }
    pose proof (unit2_le (53 + t2) (52 + t1) ltac:(lia)). Lra.lra.
Qed.


Lemma Q2R_val (m e : Z) : Q2R (val m e) = IZR m * unit2 e.
Proof.
  unfold val, unit2. rewrite Q2R_mult. f_equal.
  unfold Q2R, inject_Z. cbn [Qnum Qden]. rewrite Rinv_1. Lra.lra.
Qed.

(** The double that [finish] makes of a rounded mantissa has its value,
    unless it is zero or overflows. *)
Lemma finish_cases (m t : Z) :
  (0 <= m <= 2 ^ 53)%Z -> (emin64 <= t)%Z -> (emin64 < t -> 2 ^ 52 <= m)%Z ->
  (m = 0%Z /\ finish (m, t) = S754_zero false) \/
  (exists m3 e3,
     finish (m, t) = S754_finite false m3 e3 /\
     IZR (Zpos m3) * unit2 e3 = IZR m * unit2 t) \/
  (finish (m, t) = S754_infinity false /\ unit2 1024 <= IZR m * unit2 t).
Proof.
  intros Hm Ht Hd. unfold finish. cbn [fst snd]. unfold shr_fexp, shr. rewrite fexp64.
  pose proof (unit2_pos t) as Pt.
  destruct (Z.eq_dec m 0) as [-> | Hm0].
  - left. split; [reflexivity |]. cbn [Zdigits2].
    destruct (Z.max (0 + t - 53) emin64 - t)%Z as [| n | n]; cbn [shr_record_of_loc shr_m];
      try reflexivity.
    rewrite iter_shr_1_m by (cbn; lia). cbn [shr_m].
    rewrite Z.div_0_l by (apply Z.pow_nonzero; lia). reflexivity.
  - right.
    pose proof (Zdigits2_bounds m ltac:(lia)) as [Lo Hi].
    pose proof (Zdigits2_pos m ltac:(lia)) as Hdp.
    destruct (Z.eq_dec m (2 ^ 53)) as [-> | Hne].
    + (* the rounding has carried: one more shift, which loses nothing *)
      change (Zdigits2 (2 ^ 53)) with 54%Z.
      replace (Z.max (54 + t - 53) emin64 - t)%Z with 1%Z by lia.
      cbn [SpecFloat.iter_pos shr_record_of_loc shr_1 shr_m].
      change (2 ^ 53)%Z with 9007199254740992%Z.
      cbn [shr_1 shr_m].
      destruct (t + 1 <=? emax - prec)%Z eqn:Eo.
      * left. exists 4503599627370496%positive, (t + 1)%Z. split; [reflexivity |].
        rewrite unit2_succ. Lra.lra.
      * right. split; [reflexivity |]. apply Z.leb_gt in Eo.
        change 9007199254740992%Z with (2 ^ 53)%Z. rewrite unit2_pow by lia.
        apply unit2_le. change (emax - prec)%Z with 971%Z in Eo. lia.
    + assert (Hd53 : (Zdigits2 m <= 53)%Z).
      { destruct (Z.le_gt_cases (Zdigits2 m) 53) as [A | A]; [assumption | exfalso].
        assert (2 ^ 53 <= 2 ^ (Zdigits2 m - 1))%Z by (apply Z.pow_le_mono_r; lia). lia. }
      destruct (Z.max (Zdigits2 m + t - 53) emin64 - t)%Z as [| n | n] eqn:En; try lia;
        cbn [shr_record_of_loc shr_m];
        (destruct m as [| q | q]; try lia;
         destruct (t <=? emax - prec)%Z eqn:Eo;
         [left; exists q, t; split; reflexivity
         | right; split; [reflexivity |];
           apply Z.leb_gt in Eo; change (emax - prec)%Z with 971%Z in Eo;
           specialize (Hd ltac:(lia));
           apply Rle_trans with (unit2 (52 + t)); [apply unit2_le; lia |];
           rewrite <- unit2_pow by lia;
           apply Rmult_le_compat_r; [Lra.lra | apply IZR_le; assumption]]).
Qed.


(** What is known of the mantissa and the exponent after the rounding. *)
Lemma rounded_facts (X : R) (m e : Z) (l : location) :
  (0 <= m)%Z -> fine m e -> located X m e l ->
  let mt := rounded m e l in
  exists m' l',
    fst mt = round_nearest_even m' l' /\
    (0 <= m' < 2 ^ 53)%Z /\ (emin64 <= snd mt)%Z /\
    (emin64 < snd mt -> 2 ^ 52 <= m')%Z /\
    located X m' (snd mt) l'.
Proof.
  intros Hm Hf HL. unfold rounded. cbn [fst snd].
  destruct (shr_fexp_facts m e l Hm Hf) as (B & E & D).
  pose proof (shr_fexp_located X m e l Hm HL) as L.
  exists (shr_m (fst (shr_fexp prec emax m e l))),
         (loc_of_shr_record (fst (shr_fexp prec emax m e l))).
  auto.
Qed.

(** Rounding is monotone: of two real numbers the smaller one is not
    rounded to the larger double. *)
Theorem rounds_mono (X1 X2 : R) (r1 r2 : spec_float) :
  rounds X1 r1 -> rounds X2 r2 ->
  valid_binary r1 = true -> valid_binary r2 = true ->
  X1 <= X2 -> SFleb r1 r2 = true.
Proof.
  intros (m1 & e1 & l1 & Hm1 & Hf1 & HL1 & ->) (m2 & e2 & l2 & Hm2 & Hf2 & HL2 & ->) V1 V2 H.
  rewrite (binary_round_aux_rounded m1 e1 l1), (binary_round_aux_rounded m2 e2 l2) in *.
  destruct (rounded_facts X1 m1 e1 l1 Hm1 Hf1 HL1) as (a1 & k1 & F1 & B1 & E1 & D1 & L1).
  destruct (rounded_facts X2 m2 e2 l2 Hm2 Hf2 HL2) as (a2 & k2 & F2 & B2 & E2 & D2 & L2).
  pose proof (round_mono X1 X2 a1 _ a2 _ k1 k2 B1 D1 B2 D2 E1 E2 L1 L2 H) as M.
  rewrite <- F1, <- F2 in M.
  pose proof (round_nearest_even_ge a1 k1) as G1. pose proof (round_nearest_even_le a1 k1) as U1.
  pose proof (round_nearest_even_ge a2 k2) as G2. pose proof (round_nearest_even_le a2 k2) as U2.
  rewrite <- F1 in G1, U1. rewrite <- F2 in G2, U2.
  destruct (rounded m1 e1 l1) as [b1 t1]. destruct (rounded m2 e2 l2) as [b2 t2].
  cbn [fst snd] in *.
  pose proof (unit2_pos t1) as P1. pose proof (unit2_pos t2) as P2.
  destruct (finish_cases b1 t1 ltac:(lia) E1 ltac:(lia))
    as [[Z1 R1] | [(q1 & f1 & R1 & W1) | [R1 W1]]];
  destruct (finish_cases b2 t2 ltac:(lia) E2 ltac:(lia))
    as [[Z2 R2] | [(q2 & f2 & R2 & W2) | [R2 W2]]];
    rewrite R1, R2 in *; try reflexivity.
  - (* a positive double and zero *)
    exfalso. rewrite Z2 in M.
    assert (0 < IZR (Zpos q1) * unit2 f1).
    { apply Rmult_lt_0_compat; [apply IZR_lt; lia | apply unit2_pos]. }
    Lra.lra.
  - apply (SFleb_val q1 q2 f1 f2 V1 V2). apply Rle_Qle. rewrite !Q2R_val. Lra.lra.
  - exfalso. rewrite Z2 in M. pose proof (unit2_pos 1024). Lra.lra.
  - (* an overflow below a finite double *)
    exfalso.
    pose proof (valid_finite _ _ _ V2) as C2. pose proof (valid_bound _ _ _ V2) as Bd2.
    pose proof (digits2_pos_bounds q2) as [_ Hi2].
    assert (IZR (Zpos q2) * unit2 f2 < unit2 1024).
    { apply Rlt_le_trans with (IZR (2 ^ 53) * unit2 f2).
      - apply Rmult_lt_compat_r; [apply unit2_pos |]. apply IZR_lt.
        apply Z.lt_le_trans with (1 := Hi2). apply Z.pow_le_mono_r; lia.
      - rewrite unit2_pow by lia. apply unit2_le.
        change (emax - prec)%Z with 971%Z in Bd2. lia. }
    Lra.lra.
Qed.


(** *** The operations round the exact results *)

Lemma unit2_add (a b : Z) : unit2 (a + b) = unit2 a * unit2 b.
Proof.
  unfold unit2. rewrite (Qeq_eqR _ _ (Qpower_plus 2 a b ltac:(discriminate))).
  apply Q2R_mult.
Qed.

Lemma located_exact (m e : Z) : located (IZR m * unit2 e) m e loc_Exact.
Proof. unfold located. rewrite (unit2_pred e). Lra.lra. Qed.

(** A mantissa of at least 53 digits, or at an exponent that is not above
    the least one, is fine. *)
Lemma fine_digits (m e : Z) :
  (0 <= m)%Z -> (emin64 < e -> 2 ^ 52 <= m)%Z -> fine m e.
Proof.
  intros Hm H. unfold fine. rewrite fexp64.
  destruct (Z.le_gt_cases e emin64) as [A | A]; [lia |].
  specialize (H A).
  assert (0 < 2 ^ 52)%Z by reflexivity.
  pose proof (Zdigits2_bounds m ltac:(lia)) as [_ Hi].
  assert (53 <= Zdigits2 m)%Z.
  { destruct (Z.le_gt_cases 53 (Zdigits2 m)) as [B | B]; [assumption | exfalso].
    assert (2 ^ Zdigits2 m <= 2 ^ 52)%Z by (apply Z.pow_le_mono_r; lia). lia. }
  lia.
Qed.

(** A canonical mantissa has 53 digits unless its exponent is the least. *)
Lemma valid_digits (s : bool) (m : positive) (e : Z) :
  valid_binary (S754_finite s m e) = true ->
  (emin64 <= e)%Z /\ (emin64 < e -> 2 ^ 52 <= Zpos m)%Z.
Proof.
  intros V. pose proof (valid_finite _ _ _ V) as C.
  pose proof (digits2_pos_bounds m) as [Lo _].
  split; [lia |]. intros He.
  assert (D : Zpos (digits2_pos m) = 53%Z) by lia. now rewrite D in Lo.
Qed.

Lemma SFmul_rounds (mx my : positive) (ex ey : Z) :
  valid_binary (S754_finite false mx ex) = true ->
  valid_binary (S754_finite false my ey) = true ->
  rounds (IZR (Zpos mx) * unit2 ex * (IZR (Zpos my) * unit2 ey))
    (SF64mul (S754_finite false mx ex) (S754_finite false my ey)).
Proof.
  intros Vx Vy. unfold SF64mul. cbn [SFmul xorb].
  exists (Zpos mx * Zpos my)%Z, (ex + ey)%Z, loc_Exact.
  destruct (valid_digits _ _ _ Vx) as [Ex Dx]. destruct (valid_digits _ _ _ Vy) as [Ey Dy].
  split; [lia |]. split; [| split; [| reflexivity]].
  - apply fine_digits; [lia |]. intros He.
    assert (0 < 2 ^ 52)%Z by reflexivity.
    destruct (Z.le_gt_cases ex emin64) as [A | A].
    + specialize (Dy ltac:(lia)). nia.
    + specialize (Dx A). nia.
  - replace (IZR (Zpos mx) * unit2 ex * (IZR (Zpos my) * unit2 ey))
      with (IZR (Zpos mx * Zpos my) * unit2 (ex + ey))
      by (rewrite mult_IZR, unit2_add; ring).
    apply located_exact.
Qed.


(** The place of a quotient [q + r / n] in its cell, read off the
    remainder. *)
Lemma new_location_located (n q r e : Z) :
  (0 < n)%Z -> (0 <= r < n)%Z ->
  located ((IZR q + IZR r / IZR n) * unit2 e) q e (new_location n r).
Proof.
  intros Hn Hr.
  assert (Pn : 0 < IZR n) by (apply IZR_lt; lia).
  set (rho := IZR r / IZR n).
  assert (Erho : rho * IZR n = IZR r) by (unfold rho; field; Lra.lra).
  unfold located. rewrite (unit2_pred e). pose proof (unit2_pos (e - 1)) as Hp.
  set (p := unit2 (e - 1)) in *.
  assert (Cases : (r = 0%Z /\ rho = 0) \/
                  ((0 < r)%Z /\ (2 * r < n)%Z /\ 0 < rho * p /\ 0 < (1 / 2 - rho) * p) \/
                  ((0 < r)%Z /\ (2 * r = n)%Z /\ rho = 1 / 2) \/
                  ((0 < r)%Z /\ (n < 2 * r)%Z /\ 0 < (rho - 1 / 2) * p /\ 0 < (1 - rho) * p)).
  { destruct (Z.eq_dec r 0) as [-> | Hr0].
    - left. split; [reflexivity |]. unfold rho. field. Lra.lra.
    - right.
      assert (Pr : 0 < IZR r) by (apply IZR_lt; lia).
      assert (Lr : IZR r < IZR n) by (apply IZR_lt; lia).
      assert (R0 : 0 < rho) by (unfold rho; apply Rdiv_lt_0_compat; Lra.lra).
      assert (R1 : rho < 1) by Lra.nra.
      destruct (Z.lt_trichotomy (2 * r) n) as [A | [A | A]].
      + left. split; [lia |]. split; [assumption |].
        assert (2 * IZR r < IZR n) by (rewrite <- mult_IZR; apply IZR_lt; lia).
        assert (rho < 1 / 2) by Lra.nra.
        split; apply Rmult_lt_0_compat; Lra.lra.
      + right. left. split; [lia |]. split; [assumption |].
        assert (2 * IZR r = IZR n) by (rewrite <- mult_IZR; f_equal; lia).
        Lra.nra.
      + right. right. split; [lia |]. split; [assumption |].
        assert (IZR n < 2 * IZR r) by (rewrite <- mult_IZR; apply IZR_lt; lia).
        assert (1 / 2 < rho) by Lra.nra.
        split; apply Rmult_lt_0_compat; Lra.lra. }
  assert (Hev : forall k, (k =? 0)%Z = true -> k = 0%Z) by (intros k; apply Z.eqb_eq).
  assert (Hcmp : forall a b, (a ?= b)%Z = Eq -> a = b) by (intros a b; apply Z.compare_eq_iff).
  assert (Hlt : forall a b, (a ?= b)%Z = Lt -> (a < b)%Z) by (intros a b; apply Z.compare_lt_iff).
  assert (Hgt : forall a b, (a ?= b)%Z = Gt -> (b < a)%Z) by (intros a b; apply Z.compare_gt_iff).
  assert (Hodd : Z.even n = false -> (2 * r <> n)%Z).
  { intros Ev A. rewrite <- A, Z.even_mul in Ev. discriminate. }
  unfold new_location, new_location_even, new_location_odd.
  destruct (Z.even n) eqn:Ev;
    (destruct (r =? 0)%Z eqn:Er;
     [apply Hev in Er; destruct Cases as [[_ E0] | [(R0 & _) | [(R0 & _) | (R0 & _)]]];
      try lia; rewrite E0; Lra.lra |]).
  - destruct (2 * r ?= n)%Z eqn:C;
      [apply Hcmp in C | apply Hlt in C | apply Hgt in C];
      destruct Cases as [[E0 _] | [(R0 & A & F1 & F2) | [(R0 & A & F) | (R0 & A & F1 & F2)]]];
      try lia; try (rewrite F); Lra.lra.
  - specialize (Hodd eq_refl).
    destruct (2 * r + 1 ?= n)%Z eqn:C;
      [apply Hcmp in C | apply Hlt in C | apply Hgt in C];
      destruct Cases as [[E0 _] | [(R0 & A & F1 & F2) | [(R0 & A & F) | (R0 & A & F1 & F2)]]];
      try lia; Lra.lra.
Qed.

Lemma SFdiv_rounds (mx my : positive) (ex ey : Z) :
  rounds (IZR (Zpos mx) * unit2 ex / (IZR (Zpos my) * unit2 ey))
    (SF64div (S754_finite false mx ex) (S754_finite false my ey)).
Proof.
  unfold SF64div. cbn [SFdiv xorb].
  destruct (SFdiv_core_facts mx my ex ey) as (q & e' & r & E & Hq & Hr & Hv & Hd).
  rewrite E. exists q, e', (new_location (Zpos my) r).
  split; [assumption |]. split; [now apply fine_digits |]. split; [| reflexivity].
  apply Qeq_eqR in Hv. rewrite !Q2R_val in Hv. rewrite Hv.
  rewrite plus_IZR, mult_IZR, unit2_add.
  pose proof (unit2_pos ey). assert (0 < IZR (Zpos my)) by (apply IZR_lt; lia).
  replace ((IZR q * IZR (Zpos my) + IZR r) * (unit2 e' * unit2 ey)
           / (IZR (Zpos my) * unit2 ey))
    with ((IZR q + IZR r / IZR (Zpos my)) * unit2 e') by (field; Lra.lra).
  apply new_location_located; lia.
Qed.


Lemma sq_lt_sqrt (a y : R) : 0 <= a -> a * a < y -> a < R_sqrt.sqrt y.
Proof.
  intros Ha H. rewrite <- (sqrt_square a Ha) at 1.
  apply sqrt_lt_1_alt. split; [Lra.nra | assumption].
Qed.

Lemma sqrt_lt_sq (a y : R) : 0 <= a -> 0 <= y -> y < a * a -> R_sqrt.sqrt y < a.
Proof.
  intros Ha Hy H. rewrite <- (sqrt_square a Ha).
  apply sqrt_lt_1_alt. split; assumption.
Qed.

(** The place of a square root in its cell, read off the remainder. *)
Lemma sqrt_located (q r e : Z) :
  (0 < q)%Z -> (0 <= r <= 2 * q)%Z ->
  located (R_sqrt.sqrt (IZR (q * q + r) * unit2 (e + e))) q e
    (if (r =? 0)%Z then loc_Exact else loc_Inexact (if (r <=? q)%Z then Lt else Gt)).
Proof.
  intros Hq Hr.
  rewrite plus_IZR, mult_IZR, unit2_add.
  unfold located. rewrite (unit2_pred e). pose proof (unit2_pos (e - 1)) as Hp.
  set (p := unit2 (e - 1)) in *.
  assert (PQ : 0 < IZR q) by (apply IZR_lt; lia).
  assert (PR : 0 <= IZR r) by (apply IZR_le; lia).
  assert (P2 : 0 < p * p) by (apply Rmult_lt_0_compat; assumption).
  assert (Qp : 0 < IZR q * p) by (apply Rmult_lt_0_compat; assumption).
  set (y := (IZR q * IZR q + IZR r) * (2 * p * (2 * p))).
  assert (Ey : y = 4 * (IZR q * p) * (IZR q * p) + 4 * (IZR r * (p * p))) by (unfold y; ring).
  assert (Rp : 0 <= IZR r * (p * p)) by (apply Rmult_le_pos; Lra.lra).
  destruct (Z.eqb_spec r 0) as [-> | Hr0].
  - replace y with (2 * IZR q * p * (2 * IZR q * p)) by (unfold y; ring).
    apply sqrt_square. Lra.lra.
  - assert (PR' : 1 <= IZR r) by (apply IZR_le; lia).
    assert (Rp' : p * p <= IZR r * (p * p)) by Lra.nra.
    destruct (Z.leb_spec r q) as [A | A].
    + assert (IZR r <= IZR q) by (apply IZR_le; lia).
      assert (IZR r * (p * p) <= IZR q * p * p) by Lra.nra.
      split.
      * apply sq_lt_sqrt; [Lra.lra |]. rewrite Ey. Lra.lra.
      * apply sqrt_lt_sq; [Lra.lra | rewrite Ey; Lra.nra |]. rewrite Ey. Lra.nra.
    + assert (IZR q + 1 <= IZR r) by (rewrite <- plus_IZR; apply IZR_le; lia).
      assert (IZR r <= 2 * IZR q) by (rewrite <- mult_IZR; apply IZR_le; lia).
      assert (IZR q * p * p + p * p <= IZR r * (p * p)) by Lra.nra.
      assert (IZR r * (p * p) <= 2 * (IZR q * p * p)) by Lra.nra.
      split.
      * apply sq_lt_sqrt; [Lra.lra |]. rewrite Ey. Lra.nra.
      * apply sqrt_lt_sq; [Lra.lra | rewrite Ey; Lra.nra |]. rewrite Ey. Lra.nra.
Qed.

Lemma SFsqrt_rounds (mx : positive) (ex : Z) :
  rounds (R_sqrt.sqrt (IZR (Zpos mx) * unit2 ex)) (SF64sqrt (S754_finite false mx ex)).
Proof.
  unfold SF64sqrt. cbn [SFsqrt].
  destruct (SFsqrt_core_facts mx ex) as (q & e' & r & E & Hq & Hr & Hv & Hd).
  rewrite E.
  exists q, e', (if (r =? 0)%Z then loc_Exact else loc_Inexact (if (r <=? q)%Z then Lt else Gt)).
  split; [lia |]. split; [apply fine_digits; [lia | assumption] |]. split; [| reflexivity].
  apply Qeq_eqR in Hv. rewrite !Q2R_val in Hv. rewrite Hv.
  now apply sqrt_located.
Qed.


(** *** Doubles that are not negative *)

Lemma rounds_positiveSign (X : R) (r : spec_float) : rounds X r -> positiveSign r.
Proof.
  intros (m & e & l & Hm & Hf & HL & ->).
  rewrite binary_round_aux_rounded.
  destruct (rounded_facts X m e l Hm Hf HL) as (a & k & F & B & E & D & L).
  pose proof (round_nearest_even_ge a k) as G. pose proof (round_nearest_even_le a k) as U.
  rewrite <- F in G, U.
  destruct (rounded m e l) as [b t]. cbn [fst snd] in *.
  destruct (finish_cases b t ltac:(lia) E ltac:(lia)) as [[_ R] | [(q & f & R & _) | [R _]]];
    rewrite R; exact I.
Qed.

Lemma zero_SFleb (r : spec_float) : positiveSign r -> SFleb (S754_zero false) r = true.
Proof. destruct r as [[] | [] | | [] m e]; cbn; intros H; try contradiction; reflexivity. Qed.

Lemma SFleb_infinity (r : spec_float) : positiveSign r -> SFleb r (S754_infinity false) = true.
Proof. destruct r as [[] | [] | | [] m e]; cbn; intros H; try contradiction; reflexivity. Qed.

Lemma SFleb_real (m1 m2 : positive) (e1 e2 : Z) :
  valid_binary (S754_finite false m1 e1) = true ->
  valid_binary (S754_finite false m2 e2) = true ->
  SFleb (S754_finite false m1 e1) (S754_finite false m2 e2) = true ->
  IZR (Zpos m1) * unit2 e1 <= IZR (Zpos m2) * unit2 e2.
Proof.
  intros V1 V2 H. apply (SFleb_val m1 m2 e1 e2 V1 V2) in H.
  apply Qle_Rle in H. now rewrite !Q2R_val in H.
Qed.

Lemma value_pos (m : positive) (e : Z) : 0 < IZR (Zpos m) * unit2 e.
Proof. apply Rmult_lt_0_compat; [apply IZR_lt; lia | apply unit2_pos]. Qed.

(** A double is the rounding of its own value. *)
Lemma valid_rounds (m : positive) (e : Z) :
  valid_binary (S754_finite false m e) = true ->
  rounds (IZR (Zpos m) * unit2 e) (S754_finite false m e).
Proof.
  intros V. pose proof (valid_finite _ _ _ V) as C. pose proof (valid_bound _ _ _ V) as B.
  exists (Zpos m), e, loc_Exact.
  split; [lia |]. split; [unfold fine; rewrite fexp64; cbn [Zdigits2]; lia |].
  split; [apply located_exact |].
  unfold binary_round_aux, shr_fexp, shr. rewrite fexp64. cbn [Zdigits2].
  replace (Z.max (Zpos (digits2_pos m) + e - 53) emin64 - e)%Z with 0%Z by lia.
  cbn [shr_record_of_loc shr_m loc_of_shr_record round_nearest_even shr_r shr_s fst snd Zdigits2].
  rewrite fexp64.
  replace (Z.max (Zpos (digits2_pos m) + e - 53) emin64 - e)%Z with 0%Z by lia.
  cbn [shr_m]. apply Z.leb_le in B. now rewrite B.
Qed.

Lemma rounds_zero : rounds 0 (S754_zero false).
Proof.
  exists 0%Z, emin64, loc_Exact. split; [lia |]. split; [unfold fine; rewrite fexp64; cbn; lia |].
  split; [| reflexivity].
  replace 0 with (IZR 0 * unit2 emin64) by Lra.lra. apply located_exact.
Qed.

Lemma digits2_shift (d m : positive) :
  Zpos (digits2_pos (Pos.iter xO m d)) = (Zpos (digits2_pos m) + Zpos d)%Z.
Proof.
  induction d as [| d IH] using Pos.peano_ind.
  - cbn. lia.
  - rewrite Pos.iter_succ. cbn [digits2_pos]. rewrite Pos2Z.inj_succ, IH. lia.
Qed.

(** [binary_round] rounds the value of its mantissa and exponent. *)
Lemma binary_round_rounds (m : positive) (e : Z) :
  rounds (IZR (Zpos m) * unit2 e) (binary_round prec emax false m e).
Proof.
  unfold binary_round.
  pose proof (shl_align_val m e (fexp prec emax (Zpos (digits2_pos m) + e))) as V.
  assert (F : fine (Zpos (fst (shl_align m e (fexp prec emax (Zpos (digits2_pos m) + e)))))
                (snd (shl_align m e (fexp prec emax (Zpos (digits2_pos m) + e))))).
  { unfold fine, shl_align. rewrite !fexp64.
    destruct (Z.max (Zpos (digits2_pos m) + e - 53) emin64 - e)%Z as [| d | d] eqn:Hd;
      cbn [fst snd Zdigits2]; rewrite ?digits2_shift; lia. }
  destruct (shl_align m e _) as [mz ez]. cbn [fst snd] in V, F.
  exists (Zpos mz), ez, loc_Exact. split; [lia |]. split; [exact F |]. split; [| reflexivity].
  apply Qeq_eqR in V. rewrite !Q2R_val in V. rewrite <- V. apply located_exact.
Qed.

Local Open Scope float_scope.

(** The double of a natural number below [2^63] rounds it. *)
Lemma ofZ_rounds (n : Z) :
  (0 <= n < 2 ^ 63)%Z ->
  rounds (IZR n) (Prim2SF (if (n =? 0)%Z then zero else JS.ofZ n)).
Proof.
  intros Hn. destruct n as [| q | q]; try lia; cbn [Z.eqb JS.ofZ].
  - exact rounds_zero.
  - rewrite of_uint63_spec.
    rewrite Uint63.of_Z_spec, Z.mod_small by (change Uint63.wB with (2 ^ 63)%Z; lia).
    cbn [binary_normalize].
    replace (IZR (Zpos q)) with (IZR (Zpos q) * unit2 0)%R.
    + apply binary_round_rounds.
    + unfold unit2. change (2 ^ 0)%Q with 1%Q. rewrite RMicromega.Q2R_1. Lra.lra.
Qed.

Local Open Scope R_scope.

(** *** Monotone operations *)

Ltac by_form x H :=
  destruct x as [[] | [] | | [] ?m ?e];
  try (exfalso; clear - H; cbv in H; discriminate H).

Ltac sign_of_rounding :=
  first [ exact I
        | eapply rounds_positiveSign; apply SFmul_rounds; assumption
        | eapply rounds_positiveSign; apply SFdiv_rounds
        | eapply rounds_positiveSign; apply SFsqrt_rounds ].

(** Products of positive doubles. *)
Lemma SFmul_mono (w1 w2 h1 h2 : spec_float) :
  valid_binary w1 = true -> valid_binary w2 = true ->
  valid_binary h1 = true -> valid_binary h2 = true ->
  SFltb (S754_zero false) w1 = true -> SFleb w1 w2 = true ->
  SFltb (S754_zero false) h1 = true -> SFleb h1 h2 = true ->
  valid_binary (SF64mul w1 h1) = true -> valid_binary (SF64mul w2 h2) = true ->
  positiveSign (SF64mul w1 h1) /\ positiveSign (SF64mul w2 h2) /\
  SFleb (SF64mul w1 h1) (SF64mul w2 h2) = true.
Proof.
  intros Vw1 Vw2 Vh1 Vh2 Pw Lw Ph Lh V1 V2.
  by_form w1 Pw; by_form w2 Lw; by_form h1 Ph; by_form h2 Lh;
    (split; [sign_of_rounding | split; [sign_of_rounding |]]);
    try (apply SFleb_infinity; sign_of_rounding).
  apply (rounds_mono _ _ _ _ (SFmul_rounds _ _ _ _ Vw1 Vh1) (SFmul_rounds _ _ _ _ Vw2 Vh2) V1 V2).
  pose proof (SFleb_real _ _ _ _ Vw1 Vw2 Lw). pose proof (SFleb_real _ _ _ _ Vh1 Vh2 Lh).
  pose proof (value_pos m e). pose proof (value_pos m1 e1).
  apply Rmult_le_compat; Lra.lra.
Qed.

(** An operation that rounds a monotone function of the value, and keeps
    zero and infinity, is monotone. *)
Lemma unary_mono (f : spec_float -> spec_float) (F : R -> R) :
  (forall m e, valid_binary (S754_finite false m e) = true ->
     rounds (F (IZR (Zpos m) * unit2 e)) (f (S754_finite false m e))) ->
  (forall a b, 0 < a <= b -> F a <= F b) ->
  f (S754_zero false) = S754_zero false ->
  f (S754_infinity false) = S754_infinity false ->
  forall x1 x2,
    positiveSign x1 -> positiveSign x2 ->
    valid_binary x1 = true -> valid_binary x2 = true -> SFleb x1 x2 = true ->
    valid_binary (f x1) = true -> valid_binary (f x2) = true ->
    positiveSign (f x1) /\ positiveSign (f x2) /\ SFleb (f x1) (f x2) = true.
Proof.
  intros Hr Hm H0 Hi x1 x2 P1 P2 Vx1 Vx2 L V1 V2.
  assert (S : forall x, positiveSign x -> valid_binary x = true -> positiveSign (f x)).
  { intros [[] | [] | | [] m e] P V; try contradiction.
    - rewrite H0. exact I.
    - rewrite Hi. exact I.
    - eapply rounds_positiveSign. now apply Hr. }
  split; [now apply S | split; [now apply S |]].
  destruct x1 as [[] | [] | | [] m1 e1]; try contradiction;
    destruct x2 as [[] | [] | | [] m2 e2]; try contradiction;
    try (exfalso; clear - L; cbv in L; discriminate L);
    try (rewrite ?H0, ?Hi;
         first [ reflexivity
               | apply zero_SFleb; apply S; [exact I | assumption]
               | apply SFleb_infinity; apply S; [exact I | assumption] ]).
  apply (rounds_mono _ _ _ _ (Hr _ _ Vx1) (Hr _ _ Vx2) V1 V2).
  apply Hm. split; [apply value_pos | now apply SFleb_real].
Qed.

(** The same for an antitone function that exchanges zero and infinity. *)
Lemma unary_anti (f : spec_float -> spec_float) (F : R -> R) :
  (forall m e, valid_binary (S754_finite false m e) = true ->
     rounds (F (IZR (Zpos m) * unit2 e)) (f (S754_finite false m e))) ->
  (forall a b, 0 < a <= b -> F b <= F a) ->
  f (S754_zero false) = S754_infinity false ->
  f (S754_infinity false) = S754_zero false ->
  forall x1 x2,
    positiveSign x1 -> positiveSign x2 ->
    valid_binary x1 = true -> valid_binary x2 = true -> SFleb x1 x2 = true ->
    valid_binary (f x1) = true -> valid_binary (f x2) = true ->
    positiveSign (f x1) /\ positiveSign (f x2) /\ SFleb (f x2) (f x1) = true.
Proof.
  intros Hr Hm H0 Hi x1 x2 P1 P2 Vx1 Vx2 L V1 V2.
  assert (S : forall x, positiveSign x -> valid_binary x = true -> positiveSign (f x)).
  { intros [[] | [] | | [] m e] P V; try contradiction.
    - rewrite H0. exact I.
    - rewrite Hi. exact I.
    - eapply rounds_positiveSign. now apply Hr. }
  split; [now apply S | split; [now apply S |]].
  destruct x1 as [[] | [] | | [] m1 e1]; try contradiction;
    destruct x2 as [[] | [] | | [] m2 e2]; try contradiction;
    try (exfalso; clear - L; cbv in L; discriminate L);
    try (rewrite ?H0, ?Hi;
         first [ reflexivity
               | apply zero_SFleb; apply S; [exact I | assumption]
               | apply SFleb_infinity; apply S; [exact I | assumption] ]).
  apply (rounds_mono _ _ _ _ (Hr _ _ Vx2) (Hr _ _ Vx1) V2 V1).
  apply Hm. split; [apply value_pos | now apply SFleb_real].
Qed.

(** *** [Math.round] *)

Lemma unit2_0 : unit2 0 = 1.
Proof. unfold unit2. change (2 ^ 0)%Q with 1%Q. apply RMicromega.Q2R_1. Qed.

(** On a positive double of value [v], [Math.round] rounds the integer
    [N] with [N <= v + 1/2 < N + 1]. *)
Lemma Math_round_rounds (x : float) (m : positive) (e : Z) :
  Prim2SF x = S754_finite false m e ->
  exists N : Z,
    rounds (IZR N) (Prim2SF (JS.Math_round x)) /\
    2 * IZR N <= 2 * (IZR (Zpos m) * unit2 e) + 1 < 2 * IZR N + 2.
Proof.
  intros E. pose proof (Prim2SF_valid x) as V. rewrite E in V.
  unfold JS.Math_round. rewrite E.
  destruct (0 <=? e)%Z eqn:He.
  - apply Z.leb_le in He. exists (Zpos m * 2 ^ e)%Z.
    assert (EN : IZR (Zpos m * 2 ^ e) = IZR (Zpos m) * unit2 e).
    { rewrite mult_IZR. f_equal. rewrite <- (Rmult_1_r (IZR (2 ^ e))), <- unit2_0.
      rewrite unit2_pow by assumption. f_equal. lia. }
    rewrite EN, E. split; [now apply valid_rounds | Lra.lra].
  - apply Z.leb_gt in He.
    set (d := (2 ^ (- e))%Z).
    assert (Hd : (0 < d)%Z) by (apply Z.pow_pos_nonneg; lia).
    assert (Hm53 : (Zpos m < 2 ^ 53)%Z).
    { pose proof (valid_finite _ _ _ V) as C.
      pose proof (digits2_pos_bounds m) as [_ U].
      apply Z.lt_le_trans with (1 := U). apply Z.pow_le_mono_r; lia. }
    pose proof (Z.div_mod (Zpos m) d ltac:(lia)) as D.
    pose proof (Z.mod_pos_bound (Zpos m) d Hd) as B.
    assert (Hq0 : (0 <= Zpos m / d)%Z) by (apply Z.div_pos; lia).
    assert (Hq53 : (Zpos m / d < 2 ^ 53)%Z).
    { apply Z.le_lt_trans with (Zpos m); [| assumption].
      apply Z.div_le_upper_bound; [lia | nia]. }
    set (n := if (d <=? 2 * (Zpos m mod d))%Z then (Zpos m / d + 1)%Z else (Zpos m / d)%Z).
    assert (Hn : (0 <= n < 2 ^ 63)%Z) by (unfold n; destruct (d <=? _)%Z; lia).
    assert (Hb : (2 * n * d <= 2 * Zpos m + d < (2 * n + 2) * d)%Z).
    { unfold n. destruct (Z.leb_spec d (2 * (Zpos m mod d))); nia. }
    exists n. split; [now apply ofZ_rounds |].
    assert (ED : IZR (Zpos m) * unit2 e * IZR d = IZR (Zpos m)).
    { rewrite Rmult_assoc, (Rmult_comm (unit2 e)). unfold d. rewrite unit2_pow by lia.
      replace (- e + e)%Z with 0%Z by lia. rewrite unit2_0. ring. }
    assert (PD : 0 < IZR d) by (apply IZR_lt; lia).
    destruct Hb as [Lo Hi]. apply IZR_le in Lo. apply IZR_lt in Hi.
    rewrite !mult_IZR, !plus_IZR, !mult_IZR in *.
    set (v := IZR (Zpos m) * unit2 e) in *.
    split.
    + apply Rmult_le_reg_r with (IZR d); [assumption |]. Lra.nra.
    + apply Rmult_lt_reg_r with (IZR d); [assumption |]. Lra.nra.
Qed.

(** [Math.round] is monotone on doubles that are not negative. *)
Lemma Math_round_mono (x1 x2 : float) :
  positiveSign (Prim2SF x1) -> positiveSign (Prim2SF x2) -> (x1 <=? x2)%float = true ->
  positiveSign (Prim2SF (JS.Math_round x1)) /\ positiveSign (Prim2SF (JS.Math_round x2)) /\
  (JS.Math_round x1 <=? JS.Math_round x2)%float = true.
Proof.
  intros P1 P2 L.
  assert (S : forall x, positiveSign (Prim2SF x) -> positiveSign (Prim2SF (JS.Math_round x))).
  { intros x P. destruct (Prim2SF x) as [[] | [] | | [] m e] eqn:E; try contradiction.
    - unfold JS.Math_round. rewrite E, E. exact I.
    - unfold JS.Math_round. rewrite E, E. exact I.
    - destruct (Math_round_rounds x m e E) as (N & R & _).
      now apply rounds_positiveSign with (IZR N). }
  split; [now apply S | split; [now apply S |]].
  pose proof (S x1 P1) as S1. pose proof (S x2 P2) as S2.
  pose proof (Prim2SF_valid (JS.Math_round x1)) as V1.
  pose proof (Prim2SF_valid (JS.Math_round x2)) as V2.
  pose proof (Prim2SF_valid x1) as Vx1. pose proof (Prim2SF_valid x2) as Vx2.
  rewrite leb_spec in *.
  assert (K : forall x s, Prim2SF x = S754_zero s \/ Prim2SF x = S754_infinity s ->
            Prim2SF (JS.Math_round x) = Prim2SF x).
  { intros x s [E | E]; unfold JS.Math_round; rewrite E; exact E. }
  destruct (Prim2SF x1) as [[] | [] | | [] m1 e1] eqn:E1; try contradiction;
    destruct (Prim2SF x2) as [[] | [] | | [] m2 e2] eqn:E2; try contradiction;
    try (exfalso; clear - L; cbv in L; discriminate L);
    rewrite ?(K x1 false (or_introl E1)), ?(K x1 false (or_intror E1)),
            ?(K x2 false (or_introl E2)), ?(K x2 false (or_intror E2)), ?E1, ?E2;
    try reflexivity;
    try (now apply zero_SFleb); try (now apply SFleb_infinity).
  destruct (Math_round_rounds x1 m1 e1 E1) as (N1 & R1 & B1).
  destruct (Math_round_rounds x2 m2 e2 E2) as (N2 & R2 & B2).
  apply (rounds_mono _ _ _ _ R1 R2 V1 V2).
  pose proof (SFleb_real _ _ _ _ Vx1 Vx2 L) as Lv.
  apply IZR_le. apply Z.lt_succ_r. apply lt_IZR. rewrite succ_IZR. Lra.lra.
Qed.

(** *** The operations on doubles *)

Lemma positive_positiveSign (x : float) :
  (0 <? x)%float = true -> positiveSign (Prim2SF x).
Proof.
  rewrite ltb_spec, Prim2SF_zero.
  destruct (Prim2SF x) as [[] | [] | | [] m e]; cbv; intros H; try discriminate H; exact I.
Qed.

Lemma mul_mono (w1 w2 h1 h2 : float) :
  (0 <? w1)%float = true -> (w1 <=? w2)%float = true ->
  (0 <? h1)%float = true -> (h1 <=? h2)%float = true ->
  positiveSign (Prim2SF (w1 * h1)) /\ positiveSign (Prim2SF (w2 * h2)) /\
  (w1 * h1 <=? w2 * h2)%float = true.
Proof.
  rewrite !ltb_spec, !leb_spec, Prim2SF_zero.
  pose proof (Prim2SF_valid (w1 * h1)) as V1. pose proof (Prim2SF_valid (w2 * h2)) as V2.
  rewrite !mul_spec in *.
  intros. apply SFmul_mono; auto using Prim2SF_valid.
Qed.

Lemma sqrt_mono (x1 x2 : float) :
  positiveSign (Prim2SF x1) -> positiveSign (Prim2SF x2) -> (x1 <=? x2)%float = true ->
  positiveSign (Prim2SF (sqrt x1)) /\ positiveSign (Prim2SF (sqrt x2)) /\
  (sqrt x1 <=? sqrt x2)%float = true.
Proof.
  rewrite !leb_spec.
  pose proof (Prim2SF_valid (sqrt x1)) as V1. pose proof (Prim2SF_valid (sqrt x2)) as V2.
  rewrite !sqrt_spec in *.
  intros P1 P2 L.
  apply (unary_mono SF64sqrt R_sqrt.sqrt); auto using Prim2SF_valid.
  - intros m e _. apply SFsqrt_rounds.
  - intros a b [_ H]. now apply sqrt_le_1_alt.
Qed.

(** Multiplication by a positive constant. *)
Lemma scale_mono (c x1 x2 : float) (mc : positive) (ec : Z) :
  Prim2SF c = S754_finite false mc ec ->
  positiveSign (Prim2SF x1) -> positiveSign (Prim2SF x2) -> (x1 <=? x2)%float = true ->
  positiveSign (Prim2SF (x1 * c)) /\ positiveSign (Prim2SF (x2 * c)) /\
  (x1 * c <=? x2 * c)%float = true.
Proof.
  intros Ec. rewrite !leb_spec.
  pose proof (Prim2SF_valid (x1 * c)) as V1. pose proof (Prim2SF_valid (x2 * c)) as V2.
  pose proof (Prim2SF_valid c) as Vc.
  rewrite !mul_spec, Ec in *.
  intros P1 P2 L.
  apply (unary_mono (fun x => SF64mul x (S754_finite false mc ec))
           (fun a => a * (IZR (Zpos mc) * unit2 ec))); auto using Prim2SF_valid.
  - intros m e V. now apply SFmul_rounds.
  - intros a b [Ha H]. pose proof (value_pos mc ec). Lra.nra.
Qed.

(** Division by a positive constant. *)
Lemma quotient_mono (c x1 x2 : float) (mc : positive) (ec : Z) :
  Prim2SF c = S754_finite false mc ec ->
  positiveSign (Prim2SF x1) -> positiveSign (Prim2SF x2) -> (x1 <=? x2)%float = true ->
  positiveSign (Prim2SF (x1 / c)) /\ positiveSign (Prim2SF (x2 / c)) /\
  (x1 / c <=? x2 / c)%float = true.
Proof.
  intros Ec. rewrite !leb_spec.
  pose proof (Prim2SF_valid (x1 / c)) as V1. pose proof (Prim2SF_valid (x2 / c)) as V2.
  rewrite !div_spec, Ec in *.
  intros P1 P2 L.
  apply (unary_mono (fun x => SF64div x (S754_finite false mc ec))
           (fun a => a / (IZR (Zpos mc) * unit2 ec))); auto using Prim2SF_valid.
  - intros m e V. apply SFdiv_rounds.
  - intros a b [Ha H]. pose proof (value_pos mc ec).
    unfold Rdiv. apply Rmult_le_compat_r; [| assumption].
    apply Rlt_le, Rinv_0_lt_compat. assumption.
Qed.

(** Division of a positive constant. *)
Lemma ratio_anti (c y1 y2 : float) (mc : positive) (ec : Z) :
  Prim2SF c = S754_finite false mc ec ->
  positiveSign (Prim2SF y1) -> positiveSign (Prim2SF y2) -> (y1 <=? y2)%float = true ->
  positiveSign (Prim2SF (c / y1)) /\ positiveSign (Prim2SF (c / y2)) /\
  (c / y2 <=? c / y1)%float = true.
Proof.
  intros Ec. rewrite !leb_spec.
  pose proof (Prim2SF_valid (c / y1)) as V1. pose proof (Prim2SF_valid (c / y2)) as V2.
  rewrite !div_spec, Ec in *.
  intros P1 P2 L.
  apply (unary_anti (fun y => SF64div (S754_finite false mc ec) y)
           (fun a => IZR (Zpos mc) * unit2 ec / a)); auto using Prim2SF_valid.
  - intros m e V. apply SFdiv_rounds.
  - intros a b [Ha H]. pose proof (value_pos mc ec).
    unfold Rdiv. apply Rmult_le_compat_l; [Lra.lra |].
    apply Rinv_le_contravar; assumption.
Qed.

End Rounding.

Import Rounding.
Local Open Scope float_scope.

(** ** Larger boxes are nearer *)

Lemma estimateDistance_antitone (b1 b2 : list float) :
  (0 <? item b1 2) = true -> (item b1 2 <=? item b2 2) = true ->
  (0 <? item b1 3) = true -> (item b1 3 <=? item b2 3) = true ->
  positiveSign (Prim2SF (estimateDistance b1)) /\
  positiveSign (Prim2SF (estimateDistance b2)) /\
  (estimateDistance b2 <=? estimateDistance b1) = true.
Proof.
  intros Pw Lw Ph Lh. unfold estimateDistance.
  assert (E6 : exists m e, Prim2SF 1000000 = S754_finite false m e)
    by (vm_compute; eauto).
  assert (E1 : exists m e, Prim2SF 10 = S754_finite false m e)
    by (vm_compute; eauto).
  destruct E6 as (m6 & e6 & E6). destruct E1 as (m1 & e1 & E1).
  destruct (mul_mono _ _ _ _ Pw Lw Ph Lh) as (A1 & A2 & LA).
  destruct (ratio_anti 1000000 _ _ _ _ E6 A1 A2 LA) as (Q1 & Q2 & LQ).
  destruct (sqrt_mono _ _ Q2 Q1 LQ) as (S2 & S1 & LS).
  destruct (scale_mono 10 _ _ _ _ E1 S2 S1 LS) as (T2 & T1 & LT).
  destruct (Math_round_mono _ _ T2 T1 LT) as (R2 & R1 & LR).
  destruct (quotient_mono 10 _ _ _ _ E1 R2 R1 LR) as (D2 & D1 & L). auto.
Qed.

(** X19.  A box that is at least as wide and at least as high as another
    one of positive size is never estimated farther away: the estimate,
    with its three roundings and [Math.round], is antitone in the size of
    the box, for every pair of doubles, [Infinity] and sizes whose area
    underflows to zero or overflows included. *)
Theorem X19_larger_box_is_never_farther (b1 b2 : list float) :
  (0 <? item b1 2) = true -> (item b1 2 <=? item b2 2) = true ->
  (0 <? item b1 3) = true -> (item b1 3 <=? item b2 3) = true ->
  (estimateDistance b2 <=? estimateDistance b1) = true /\
  (estimateDistance b1 <? estimateDistance b2) = false.
Proof.
  intros Pw Lw Ph Lh.
  destruct (estimateDistance_antitone b1 b2 Pw Lw Ph Lh) as (_ & _ & L).
  split; [exact L |]. now apply leb_not_ltb.
Qed.

Lemma X19_larger_box_is_never_farther_witness :
  (estimateDistance (bbox nearCar) <=? estimateDistance (bbox carAt2)) = true /\
  (estimateDistance (bbox carAt2) <? estimateDistance (bbox nearCar)) = false.
Proof.
  exact (X19_larger_box_is_never_farther (bbox carAt2) (bbox nearCar)
           eq_refl eq_refl eq_refl eq_refl).
Defined.

(** [x || 0] keeps the order of the numbers. *)
Lemma ltb_orZero (x y : float) :
  is_nan x = false -> (y <? JS.orZero (Some x)) = (y <? x).
Proof.
  intros H. cbn [JS.orZero]. unfold JS.truthy. rewrite H. cbn [orb].
  destruct (is_zero x) eqn:E; cbn [negb]; [| reflexivity].
  symmetry. now apply is_zero_ltb_r.
Qed.

Lemma leb_not_nan (x y : float) :
  (x <=? y) = true -> is_nan x = false /\ is_nan y = false.
Proof.
  rewrite leb_spec, !is_nan_false. unfold SFleb.
  destruct (Prim2SF x) as [[] | [] | | [] mx ex], (Prim2SF y) as [[] | [] | | [] my ey];
    cbn [SFcompare]; intros H; try discriminate H; split; discriminate.
Qed.

Lemma orZero_leb (x y : float) :
  (x <=? y) = true -> (JS.orZero (Some x) <=? JS.orZero (Some y)) = true.
Proof.
  intros H. destruct (leb_not_nan x y H) as [Nx Ny].
  rewrite leb_negb_ltb by apply orZero_not_nan.
  rewrite orZero_ltb by assumption. rewrite ltb_orZero by assumption.
  now rewrite <- leb_negb_ltb.
Qed.

(** Of two detections of one class, the one that is not farther is ranked
    first or equal. *)
Lemma same_class_ranked (p : Props) (a b : Detection) :
  class a = class b -> (distanceOf a <=? distanceOf b) = true -> rankedBefore p a b.
Proof.
  intros Hc Hd. unfold rankedBefore, getPriorityLevel.
  fold (distanceOf a) (distanceOf b). rewrite Hc.
  pose proof (leb_ltb_trans _ _ (warningDistance p * 0.5) Hd) as H5.
  pose proof (leb_ltb_trans _ _ (warningDistance p * 0.4) Hd) as H4.
  pose proof (leb_ltb_trans _ _ (warningDistance p) Hd) as H1.
  destruct (includes dangerousObjects (class b)), (includes obstacles (class b)),
    (distanceOf b <? warningDistance p * 0.5),
    (distanceOf b <? warningDistance p * 0.4),
    (distanceOf b <? warningDistance p);
    rewrite ?H5, ?H4, ?H1 by reflexivity;
    repeat match goal with |- context [if ?c then _ else _] => destruct c end;
    first [ right; split; [reflexivity | exact Hd] | left; reflexivity ].
Qed.

(** X20.  Of two detections of the same class, the one whose box is at
    least as wide and as high is read as not farther, gets a tier that is
    not less urgent, and is never put after the other one by the comparison
    that orders the announcement. *)
Theorem X20_larger_box_never_ranks_after (p : Props) (d1 d2 : Detection) :
  class d1 = class d2 ->
  (0 <? item (bbox d1) 2) = true -> (item (bbox d1) 2 <=? item (bbox d2) 2) = true ->
  (0 <? item (bbox d1) 3) = true -> (item (bbox d1) 3 <=? item (bbox d2) 3) = true ->
  (distanceOf (decorate d2) <=? distanceOf (decorate d1)) = true /\
  rankedBefore p (decorate d2) (decorate d1) /\
  (getPriorityLevel p (decorate d2) <=? getPriorityLevel p (decorate d1)) = true /\
  sortOrder (compareDetections p (decorate d2) (decorate d1)) <> Gt /\
  sortOrder (compareDetections p (decorate d1) (decorate d2)) <> Lt.
Proof.
  intros Hc Pw Lw Ph Lh.
  destruct (estimateDistance_antitone _ _ Pw Lw Ph Lh) as (_ & _ & L).
  assert (D : (distanceOf (decorate d2) <=? distanceOf (decorate d1)) = true)
    by (apply orZero_leb; exact L).
  assert (R : rankedBefore p (decorate d2) (decorate d1))
    by (apply same_class_ranked; [symmetry; exact Hc | exact D]).
  pose proof (proj2 (notAfter_ranked p _ _) R) as N. unfold notAfter in N.
  split; [exact D |]. split; [exact R |]. split; [| split].
  - destruct R as [R | [R _]].
    + pose proof (tier_range p (decorate d2)) as T2.
      pose proof (tier_range p (decorate d1)) as T1.
      rewrite leb_negb_ltb; [now rewrite (ltb_asym _ _ R) | |];
        unfold tiers in *; cbn [In] in *;
        repeat match goal with H : _ \/ _ |- _ => destruct H as [<- | H] end;
        try contradiction; reflexivity.
    + rewrite R. apply leb_refl.
      pose proof (tier_range p (decorate d1)) as T1. unfold tiers in T1. cbn [In] in T1.
      repeat match goal with H : _ \/ _ |- _ => destruct H as [<- | H] end;
        try contradiction; reflexivity.
  - rewrite sortOrder_compare, N.
    destruct (0 <? compareDetections p (decorate d1) (decorate d2)); discriminate.
  - rewrite sortOrder_compare, N.
    destruct (0 <? compareDetections p (decorate d1) (decorate d2)); discriminate.
Qed.

Lemma X20_larger_box_never_ranks_after_witness :
  (distanceOf (decorate nearCar) <=? distanceOf (decorate carAt2)) = true /\
  rankedBefore cautiousProps (decorate nearCar) (decorate carAt2) /\
  (getPriorityLevel cautiousProps (decorate nearCar)
   <=? getPriorityLevel cautiousProps (decorate carAt2)) = true /\
  sortOrder (compareDetections cautiousProps (decorate nearCar) (decorate carAt2)) <> Gt /\
  sortOrder (compareDetections cautiousProps (decorate carAt2) (decorate nearCar)) <> Lt.
Proof.
  exact (X20_larger_box_never_ranks_after cautiousProps carAt2 nearCar
           eq_refl eq_refl eq_refl eq_refl eq_refl).
Defined.
